(** * Verification of the puzzle solvers

    Shallow embedding of [puzzle_tools.py] (the two search procedures and
    the [PuzzleNode] objects they build) and of the three puzzle classes
    [word_ladder_puzzle.py], [mn_puzzle.py] and
    [grid_peg_solitaire_puzzle.py].

    Python objects that are mutated after construction ([PuzzleNode]) live
    in an explicit store; a reference is the index of the object in the
    store, and allocation appends.  Loops and recursion whose termination
    is not structural take a [fuel] argument, and [None] means that the
    fuel ran out before the Python code returned. *)

From stdpp Require Import base option list sorting gmap strings.
From Stdlib Require Import ZArith.

Set Default Proof Using "Type*".
Set Warnings "-clear-no-such-hyp".

(** ** The puzzle interface *)

(** Modelled from the spec: the abstract class [Puzzle] of [puzzle.py],
    which is not among the sources.  It is the capability set of the
    puzzle contract: the three methods the solvers call, and the
    structural equality ([__eq__]) every puzzle class defines, under which
    two states are equal iff their configurations are. *)
Class Puzzle (P : Type) := {
  puzzle_eq_dec :: EqDecision P;
  extensions : P → list P;
  is_solved : P → bool;
  fail_fast : P → bool;
}.

Module PuzzleTools.

Section Solver.
Context {P : Type} `{Puzzle P} `{Inhabited P}.

(** *** class PuzzleNode *)

(** A reference to a node is its index in the store. *)
Abbreviation ref := nat (only parsing).

Record PuzzleNode := mkPuzzleNode {
  puzzle : P;
  children : list ref;
  parent : option ref;
  in_solution : bool;
}.

(** [PuzzleNode(puzz)]: the constructor's defaults. *)
Definition PuzzleNode_init (puzz : P) : PuzzleNode :=
  mkPuzzleNode puzz [] None false.

#[export] Instance PuzzleNode_inhabited : Inhabited PuzzleNode :=
  populate (PuzzleNode_init inhabitant).

(** The store of the [PuzzleNode] objects: [h !!! r] is the node behind
    the reference [r].  The solvers hold references to allocated nodes
    only, so the default of a lookup out of range is never read. *)
Abbreviation heap := (list PuzzleNode) (only parsing).

(** [r.parent = v] *)
Definition set_parent (h : heap) (r : ref) (v : option ref) : heap :=
  alter (λ n, mkPuzzleNode (puzzle n) (children n) v (in_solution n)) r h.

(** [r.in_solution = True] *)
Definition set_in_solution (h : heap) (r : ref) : heap :=
  alter (λ n, mkPuzzleNode (puzzle n) (children n) (parent n) true) r h.

(** [r.children.append(c)] *)
Definition append_child (h : heap) (r c : ref) : heap :=
  alter (λ n, mkPuzzleNode (puzzle n) (children n ++ [c]) (parent n)
                (in_solution n)) r h.

(** *** depth_first_solve *)

(** [[x.puzzle for x in seen]] *)
Definition seen_puzzles (h : heap) (seen : list ref) : list P :=
  (λ x, puzzle (h !!! x)) <$> seen.

(** The first [for] loop of [_depth_first_solve], over
    [puzz.extensions()]; [rec_] is the recursive call with the current
    [seen].  A [PuzzleNode] is always truthy (the class defines neither
    [__bool__] nor [__len__]), so [new_node and new_node.in_solution]
    is false exactly for [None] and for a node not marked. *)
Fixpoint dfs_for (rec_ : P → heap → option (option ref * heap))
    (curr_node : ref) (ps : list P) (h : heap) : option heap :=
  match ps with
  | [] => Some h
  | p :: ps' =>
      match rec_ p h with
      | None => None
      | Some (Some new_node, h1) =>
          if in_solution (h1 !!! new_node)
          then Some (append_child h1 curr_node new_node)
          else dfs_for rec_ curr_node ps' h1
      | Some (None, h1) => dfs_for rec_ curr_node ps' h1
      end
  end.

(** The second [for] loop, over [curr_node.children]. *)
Fixpoint dfs_mark (curr_node : ref) (cs : list ref) (h : heap) : heap :=
  match cs with
  | [] => h
  | p :: cs' =>
      if in_solution (h !!! p)
      then dfs_mark curr_node cs'
             (set_in_solution (set_parent h p (Some curr_node)) curr_node)
      else dfs_mark curr_node cs' h
  end.

(** The body of [_depth_first_solve].  [seen] is a tuple, so
    [seen += (curr_node,)] rebinds the local name only: the callers'
    tuples are unchanged, and the update before the bare [return] of the
    [fail_fast] branch has no effect. *)
Definition dfs_body
    (rec_ : P → list ref → heap → option (option ref * heap))
    (puzz : P) (seen : list ref) (h : heap) : option (option ref * heap) :=
  let curr_node := length h in
  let h := h ++ [PuzzleNode_init puzz] in
  if bool_decide (puzz ∈ seen_puzzles h seen) then Some (None, h)
  else if fail_fast puzz then Some (None, h)
  else if is_solved puzz then
    Some (Some curr_node, set_in_solution h curr_node)
  else
    let seen := seen ++ [curr_node] in
    match dfs_for (λ p, rec_ p seen) curr_node (extensions puzz) h with
    | None => None
    | Some h =>
        let h := dfs_mark curr_node (children (h !!! curr_node)) h in
        Some (if in_solution (h !!! curr_node) then Some curr_node
              else None, h)
    end.

Fixpoint _depth_first_solve (fuel : nat)
    : P → list ref → heap → option (option ref * heap) :=
  match fuel with
  | 0 => λ _ _ _, None
  | S n => dfs_body (_depth_first_solve n)
  end.

(** The result is the returned node (or [None]) and the final store. *)
Definition depth_first_solve (fuel : nat) (puzzle : P)
    : option (option ref * heap) :=
  _depth_first_solve fuel puzzle [] [].

(** *** breadth_first_solve *)

Record bfs_state := mkBfs {
  bfs_heap : heap;
  bfs_q : list ref;
  bfs_seen : list P;
  bfs_curr : ref;
}.

(** The [for] loop over [curr_node.puzzle.extensions()]. *)
Fixpoint bfs_for (curr_node : ref) (ps : list P)
    (h : heap) (q : list ref) (seen : list P) : heap * list ref * list P :=
  match ps with
  | [] => (h, q, seen)
  | p :: ps' =>
      if bool_decide (p ∉ seen) then
        let new_node := length h in
        bfs_for curr_node ps'
          (h ++ [mkPuzzleNode p [] (Some curr_node) false])
          (q ++ [new_node]) (seen ++ [p])
      else bfs_for curr_node ps' h q seen
  end.

(** [not curr_node.puzzle.is_solved() and len(q) > 0] *)
Definition bfs_cond (st : bfs_state) : bool :=
  negb (is_solved (puzzle (bfs_heap st !!! bfs_curr st)))
  && bool_decide (0 < length (bfs_q st)).

(** One iteration of the [while] loop; [popleft] is only reached with a
    non-empty deque. *)
Definition bfs_body (st : bfs_state) : bfs_state :=
  match bfs_q st with
  | [] => st
  | curr_node :: q =>
      let seen := bfs_seen st ++ [puzzle (bfs_heap st !!! curr_node)] in
      let '(h, q, seen) :=
        bfs_for curr_node (extensions (puzzle (bfs_heap st !!! curr_node)))
          (bfs_heap st) q seen in
      mkBfs h q seen curr_node
  end.

Fixpoint bfs_while (fuel : nat) (st : bfs_state) : option bfs_state :=
  match fuel with
  | 0 => None
  | S n => if bfs_cond st then bfs_while n (bfs_body st) else Some st
  end.

(** [while curr_node.parent: ...] *)
Fixpoint bfs_link (fuel : nat) (h : heap) (curr_node : ref)
    : option (ref * heap) :=
  match fuel with
  | 0 => None
  | S n =>
      match parent (h !!! curr_node) with
      | Some p => bfs_link n (append_child h p curr_node) p
      | None => Some (curr_node, h)
      end
  end.

Definition bfs_init (puzz : P) : bfs_state :=
  mkBfs [PuzzleNode_init puzz] [0] [] 0.

Definition _breadth_first_solve (fuel : nat) (puzz : P)
    : option (option ref * heap) :=
  match bfs_while fuel (bfs_init puzz) with
  | None => None
  | Some st =>
      if is_solved (puzzle (bfs_heap st !!! bfs_curr st)) then
        match bfs_link fuel (bfs_heap st) (bfs_curr st) with
        | None => None
        | Some (root, h) => Some (Some root, h)
        end
      else Some (None, bfs_heap st)
  end.

Definition breadth_first_solve (fuel : nat) (puzzle : P)
    : option (option ref * heap) :=
  _breadth_first_solve fuel puzzle.

(** *** PuzzleNode.__eq__ and PuzzleNode.__str__ *)

(** The string ["\n"]. *)
Definition nl : string := String (Ascii.ascii_of_nat 10) EmptyString.

(** [x in lst] for a list of nodes: an item matches when it is [x] itself
    or when it is [==] to [x] (the item on the left, as CPython compares).
    [eq] is [PuzzleNode.__eq__]; [None] means that it ran out of fuel. *)
Fixpoint node_in (eq : ref → ref → option bool) (x : ref) (lst : list ref)
    : option bool :=
  match lst with
  | [] => Some false
  | item :: lst' =>
      if bool_decide (item = x) then Some true
      else match eq item x with
           | None => None
           | Some true => Some true
           | Some false => node_in eq x lst'
           end
  end.

(** [PuzzleNode.__eq__]; both arguments are nodes, so
    [type(self) == type(other)] holds.  Each [all([...])] builds its whole
    list before it is tested, and [and] skips the second one when the
    first is false. *)
Fixpoint PuzzleNode__eq__ (fuel : nat) (h : heap) (self other : ref)
    : option bool :=
  match fuel with
  | 0 => None
  | S n =>
      if bool_decide (puzzle (h !!! self) = puzzle (h !!! other)) then
        match mapM (λ x, node_in (PuzzleNode__eq__ n h) x
                           (children (h !!! self)))
                (children (h !!! other)) with
        | None => None
        | Some bs =>
            if forallb id bs then
              match mapM (λ x, node_in (PuzzleNode__eq__ n h) x
                                 (children (h !!! other)))
                      (children (h !!! self)) with
              | None => None
              | Some bs' => Some (forallb id bs')
              end
            else Some false
        end
      else Some false
  end.

(** [PuzzleNode.__str__]; [str_puzzle] is the [__str__] of the puzzle
    class. *)
Fixpoint PuzzleNode__str__ (str_puzzle : P → string) (fuel : nat)
    (h : heap) (self : ref) : option string :=
  match fuel with
  | 0 => None
  | S n =>
      match mapM (PuzzleNode__str__ str_puzzle n h)
              (children (h !!! self)) with
      | None => None
      | Some strs =>
          Some (String.append (str_puzzle (puzzle (h !!! self)))
                  (String.append (String.append nl nl)
                     (String.concat nl strs)))
      end
  end.

(** *** Vocabulary of the specification *)

(** A sequence of states in which each state is an extension of the one
    before it. *)
Fixpoint is_path (l : list P) : Prop :=
  match l with
  | a :: (b :: _) as t => b ∈ extensions a ∧ is_path t
  | _ => True
  end.

(** [l] is a sequence of valid extensions from [start] that ends in a
    solved state; it makes [length l - 1] extension steps. *)
Definition solved_path (start : P) (l : list P) : Prop :=
  head l = Some start ∧ is_path l ∧
  ∃ e, last l = Some e ∧ is_solved e = true.

(** The states reachable from [puzz] by exactly [n] extension steps. *)
Fixpoint level (puzz : P) (n : nat) : list P :=
  match n with
  | 0 => [puzz]
  | S n => level puzz n ≫= extensions
  end.

(** The nodes [ids] form a linear chain in the store: each has the next
    one as its only child, and the last has no child. *)
Fixpoint linked (h : heap) (ids : list ref) : Prop :=
  match ids with
  | [] => True
  | a :: rest =>
      children (h !!! a) = option_list (head rest) ∧ linked h rest
  end.

(** Each node of [ids] but the first has the node before it as parent. *)
Fixpoint parented (h : heap) (ids : list ref) : Prop :=
  match ids with
  | a :: (b :: _) as rest =>
      parent (h !!! b) = Some a ∧ parented h rest
  | _ => True
  end.

(** The chain of nodes a solver returns: the nodes reached from [root]
    through [children], listed from the root to the leaf. *)
Definition chain (h : heap) (root : ref) (ids : list ref) : Prop :=
  head ids = Some root ∧ linked h ids ∧ Forall (λ i, i < length h) ids.

Definition chain_states (h : heap) (ids : list ref) : list P :=
  seen_puzzles h ids.

(** The states that [bfs_for] finds new, in the order it enqueues
    them. *)
Fixpoint fresh (ps : list P) (seen : list P) : list P :=
  match ps with
  | [] => []
  | p :: ps' =>
      if bool_decide (p ∉ seen) then p :: fresh ps' (seen ++ [p])
      else fresh ps' seen
  end.

(** *** Loop invariants *)

(** Invariant of the [while] loop of [_breadth_first_solve] after [k]
    iterations: the nodes [0 .. k-1] have been taken from the deque, the
    deque holds the nodes [k ..], and [ds] gives for each node the
    number of [parent] links from it up to the root. *)
Record bfs_inv (puzz : P) (k : nat) (ds : list nat) (st : bfs_state)
    : Prop := {
  inv_q : bfs_q st = seq k (length (bfs_heap st) - k);
  inv_curr : bfs_curr st = pred k;
  inv_k : k ≤ length (bfs_heap st);
  inv_ds : length ds = length (bfs_heap st);
  inv_root : bfs_heap st !! 0 = Some (PuzzleNode_init puzz);
  inv_ds0 : ds !!! 0 = 0;
  inv_parent : ∀ i, 0 < i < length (bfs_heap st) →
    ∃ j, parent (bfs_heap st !!! i) = Some j ∧ j < i ∧ j < k ∧
         puzzle (bfs_heap st !!! i)
           ∈ extensions (puzzle (bfs_heap st !!! j)) ∧
         ds !!! i = S (ds !!! j);
  inv_children : ∀ i, i < length (bfs_heap st) →
    children (bfs_heap st !!! i) = [];
  inv_nodup : NoDup (puzzle <$> bfs_heap st);
  inv_seen_sub : ∀ p, p ∈ bfs_seen st → p ∈ puzzle <$> bfs_heap st;
  inv_seen_sup : 0 < k →
    ∀ p, p ∈ puzzle <$> bfs_heap st → p ∈ bfs_seen st;
  inv_mono : ∀ i j, i ≤ j → j < length (bfs_heap st) →
    ds !!! i ≤ ds !!! j;
  inv_bound : ∀ j, j < length (bfs_heap st) →
    ds !!! j ≤ S (ds !!! pred k);
  inv_closed : ∀ i e, i < k →
    e ∈ extensions (puzzle (bfs_heap st !!! i)) →
    ∃ j, j < length (bfs_heap st) ∧ puzzle (bfs_heap st !!! j) = e ∧
         ds !!! j ≤ S (ds !!! i);
  inv_unsolved : ∀ i, i < pred k →
    is_solved (puzzle (bfs_heap st !!! i)) = false;
}.

(** The states reachable from [puzz] by at most [d] extension steps. *)
Definition within (puzz : P) (d : nat) : list P :=
  seq 0 (S d) ≫= level puzz.

(** Invariant of the second [while] loop of [_breadth_first_solve]:
    [h0] is the store when the first loop ends, [ids] the chain linked so
    far, from the current node down to the solved node. *)
Record link_inv (h0 h : heap) (ids : list ref) : Prop := {
  li_len : length h = length h0;
  li_same : ∀ i, parent (h !!! i) = parent (h0 !!! i) ∧
                 puzzle (h !!! i) = puzzle (h0 !!! i);
  li_above : ∀ c i, head ids = Some c → i < c → children (h !!! i) = [];
  li_linked : linked h ids;
  li_sorted : StronglySorted lt ids;
  li_valid : Forall (λ i, i < length h) ids;
  li_path : is_path (chain_states h0 ids);
  li_parented : parented h0 ids;
}.

(** What the solvers promise about a returned chain: [ids] lists the
    nodes from the returned [root] down to the leaf. *)
Record solution_chain (puzz : P) (h : heap) (root : ref) (ids : list ref)
    : Prop := {
  sc_chain : chain h root ids;
  sc_nodup_ids : NoDup ids;
  sc_start : puzzle (h !!! root) = puzz;
  sc_path : is_path (chain_states h ids);
  sc_solved : ∃ e, last ids = Some e ∧ is_solved (puzzle (h !!! e)) = true;
  sc_root_parent : parent (h !!! root) = None;
  sc_parented : parented h ids;
  sc_distinct : NoDup (chain_states h ids);
}.

(** What a call of [_depth_first_solve] that returns the node [c]
    guarantees: [seenP] are the states of its [seen], [lo] the size of
    the store when it is called, and [ids] the chain from [c]. *)
Record dfs_chain (puzz : P) (seenP : list P) (h : heap) (lo : nat)
    (c : ref) (ids : list ref) : Prop := {
  dc_head : head ids = Some c;
  dc_linked : linked h ids;
  dc_sorted : StronglySorted lt ids;
  dc_range : Forall (λ i, lo ≤ i < length h) ids;
  dc_start : puzzle (h !!! c) = puzz;
  dc_path : is_path (chain_states h ids);
  dc_solved : ∃ e, last ids = Some e ∧ is_solved (puzzle (h !!! e)) = true;
  dc_fresh : ∀ s, s ∈ chain_states h ids → s ∉ seenP;
  dc_distinct : NoDup (chain_states h ids);
  dc_root_parent : parent (h !!! c) = None;
  dc_parented : parented h ids;
  dc_insol : in_solution (h !!! c) = true;
  dc_others : ∀ i, lo ≤ i < length h → parent (h !!! i) ≠ None → i ∈ ids;
}.

(** Postcondition of a call of [_depth_first_solve] on [puzz] in the
    store [h]: the call only adds nodes, and it links no node unless it
    returns a chain. *)
Definition dfs_post (puzz : P) (seenP : list P) (h : heap)
    (r : option ref) (h' : heap) : Prop :=
  ∃ new, h' = h ++ new ∧
    match r with
    | None => Forall (λ n, parent n = None) new
    | Some c => c = length h ∧
                ∃ ids, dfs_chain puzz seenP h' (length h) c ids
    end.

(** [s] can be reached from [puzz] by a finite sequence of
    extensions. *)
Definition reachable (puzz s : P) : Prop := ∃ n, s ∈ level puzz n.

(** The contract of [fail_fast]: a state it rejects cannot be extended
    to a solved state. *)
Definition fail_fast_sound : Prop :=
  ∀ s, fail_fast s = true → ∀ sol, ¬ solved_path s sol.

(** The number of [parent] links from a node up to a node without
    parent. *)
Inductive depth_of (h : heap) : ref → nat → Prop :=
  | depth_of_root i : parent (h !!! i) = None → depth_of h i 0
  | depth_of_child i j d :
      parent (h !!! i) = Some j → depth_of h j d → depth_of h i (S d).

(** The text [PuzzleNode.__str__] gives for a chain with the states [l]. *)
Definition chain_text (str_puzzle : P → string) (l : list P) : string :=
  foldr (λ s acc, String.append (str_puzzle s)
                    (String.append (String.append nl nl) acc))
    EmptyString l.

(** What a call of [_depth_first_solve] does to the nodes it adds: a
    node that is not marked has no children; none is marked when the call
    returns [None]; when it returns the node [c], the marked nodes are [c]
    and the nodes that have a parent. *)
Definition marks_post (h : heap) (r : option nat)
    (h' : heap) : Prop :=
  ∀ i, length h ≤ i < length h' →
    (in_solution (h' !!! i) = false → children (h' !!! i) = []) ∧
    match r with
    | None => in_solution (h' !!! i) = false
    | Some c =>
        in_solution (h' !!! i) = true ↔ i = c ∨ parent (h' !!! i) ≠ None
    end.

(** The node [k] is reached from the node [j] by one or more [parent]
    links. *)
Inductive above (h : heap) : ref → ref → Prop :=
  | above_parent j i : parent (h !!! j) = Some i → above h j i
  | above_step j i k :
      parent (h !!! j) = Some i → above h i k → above h j k.

End Solver.

Abbreviation ref := nat (only parsing).
Abbreviation heap := (list PuzzleNode) (only parsing).

End PuzzleTools.

(** ** word_ladder_puzzle.py *)

Module WordLadderPuzzle.

(** The attributes [__init__] takes from its arguments.  [_chars] is
    set to the same string in every instance, so [__eq__] compares the
    three fields. *)
Record WordLadderPuzzle := mkWordLadderPuzzle {
  _from_word : string;
  _to_word : string;
  _word_set : gset string;
}.

Definition _chars : string := "abcdefghijklmnopqrstuvwxyz".

#[export] Instance WordLadderPuzzle_eq_dec : EqDecision WordLadderPuzzle.
Proof. solve_decision. Defined.

#[export] Instance WordLadderPuzzle_inhabited : Inhabited WordLadderPuzzle :=
  populate (mkWordLadderPuzzle "" "" ∅).

(** [w[:i] + c + w[i + 1:]] *)
Definition new_word (w : string) (i : nat) (c : Ascii.ascii) : string :=
  String.append (String.substring 0 i w)
    (String.append (String c EmptyString)
       (String.substring (i + 1) (String.length w - (i + 1)) w)).

Definition extensions (self : WordLadderPuzzle) : list WordLadderPuzzle :=
  i ← seq 0 (String.length (_from_word self));
  c ← String.list_ascii_of_string _chars;
  if decide (new_word (_from_word self) i c ∈ _word_set self
             ∧ new_word (_from_word self) i c ≠ _from_word self)
  then [mkWordLadderPuzzle (new_word (_from_word self) i c)
          (_to_word self) (_word_set self)]
  else [].

(** ["{} -> {}".format(self._from_word, self._to_word)] *)
Definition __str__ (self : WordLadderPuzzle) : string :=
  String.append (_from_word self) (String.append " -> " (_to_word self)).

Definition is_solved (self : WordLadderPuzzle) : bool :=
  bool_decide (_from_word self = _to_word self).

Definition fail_fast (self : WordLadderPuzzle) : bool :=
  bool_decide (String.length (_from_word self)
               ≠ String.length (_to_word self)).

#[export] Instance WordLadderPuzzle_Puzzle : Puzzle WordLadderPuzzle :=
  Build_Puzzle _ _ extensions is_solved fail_fast.

(** *** Vocabulary of the specification *)

(** One step of a word ladder: [w'] has the length of [w] and differs
    from it at one position only, where it has a lowercase letter. *)
Definition one_letter (w w' : string) : Prop :=
  String.length w' = String.length w ∧
  ∃ i c, c ∈ String.list_ascii_of_string _chars ∧
    String.get i w' = Some c ∧ String.get i w ≠ Some c ∧
    ∀ j, j ≠ i → String.get j w' = String.get j w.

(** A word written with the letters of [_chars] only. *)
Definition lowercase (w : string) : Prop :=
  ∀ i c, String.get i w = Some c →
         c ∈ String.list_ascii_of_string _chars.

(** The states a word ladder can reach: the initial one and one for each
    word of the word set. *)
Definition states (p : WordLadderPuzzle) : list WordLadderPuzzle :=
  p :: ((λ w, mkWordLadderPuzzle w (_to_word p)
       (_word_set p))
          <$> elements (_word_set p)).

End WordLadderPuzzle.

(** ** mn_puzzle.py *)

Module MNPuzzle.

(** [from_grid] and [to_grid] are tuples of tuples of strings.  [__init__]
    sets [n] and [m] from [from_grid], so they are functions of it. *)
Record MNPuzzle := mkMNPuzzle {
  from_grid : list (list string);
  to_grid : list (list string);
}.

Definition n (self : MNPuzzle) : nat := length (from_grid self).
Definition m (self : MNPuzzle) : nat := length (from_grid self !!! 0).

#[export] Instance MNPuzzle_eq_dec : EqDecision MNPuzzle.
Proof. solve_decision. Defined.

#[export] Instance MNPuzzle_inhabited : Inhabited MNPuzzle :=
  populate (mkMNPuzzle [] []).

(** The assertions of [__init__]: every instance satisfies them.
    [to_grid[0]] is evaluated for the rows of [to_grid] only. *)
Definition init_asserts (from_grid to_grid : list (list string)) : Prop :=
  0 < length from_grid ∧
  Forall (λ r, length r = length (from_grid !!! 0)) from_grid ∧
  Forall (λ r, length r = length (to_grid !!! 0)) to_grid.

(** The two nested [for] loops of [__str__], on the accumulator
    [result]. *)
Definition __str__ (self : MNPuzzle) : string :=
  foldl (λ result n,
           String.append
             (foldl (λ result m, String.append result (String.append " " m))
                result n)
             PuzzleTools.nl)
    PuzzleTools.nl (from_grid self).

(** [x in range(k)], for a Python integer [x]. *)
Definition in_range (x : Z) (k : nat) : bool :=
  bool_decide (0 ≤ x < Z.of_nat k)%Z.

(** [grid[r][c]] *)
Definition cell (grid : list (list string)) (r c : Z) : string :=
  (grid !!! Z.to_nat r) !!! Z.to_nat c.

(** [new_grid[r][c] = v] *)
Definition set_cell (new_grid : list (list string)) (r c : Z) (v : string)
    : list (list string) :=
  alter (λ row, <[Z.to_nat c := v]> row) (Z.to_nat r) new_grid.

(** One of the four blocks of [extensions]: the blank at [row], [column]
    changes place with the symbol at [row'], [column']. *)
Definition swapped (self : MNPuzzle) (row column row' column' : Z)
    : MNPuzzle :=
  let new_grid := from_grid self in
  let new_grid := set_cell new_grid row' column' "*" in
  let new_grid :=
    set_cell new_grid row column (cell (from_grid self) row' column') in
  mkMNPuzzle new_grid (to_grid self).

Definition extensions (self : MNPuzzle) : list MNPuzzle :=
  row ← seqZ 0 (Z.of_nat (n self));
  column ← seqZ 0 (Z.of_nat (m self));
  if decide (cell (from_grid self) row column = "*") then
    (if in_range (row - 1) (n self)
     then [swapped self row column (row - 1) column] else []) ++
    (if in_range (row + 1) (n self)
     then [swapped self row column (row + 1) column] else []) ++
    (if in_range (column - 1) (m self)
     then [swapped self row column row (column - 1)] else []) ++
    (if in_range (column + 1) (m self)
     then [swapped self row column row (column + 1)] else [])
  else [].

Definition is_solved (self : MNPuzzle) : bool :=
  bool_decide (from_grid self = to_grid self).

(** Modelled from the spec: [MNPuzzle] does not override [fail_fast]; the
    method inherited from [Puzzle] ([puzzle.py], not among the sources)
    returns [False] by default. *)
Definition fail_fast (self : MNPuzzle) : bool := false.

#[export] Instance MNPuzzle_Puzzle : Puzzle MNPuzzle :=
  Build_Puzzle _ _ extensions is_solved fail_fast.

(** The number of blanks of a grid. *)
Definition blanks (grid : list (list string)) : nat :=
  length (filter (λ x, x = "*") (concat grid)).

(** The shape of a grid: the lengths of its rows. *)
Definition dims (g : list (list string)) : list nat := length <$> g.

(** Two cells side by side or one above the other. *)
Definition adjacent (r c r' c' : nat) : Prop :=
  (c' = c ∧ (r = r' + 1 ∨ r' = r + 1)) ∨
  (r' = r ∧ (c = c' + 1 ∨ c' = c + 1)).

(** The grid of [swapped]: [w] is written to the cell [r'], [c'] and
    then [v] to the cell [r], [c]. *)
Definition swap_grid (g : list (list string)) (r c r' c' : nat)
    (w v : string) : list (list string) :=
  alter (λ row, <[c := v]> row) r (alter (λ row, <[c' := w]> row) r' g).

(** A list cut into rows of the given lengths. *)
Fixpoint reshape (ds : list nat) (l : list string) : list (list string) :=
  match ds with
  | [] => []
  | d :: ds => take d l :: reshape ds (drop d l)
  end.

(** The grids of the shape of [p]'s grid that hold the same symbols. *)
Definition arrangements (p : MNPuzzle) : list MNPuzzle :=
  (λ l, mkMNPuzzle (reshape (dims (from_grid p)) l)
          (to_grid p))
    <$> permutations (concat (from_grid p)).

End MNPuzzle.

(** ** grid_peg_solitaire_puzzle.py *)

Module GridPegSolitairePuzzle.

Record GridPegSolitairePuzzle := mkGridPegSolitairePuzzle {
  _marker : list (list string);
  _marker_set : gset string;
}.

#[export] Instance GridPegSolitairePuzzle_eq_dec :
  EqDecision GridPegSolitairePuzzle.
Proof. solve_decision. Defined.

#[export] Instance GridPegSolitairePuzzle_inhabited :
  Inhabited GridPegSolitairePuzzle :=
  populate (mkGridPegSolitairePuzzle [] ∅).

(** The assertions of [__init__]: every instance satisfies them. *)
Definition init_asserts (marker : list (list string))
    (marker_set : gset string) : Prop :=
  0 < length marker ∧
  Forall (λ x, length x = length (marker !!! 0)) (drop 1 marker) ∧
  Forall (λ row, Forall (λ x, x ∈ marker_set) row) marker ∧
  set_Forall (λ x, x = "*" ∨ x = "." ∨ x = "#") marker_set.

(** [x in range(k)], for a Python integer [x]. *)
Definition in_range (x : Z) (k : nat) : bool :=
  bool_decide (0 ≤ x < Z.of_nat k)%Z.

(** [grid[r][c]] *)
Definition cell (grid : list (list string)) (r c : Z) : string :=
  (grid !!! Z.to_nat r) !!! Z.to_nat c.

(** [new_grid[r][c] = v] *)
Definition set_cell (new_grid : list (list string)) (r c : Z) (v : string)
    : list (list string) :=
  alter (λ row, <[Z.to_nat c := v]> row) (Z.to_nat r) new_grid.

(** The two nested [for] loops of [__str__], on the accumulator
    [result]. *)
Definition __str__ (self : GridPegSolitairePuzzle) : string :=
  foldl (λ result line,
           String.append
             (foldl (λ result marker, String.append result marker)
                result line)
             PuzzleTools.nl)
    PuzzleTools.nl (_marker self).

(** The jumps of the peg at [row], [column], in the order of the four
    [if] blocks: left, right, up, down.  The conditions are joined by
    [and], which evaluates the cells only when the index is in range. *)
Definition jumps (self : GridPegSolitairePuzzle) (row column : Z)
    : list GridPegSolitairePuzzle :=
  let marker := _marker self in
  let this_row := marker !!! Z.to_nat row in
  (if in_range (column - 2) (length this_row)
      && bool_decide (cell marker row (column - 2) = ".")
      && bool_decide (cell marker row (column - 1) = "*")
   then
     let new_grid := marker in
     let new_grid :=
       <[Z.to_nat row :=
           take (Z.to_nat (column - 2)) (new_grid !!! Z.to_nat row)
           ++ ["*"; "."; "."]
           ++ drop (Z.to_nat (column + 1)) (new_grid !!! Z.to_nat row)]>
         new_grid in
     [mkGridPegSolitairePuzzle new_grid {["*"; "."; "#"]}]
   else []) ++
  (if in_range (column + 2) (length this_row)
      && bool_decide (cell marker row (column + 2) = ".")
      && bool_decide (cell marker row (column + 1) = "*")
   then
     let new_grid := marker in
     let new_grid :=
       <[Z.to_nat row :=
           take (Z.to_nat column) (new_grid !!! Z.to_nat row)
           ++ ["."; "."; "*"]
           ++ drop (Z.to_nat (column + 3)) (new_grid !!! Z.to_nat row)]>
         new_grid in
     [mkGridPegSolitairePuzzle new_grid {["*"; "."; "#"]}]
   else []) ++
  (if in_range (row - 2) (length marker)
      && bool_decide (cell marker (row - 2) column = ".")
      && bool_decide (cell marker (row - 1) column = "*")
   then
     let new_grid := marker in
     let new_grid := set_cell new_grid (row - 2) column "*" in
     let new_grid := set_cell new_grid (row - 1) column "." in
     let new_grid := set_cell new_grid row column "." in
     [mkGridPegSolitairePuzzle new_grid {["*"; "."; "#"]}]
   else []) ++
  (if in_range (row + 2) (length marker)
      && bool_decide (cell marker (row + 2) column = ".")
      && bool_decide (cell marker (row + 1) column = "*")
   then
     let new_grid := marker in
     let new_grid := set_cell new_grid (row + 2) column "*" in
     let new_grid := set_cell new_grid (row + 1) column "." in
     let new_grid := set_cell new_grid row column "." in
     [mkGridPegSolitairePuzzle new_grid {["*"; "."; "#"]}]
   else []).

Definition extensions (self : GridPegSolitairePuzzle)
    : list GridPegSolitairePuzzle :=
  row ← seqZ 0 (Z.of_nat (length (_marker self)));
  column ← seqZ 0 (Z.of_nat (length (_marker self !!! Z.to_nat row)));
  if decide (cell (_marker self) row column = "*")
  then jumps self row column
  else [].

(** The count [is_solved] makes: the cells that hold a peg. *)
Definition pegs (marker : list (list string)) : nat :=
  sum_list ((λ row, length (filter (λ marker, marker = "*") row))
              <$> marker).

Definition is_solved (self : GridPegSolitairePuzzle) : bool :=
  bool_decide (pegs (_marker self) = 1).

(** Modelled from the spec: [GridPegSolitairePuzzle] does not override
    [fail_fast]; the method inherited from [Puzzle] ([puzzle.py], not among
    the sources) returns [False] by default. *)
Definition fail_fast (self : GridPegSolitairePuzzle) : bool := false.

#[export] Instance GridPegSolitairePuzzle_Puzzle :
  Puzzle GridPegSolitairePuzzle :=
  Build_Puzzle _ _ extensions is_solved fail_fast.

(** *** Vocabulary of the specification *)

(** The pegs of one row, and the shape of a grid. *)
Definition count (row : list string) : nat :=
  length (filter (λ marker, marker = "*") row).
Definition dims (marker : list (list string)) : list nat :=
  length <$> marker.
Definition is_marker (x : string) : Prop := x = "*" ∨ x = "." ∨ x = "#".

(** What a jump does to the grid: same shape, one peg fewer, markers
    only. *)
Definition jumped (g g' : list (list string)) : Prop :=
  dims g' = dims g ∧ pegs g' + 1 = pegs g ∧ Forall (Forall is_marker) g'.

(** Three cells in a line, one step apart: the peg that jumps, the peg it
    jumps over and the cell where it lands. *)
Definition in_line (r0 c0 r1 c1 r2 c2 : nat) : Prop :=
  (r1 = r0 ∧ r2 = r0 ∧
   ((c0 = c1 + 1 ∧ c1 = c2 + 1) ∨ (c1 = c0 + 1 ∧ c2 = c1 + 1))) ∨
  (c1 = c0 ∧ c2 = c0 ∧
   ((r0 = r1 + 1 ∧ r1 = r2 + 1) ∨ (r1 = r0 + 1 ∧ r2 = r1 + 1))).

(** [g'] is [g] after the jump: the first two cells are holes, the third
    holds the peg, and every other cell is as before. *)
Definition jump_of (g g' : list (list string))
    (r0 c0 r1 c1 r2 c2 : nat) : Prop :=
  dims g' = dims g ∧
  ∀ a b, (g' !!! a) !!! b =
    if decide ((a = r0 ∧ b = c0) ∨ (a = r1 ∧ b = c1)) then "."
    else if decide (a = r2 ∧ b = c2) then "*" else (g !!! a) !!! b.

(** The text of the rows of a grid: the markers of each row, and a
    newline after each row. *)
Definition rows_text (g : list (list string)) : string :=
  foldr (λ line acc,
           String.append (foldr String.append EmptyString line)
             (String.append PuzzleTools.nl acc))
    EmptyString g.

End GridPegSolitairePuzzle.

(** ** Fixtures

    The puzzles of the doctests of the three puzzle classes, and a few more
    of the same kind. *)

Module Fixtures.
Import PuzzleTools.
Import (hints) WordLadderPuzzle MNPuzzle GridPegSolitairePuzzle.

Abbreviation WLP := WordLadderPuzzle.WordLadderPuzzle.
Abbreviation mkWLP := WordLadderPuzzle.mkWordLadderPuzzle.
Abbreviation GPSP := GridPegSolitairePuzzle.GridPegSolitairePuzzle.
Abbreviation mkGPSP := GridPegSolitairePuzzle.mkGridPegSolitairePuzzle.

(** The fixtures of the doctests. *)
Definition ws : gset string := {["cost"; "cast"; "case"; "cave"; "save"]}.
Definition cost_save : WLP := mkWLP "cost" "save" ws.
Definition sam_save : WLP := mkWLP "sam" "save" ws.
Definition ladder : list WLP :=
  (λ w, mkWLP w "save" ws) <$>
    ["cost"; "cast"; "case"; "cave"; "save"].

(** The stores the two solvers leave for ["cost" -> "save"]. *)
Definition dfs_cost_save : list PuzzleNode :=
  match depth_first_solve 6 cost_save with
  | Some (_, h) => h
  | None => []
  end.
Definition bfs_cost_save : list PuzzleNode :=
  match breadth_first_solve 6 cost_save with
  | Some (_, h) => h
  | None => []
  end.

(** More fixtures: a solved puzzle; puzzles whose goal cannot be reached
    and whose moves go back and forth; ["cost" -> "cast"] with a detour
    through ["most"] and ["mast"]; and ["cost" -> "cast"] with the stray
    word ["most"], together with the store the breadth-first solver leaves
    for it. *)
Definition save_save : WLP := mkWLP "save" "save" ws.
Definition on_xx (w : string) : WLP :=
  mkWLP w "xx" {["on"; "no"; "oo"]}.
Definition most_cast : WLP :=
  mkWLP "cost" "cast" {["cost"; "cast"; "most"; "mast"]}.
Definition cost_cast : WLP :=
  mkWLP "cost" "cast" {["cost"; "cast"; "most"]}.
Definition bfs_cost_cast : list PuzzleNode :=
  match breadth_first_solve 6 cost_cast with
  | Some (_, h) => h
  | None => []
  end.

Definition dfs_most_cast : list PuzzleNode :=
  match depth_first_solve 6 most_cast with
  | Some (_, h) => h
  | None => []
  end.
Definition bfs_most_cast : list PuzzleNode :=
  match breadth_first_solve 6 most_cast with
  | Some (_, h) => h
  | None => []
  end.

(** The stores the two solvers leave for ["on" -> "xx"], which has no
    solution. *)
Definition dfs_on_xx : list PuzzleNode :=
  match depth_first_solve 7 (on_xx "on") with
  | Some (_, h) => h
  | None => []
  end.
Definition bfs_on_xx : list PuzzleNode :=
  match breadth_first_solve 7 (on_xx "on") with
  | Some (_, h) => h
  | None => []
  end.

(** A store with two chains for cost, cast: one as the breadth-first
    solver leaves it, one as the depth-first solver does. *)
Definition two_chains : list (PuzzleNode (P:=WLP)) :=
  [mkPuzzleNode (mkWLP "cost" "cast" ws) [1] None false;
   mkPuzzleNode (mkWLP "cast" "cast" ws) [] (Some 0) false;
   mkPuzzleNode (mkWLP "cost" "cast" ws) [3] None true;
   mkPuzzleNode (mkWLP "cast" "cast" ws) [] (Some 2) true].

(** The states reachable from ["on"] in [on_xx]. *)
Definition on_states : list WLP := [on_xx "on"; on_xx "oo"; on_xx "no"].

(** The fixture of the doctests, and one with the blank in the middle of
    the top row. *)
Definition mn1 : MNPuzzle.MNPuzzle :=
  MNPuzzle.mkMNPuzzle [["*"; "2"; "3"]; ["4"; "5"; "1"]]
                      [["1"; "2"; "3"]; ["4"; "5"; "*"]].
Definition mn2 : MNPuzzle.MNPuzzle :=
  MNPuzzle.mkMNPuzzle [["2"; "*"; "3"]; ["4"; "5"; "1"]]
                      [["1"; "2"; "3"]; ["4"; "5"; "*"]].

(** A puzzle one move away from its goal, and the puzzle after that
    move. *)
Definition mn_near : MNPuzzle.MNPuzzle :=
  MNPuzzle.mkMNPuzzle [["1"; "2"; "3"]; ["4"; "*"; "5"]]
                      [["1"; "2"; "3"]; ["4"; "5"; "*"]].
Definition mn_done : MNPuzzle.MNPuzzle :=
  MNPuzzle.mkMNPuzzle [["1"; "2"; "3"]; ["4"; "5"; "*"]]
                      [["1"; "2"; "3"]; ["4"; "5"; "*"]].

(** The first grid of the doctests. *)
Definition grid1 : list (list string) :=
  [["*"; "*"; "*"; "*"; "*"];
   ["*"; "*"; "*"; "*"; "*"];
   ["*"; "*"; "."; "*"; "*"];
   ["*"; "*"; "*"; "*"; "*"];
   ["*"; "*"; "*"; "*"; "*"]].
Definition gpsp1 : GPSP := mkGPSP grid1 {["*"; "."; "#"]}.

(** A row of two pegs and a hole, with a marker set without ["#"], and
    the grid after its only jump. *)
Definition gpsp_row : GPSP := mkGPSP [["*"; "*"; "."]] {["*"; "."]}.
Definition gpsp_row_jumped : GPSP :=
  mkGPSP [["."; "."; "*"]] {["*"; "."; "#"]}.

(** The same row with the marker set of the three markers. *)
Definition gpsp_row_full : GPSP :=
  mkGPSP [["*"; "*"; "."]] {["*"; "."; "#"]}.

(** Decides a closed decidable proposition by evaluation. *)
Ltac by_computation :=
  match goal with
  | |- ?G => apply (bool_decide_unpack G); vm_compute; exact I
  end.

(** Takes the branch of a jump whose three conditions hold. *)
Ltac take_jump :=
  match goal with
  | |- _ ∈ (if ?b then _ else _) =>
      let E := fresh in
      assert (b = true) as E;
      [apply andb_true_intro; split; [apply andb_true_intro; split|];
       apply bool_decide_eq_true
      |rewrite E; apply list_elem_of_singleton; f_equal]
  end.

End Fixtures.

(** ** The doctests of the sources, on the embedding *)

Module Doctests.
Import PuzzleTools Fixtures.
Import (hints) WordLadderPuzzle MNPuzzle GridPegSolitairePuzzle.

Example word_ladder_extensions :
  extensions cost_save = [mkWLP "cast" "save" ws].
Proof. vm_compute. reflexivity. Qed.

Example word_ladder_is_solved :
  is_solved cost_save = false ∧ is_solved save_save = true.
Proof. split; reflexivity. Qed.

Example word_ladder_fail_fast :
  fail_fast cost_save = false ∧ fail_fast sam_save = true.
Proof. split; reflexivity. Qed.

Example word_ladder_eq :
  bool_decide (cost_save = mkWLP "cost" "save" ws) = true ∧
  bool_decide
    (cost_save = mkWLP "cost" "save" (ws ∪ {["cars"]})) = false.
Proof. split; vm_compute; reflexivity. Qed.

Example mn_extensions :
  MNPuzzle.from_grid <$> extensions mn1 =
    [[["4"; "2"; "3"]; ["*"; "5"; "1"]];
     [["2"; "*"; "3"]; ["4"; "5"; "1"]]].
Proof. reflexivity. Qed.

Example mn_extensions_middle : length (extensions mn2) = 3.
Proof. reflexivity. Qed.

Example mn_is_solved :
  is_solved mn1 = false ∧
  is_solved (MNPuzzle.mkMNPuzzle (MNPuzzle.to_grid mn1)
               (MNPuzzle.to_grid mn1)) = true.
Proof. split; reflexivity. Qed.

Example grid_peg_extensions :
  GridPegSolitairePuzzle._marker <$> extensions gpsp1 =
    [[["*"; "*"; "."; "*"; "*"];
      ["*"; "*"; "."; "*"; "*"];
      ["*"; "*"; "*"; "*"; "*"];
      ["*"; "*"; "*"; "*"; "*"];
      ["*"; "*"; "*"; "*"; "*"]];
     [["*"; "*"; "*"; "*"; "*"];
      ["*"; "*"; "*"; "*"; "*"];
      ["."; "."; "*"; "*"; "*"];
      ["*"; "*"; "*"; "*"; "*"];
      ["*"; "*"; "*"; "*"; "*"]];
     [["*"; "*"; "*"; "*"; "*"];
      ["*"; "*"; "*"; "*"; "*"];
      ["*"; "*"; "*"; "."; "."];
      ["*"; "*"; "*"; "*"; "*"];
      ["*"; "*"; "*"; "*"; "*"]];
     [["*"; "*"; "*"; "*"; "*"];
      ["*"; "*"; "*"; "*"; "*"];
      ["*"; "*"; "*"; "*"; "*"];
      ["*"; "*"; "."; "*"; "*"];
      ["*"; "*"; "."; "*"; "*"]]].
Proof. vm_compute. reflexivity. Qed.

Example grid_peg_is_solved :
  is_solved gpsp1 = false ∧
  is_solved
    (mkGPSP [["."; "."; "."]; ["."; "*"; "."]; ["."; "."; "."]]
       {["*"; "."; "#"]}) = true.
Proof. split; reflexivity. Qed.

(** The depth-first search returns the first chain it finds, not a
    shortest one: for ["cost" -> "cast"] it goes through ["most"] and
    ["mast"], which it finds first, and the breadth-first search goes
    straight to ["cast"]. *)
Example depth_first_not_shortest :
  depth_first_solve 6 most_cast = Some (Some 0, dfs_most_cast) ∧
  chain dfs_most_cast 0 [0; 1; 3; 4] ∧
  breadth_first_solve 6 most_cast = Some (Some 0, bfs_most_cast) ∧
  chain bfs_most_cast 0 [0; 2].
Proof.
  split_and!.
  - vm_compute. reflexivity.
  - split_and!; [reflexivity| |by_computation]. vm_compute. tauto.
  - vm_compute. reflexivity.
  - split_and!; [reflexivity| |by_computation]. vm_compute. tauto.
Qed.

(** [print(w1)], [print(mn1)] and [print(gpsp1)]. *)
Example word_ladder_str :
  WordLadderPuzzle.__str__ cost_save = "cost -> save".
Proof. reflexivity. Qed.

Example mn_str :
  MNPuzzle.__str__ mn1 =
    String.concat nl [""; " * 2 3"; " 4 5 1"; ""].
Proof. reflexivity. Qed.

Example grid_peg_str :
  GridPegSolitairePuzzle.__str__ gpsp1 =
    String.concat nl [""; "*****"; "*****"; "**.**"; "*****"; "*****"; ""].
Proof. reflexivity. Qed.

End Doctests.

(** * Properties of the solvers *)

Module SolverFacts.
Import PuzzleTools.

Section Facts.
Context {P : Type} `{Puzzle P} `{Inhabited P}.
Implicit Types (h : list (PuzzleNode (P:=P))) (p puzz : P) (seen : list P).

(** ** The store *)

Lemma deref_app_l h new i : i < length h → (h ++ new) !!! i = h !!! i.
Proof. apply lookup_total_app_l. Qed.

Lemma lookup_total_fmap_lt {A B} `{Inhabited A, Inhabited B}
    (f : A → B) (l : list A) i :
  i < length l → (f <$> l) !!! i = f (l !!! i).
Proof.
  intros [x Hx]%lookup_lt_is_Some_2.
  by rewrite !list_lookup_total_alt, list_lookup_fmap, Hx.
Qed.

Lemma deref_snoc h (n : PuzzleNode) : (h ++ [n]) !!! length h = n.
Proof. by rewrite list_lookup_total_middle. Qed.

Lemma elem_of_puzzles h p :
  p ∈ puzzle <$> h ↔ ∃ i, i < length h ∧ puzzle (h !!! i) = p.
Proof.
  rewrite list_elem_of_fmap. split.
  - intros (n & -> & Hn). apply list_elem_of_lookup_total in Hn as (i & ? & <-).
    eauto.
  - intros (i & Hi & <-). eexists; split; [done|].
    by apply list_elem_of_lookup_total_2.
Qed.

Lemma puzzle_append_child h r c i :
  puzzle (append_child h r c !!! i) = puzzle (h !!! i).
Proof.
  unfold append_child. destruct (decide (r = i)) as [->|].
  - destruct (decide (i < length h)).
    + by rewrite list_lookup_total_alter_eq.
    + rewrite !list_lookup_total_alt, list_lookup_alter_eq.
      by rewrite lookup_ge_None_2 by lia.
  - by rewrite list_lookup_total_alter_ne.
Qed.

Lemma parent_append_child h r c i :
  parent (append_child h r c !!! i) = parent (h !!! i).
Proof.
  unfold append_child. destruct (decide (r = i)) as [->|].
  - destruct (decide (i < length h)).
    + by rewrite list_lookup_total_alter_eq.
    + rewrite !list_lookup_total_alt, list_lookup_alter_eq.
      by rewrite lookup_ge_None_2 by lia.
  - by rewrite list_lookup_total_alter_ne.
Qed.

Lemma children_append_child_eq h r c :
  r < length h →
  children (append_child h r c !!! r) = children (h !!! r) ++ [c].
Proof. intros. unfold append_child. by rewrite list_lookup_total_alter_eq. Qed.

Lemma children_append_child_ne h r c i :
  r ≠ i → children (append_child h r c !!! i) = children (h !!! i).
Proof. intros. unfold append_child. by rewrite list_lookup_total_alter_ne. Qed.

Lemma length_append_child h r c : length (append_child h r c) = length h.
Proof. apply length_alter. Qed.

(** ** Paths and levels *)

Lemma is_path_snoc (l : list P) a b :
  is_path (l ++ [a]) → b ∈ extensions a → is_path ((l ++ [a]) ++ [b]).
Proof.
  induction l as [|x l IH]; simpl; intros Hp Hb; [done|].
  destruct l as [|y l]; simpl in *; [tauto|].
  split; [tauto|]. apply IH; tauto.
Qed.

Lemma is_path_unsnoc (l : list P) a b :
  is_path ((l ++ [a]) ++ [b]) → is_path (l ++ [a]) ∧ b ∈ extensions a.
Proof.
  induction l as [|x l IH]; simpl; intros Hp; [tauto|].
  destruct l as [|y l]; simpl in *; [tauto|].
  destruct Hp as [? Hp]. apply IH in Hp. tauto.
Qed.

Lemma is_path_level (l : list P) start e :
  head l = Some start → is_path l → last l = Some e →
  e ∈ level start (length l - 1).
Proof.
  revert e. induction l as [|a l IH] using rev_ind; [done|].
  intros e Hh Hp Hl. rewrite last_snoc in Hl. injection Hl as ->.
  rewrite length_app. simpl. replace (length l + 1 - 1) with (length l) by lia.
  destruct l as [|b l _] using rev_ind.
  - simpl in *. injection Hh as ->. set_solver.
  - apply is_path_unsnoc in Hp as [Hp Ha].
    rewrite length_app. simpl. replace (length l + 1) with (S (length l)) by lia.
    simpl. apply list_elem_of_bind. exists b. split; [done|].
    specialize (IH b). rewrite length_app in IH. simpl in IH.
    replace (length l + 1 - 1) with (length l) in IH by lia.
    apply IH; [by destruct l|done|apply last_snoc].
Qed.

(** ** The inner loop of the breadth-first search *)

Lemma bfs_for_eq curr_node ps h q seen :
  bfs_for curr_node ps h q seen =
    (h ++ ((λ p, mkPuzzleNode p [] (Some curr_node) false) <$> fresh ps seen),
     q ++ seq (length h) (length (fresh ps seen)),
     seen ++ fresh ps seen).
Proof.
  revert h q seen. induction ps as [|p ps IH]; intros h q seen; simpl.
  - by rewrite !app_nil_r.
  - case_bool_decide; [|apply IH].
    rewrite IH. simpl. rewrite length_app. simpl.
    rewrite <-!app_assoc. simpl.
    by replace (length h + 1) with (S (length h)) by lia.
Qed.

Lemma fresh_spec ps seen :
  NoDup (fresh ps seen) ∧
  (∀ p, p ∈ fresh ps seen → p ∈ ps ∧ p ∉ seen) ∧
  (∀ p, p ∈ ps → p ∈ seen ∨ p ∈ fresh ps seen).
Proof.
  revert seen. induction ps as [|a ps IH]; intros seen; simpl.
  - split; [constructor|]. set_solver.
  - case_bool_decide as Ha.
    + destruct (IH (seen ++ [a])) as (Hnd & Hin & Hex). split_and!.
      * constructor; [|done]. intros Hf. apply Hin in Hf. set_solver.
      * intros p [->|Hp]%elem_of_cons; [set_solver|].
        apply Hin in Hp. set_solver.
      * intros p [->|Hp]%elem_of_cons; [set_solver|].
        apply Hex in Hp. set_solver.
    + destruct (IH seen) as (Hnd & Hin & Hex). split_and!; [done|..].
      * intros p Hp. apply Hin in Hp. set_solver.
      * intros p [->|Hp]%elem_of_cons.
        -- by left.
        -- by apply Hex.
Qed.

(** ** The loop of the breadth-first search *)

Lemma bfs_inv_init puzz : bfs_inv puzz 0 [0] (bfs_init puzz).
Proof.
  split; simpl; try done.
  - lia.
  - intros i ?. lia.
  - intros i ?. by replace i with 0 by lia.
  - apply NoDup_singleton.
  - intros p Hp. by apply elem_of_nil in Hp.
  - lia.
  - intros i j ??. by replace i with 0 by lia; replace j with 0 by lia.
  - intros j ?. replace j with 0 by lia. simpl. lia.
  - intros i e ?. lia.
  - intros i ?. lia.
Qed.

Lemma bfs_cond_true st :
  bfs_cond st = true →
  is_solved (puzzle (bfs_heap st !!! bfs_curr st)) = false ∧
  0 < length (bfs_q st).
Proof.
  unfold bfs_cond. intros [Hs Hq]%andb_prop.
  apply negb_true_iff in Hs. by apply bool_decide_eq_true in Hq.
Qed.

Lemma bfs_body_inv puzz k ds st :
  bfs_inv puzz k ds st → bfs_cond st = true →
  ∃ ds', bfs_inv puzz (S k) ds' (bfs_body st).
Proof.
  intros I [Hns Hq]%bfs_cond_true.
  destruct st as [h q seen curr]. destruct I; simpl in *. subst q curr.
  rewrite length_seq in Hq.
  assert (Hk : k < length h) by lia.
  unfold bfs_body. simpl.
  replace (length h - k) with (S (length h - S k)) by lia. simpl.
  rewrite bfs_for_eq.
  set (pk := puzzle (h !!! k)).
  set (news := fresh (extensions pk) (seen ++ [pk])).
  destruct (fresh_spec (extensions pk) (seen ++ [pk]))
    as (Hnd & Hnew & Hcov). fold news in Hnd, Hnew, Hcov.
  set (mk := λ p : P, mkPuzzleNode p [] (Some k) false).
  assert (Hseen : ∀ p, p ∈ seen ++ [pk] ↔ p ∈ puzzle <$> h).
  { intros p. rewrite elem_of_app, list_elem_of_singleton. split.
    - intros [?| ->]; [auto|]. apply elem_of_puzzles. eauto.
    - intros Hp. destruct (decide (0 < k)) as [?|Hk0]; [auto|].
      right. apply elem_of_puzzles in Hp as (i & Hi & <-).
      destruct (decide (i = 0)) as [->|].
      + subst pk. by replace k with 0 by lia.
      + destruct (inv_parent0 i) as (j & _ & _ & ? & _); lia. }
  assert (Hold : ∀ i, i < length h → (h ++ (mk <$> news)) !!! i = h !!! i).
  { intros. by apply deref_app_l. }
  assert (Hnw : ∀ i, length h ≤ i < length h + length news →
    (h ++ (mk <$> news)) !!! i = mk (news !!! (i - length h)) ∧
    news !!! (i - length h) ∈ news).
  { intros i ?. rewrite lookup_total_app_r by lia.
    rewrite lookup_total_fmap_lt by lia. split; [done|].
    apply list_elem_of_lookup_total_2. lia. }
  set (d := S (ds !!! k)).
  assert (Hdo : ∀ i, i < length h →
    (ds ++ replicate (length news) d) !!! i = ds !!! i).
  { intros. apply lookup_total_app_l. lia. }
  assert (Hdn : ∀ i, length h ≤ i < length h + length news →
    (ds ++ replicate (length news) d) !!! i = d).
  { intros i ?. rewrite lookup_total_app_r by lia.
    by rewrite lookup_total_replicate_2 by lia. }
  assert (Hkk : ds !!! pred k ≤ ds !!! k).
  { apply inv_mono0; lia. }
  exists (ds ++ replicate (length news) d).
  split; simpl; rewrite ?length_app, ?length_fmap, ?length_replicate.
  - replace (length h + length news - S k)
      with ((length h - S k) + length news) by lia.
    rewrite seq_app. do 2 f_equal. lia.
  - done.
  - lia.
  - lia.
  - by apply lookup_app_l_Some.
  - rewrite Hdo by lia. done.
  - intros i Hi. destruct (decide (i < length h)) as [Hlt|Hge].
    + destruct (inv_parent0 i) as (j & ? & ? & ? & ? & ?); [lia|].
      exists j. rewrite !Hold, !Hdo by lia. split_and!; auto with lia.
    + destruct (Hnw i) as [-> Hin]; [lia|]. exists k.
      rewrite Hold, Hdn, Hdo by lia. simpl. split_and!; auto with lia.
      apply Hnew in Hin. tauto.
  - intros i Hi. destruct (decide (i < length h)) as [Hlt|Hge].
    + rewrite Hold by lia. auto.
    + destruct (Hnw i) as [-> Hin]; [lia|]. done.
  - rewrite fmap_app, <-list_fmap_compose. simpl.
    rewrite list_fmap_id. apply NoDup_app. split_and!; [done| |done].
    intros p Hp Hin. apply Hnew in Hin as [_ Hin]. apply Hin.
    by apply Hseen.
  - intros p Hp. rewrite fmap_app, <-list_fmap_compose. simpl.
    rewrite list_fmap_id.
    apply elem_of_app in Hp as [Hp|Hp]; apply elem_of_app;
      [left; by apply Hseen|by right].
  - intros _ p. rewrite fmap_app, <-list_fmap_compose. simpl.
    rewrite list_fmap_id. intros Hp.
    apply elem_of_app in Hp as [Hp|Hp]; apply elem_of_app;
      [left; by apply Hseen|by right].
  - intros i j Hij Hj. destruct (decide (j < length h)) as [Hlt|Hge].
    + rewrite !Hdo by lia. auto.
    + rewrite (Hdn j) by lia. destruct (decide (i < length h)).
      * rewrite Hdo by lia. specialize (inv_bound0 i). unfold d. lia.
      * rewrite Hdn by lia. done.
  - intros j Hj. rewrite (Hdo k) by lia.
    destruct (decide (j < length h)) as [Hlt|Hge].
    + rewrite Hdo by lia. specialize (inv_bound0 j). lia.
    + rewrite Hdn by lia. done.
  - intros i e Hi He. destruct (decide (i < k)) as [Hlt|Hge].
    + rewrite Hold in He by lia.
      destruct (inv_closed0 i e) as (j & ? & ? & ?); [done..|].
      exists j. rewrite Hold, !Hdo by lia. split_and!; auto with lia.
    + assert (i = k) as -> by lia. rewrite Hold in He by lia.
      rewrite Hdo by lia.
      destruct (Hcov e He) as [Hs|Hn].
      * apply Hseen, elem_of_puzzles in Hs as (j & ? & ?).
        exists j. rewrite Hold, Hdo by lia. split_and!; auto with lia.
        specialize (inv_bound0 j). lia.
      * apply list_elem_of_lookup_total in Hn as (j & ? & Hj).
        exists (length h + j).
        destruct (Hnw (length h + j)) as [-> _]; [lia|].
        rewrite Hdn by lia.
        replace (length h + j - length h) with j by lia.
        split_and!; [lia|done|done].
  - intros i Hi. rewrite Hold by lia.
    destruct (decide (i < pred k)); [auto|].
    by replace i with (pred k) by lia.
Qed.

Lemma bfs_while_inv puzz fuel : ∀ st st' k ds,
  bfs_inv puzz k ds st → bfs_while fuel st = Some st' →
  ∃ k' ds', bfs_inv puzz k' ds' st' ∧ bfs_cond st' = false.
Proof.
  induction fuel as [|fuel IH]; intros st st' k ds I; simpl; [done|].
  destruct (bfs_cond st) eqn:Hc.
  - destruct (bfs_body_inv _ _ _ _ I Hc) as [ds' I']. by apply IH with (S k) ds'.
  - intros [= <-]. eauto.
Qed.

Lemma bfs_while_total puzz B :
  (∀ k ds st, bfs_inv puzz k ds st → length (bfs_heap st) ≤ B) →
  ∀ fuel st k ds, bfs_inv puzz k ds st → B < k + fuel → 1 ≤ fuel →
  is_Some (bfs_while fuel st).
Proof.
  intros HB. induction fuel as [|fuel IH]; intros st k ds I Hk Hf; [lia|].
  simpl. destruct (bfs_cond st) eqn:Hc; [|done].
  destruct (bfs_body_inv _ _ _ _ I Hc) as [ds' I'].
  apply bfs_cond_true in Hc as [_ Hq].
  rewrite (inv_q _ _ _ _ I), length_seq in Hq.
  specialize (HB _ _ _ I).
  apply IH with (S k) ds'; [done|lia|lia].
Qed.

(** ** Consequences of the loop invariant *)

Lemma elem_of_within puzz d s :
  s ∈ within puzz d ↔ ∃ n, n ≤ d ∧ s ∈ level puzz n.
Proof.
  unfold within. rewrite list_elem_of_bind. split.
  - intros (n & ? & Hn%elem_of_seq). exists n. split; [lia|done].
  - intros (n & ? & ?). exists n. split; [done|]. apply elem_of_seq. lia.
Qed.

Lemma bfs_node_level puzz k ds st i :
  bfs_inv puzz k ds st → i < length (bfs_heap st) →
  puzzle (bfs_heap st !!! i) ∈ level puzz (ds !!! i).
Proof.
  intros I. induction i as [i IH] using lt_wf_ind. intros Hi.
  destruct (decide (i = 0)) as [->|].
  - rewrite (inv_ds0 _ _ _ _ I). simpl.
    rewrite (list_lookup_total_correct _ _ _ (inv_root _ _ _ _ I)). set_solver.
  - destruct (inv_parent _ _ _ _ I i) as (j & _ & ? & ? & ? & ->); [lia|].
    simpl. apply list_elem_of_bind. exists (puzzle (bfs_heap st !!! j)).
    split; [done|]. apply IH; lia.
Qed.

(** Every state within the depth of the current node is in the store, at
    a depth that is not larger than its distance. *)
Lemma bfs_complete puzz k ds st n s :
  bfs_inv puzz k ds st → s ∈ level puzz n → n ≤ ds !!! pred k →
  ∃ j, j < length (bfs_heap st) ∧ puzzle (bfs_heap st !!! j) = s ∧
       ds !!! j ≤ n.
Proof.
  intros I. revert s. induction n as [|n IH]; intros s Hs Hn; simpl in Hs.
  - apply list_elem_of_singleton in Hs as ->. exists 0.
    pose proof (inv_root _ _ _ _ I) as Hr. split_and!.
    + by apply lookup_lt_Some in Hr.
    + by rewrite (list_lookup_total_correct _ _ _ Hr).
    + by rewrite (inv_ds0 _ _ _ _ I).
  - apply list_elem_of_bind in Hs as (s' & Hs & Hs').
    destruct (IH s' Hs') as (j' & Hj' & <- & Hd); [lia|].
    assert (j' < pred k).
    { destruct (decide (j' < pred k)); [done|].
      pose proof (inv_mono _ _ _ _ I (pred k) j'). lia. }
    destruct (inv_closed _ _ _ _ I j' s) as (j & ? & ? & ?); [lia|done|].
    exists j. split_and!; [done..|lia].
Qed.

(** The current node is not deeper than any solved state. *)
Lemma bfs_depth_le puzz k ds st n s :
  bfs_inv puzz k ds st → s ∈ level puzz n → is_solved s = true →
  ds !!! pred k ≤ n.
Proof.
  intros I Hs Hsol. destruct (decide (ds !!! pred k ≤ n)); [done|].
  destruct (bfs_complete _ _ _ _ n s I Hs) as (j & Hj & <- & Hd); [lia|].
  assert (j < pred k).
  { destruct (decide (j < pred k)); [done|].
    pose proof (inv_mono _ _ _ _ I (pred k) j). lia. }
  rewrite (inv_unsolved _ _ _ _ I j) in Hsol; done.
Qed.

Lemma bfs_heap_bound puzz k ds st (L : list P) :
  bfs_inv puzz k ds st →
  (∀ i, i < length (bfs_heap st) → puzzle (bfs_heap st !!! i) ∈ L) →
  length (bfs_heap st) ≤ length L.
Proof.
  intros I HL. rewrite <-(length_fmap puzzle).
  apply submseteq_length, NoDup_submseteq; [apply (inv_nodup _ _ _ _ I)|].
  intros p (i & ? & <-)%elem_of_puzzles. auto.
Qed.

Lemma bfs_heap_bound_solution puzz k ds st n s :
  bfs_inv puzz k ds st → s ∈ level puzz n → is_solved s = true →
  length (bfs_heap st) ≤ length (within puzz (S n)).
Proof.
  intros I Hs Hsol. apply (bfs_heap_bound _ _ _ _ _ I). intros i Hi.
  apply elem_of_within. exists (ds !!! i). split.
  - pose proof (inv_bound _ _ _ _ I i Hi).
    pose proof (bfs_depth_le _ _ _ _ _ _ I Hs Hsol). lia.
  - by apply (bfs_node_level _ k).
Qed.

Lemma level_closed puzz (R : list P) n s :
  puzz ∈ R → (∀ a b, a ∈ R → b ∈ extensions a → b ∈ R) →
  s ∈ level puzz n → s ∈ R.
Proof.
  intros Hp Hcl. revert s. induction n as [|n IH]; intros s; simpl.
  - by intros ->%list_elem_of_singleton.
  - intros (a & ? & ?)%list_elem_of_bind. eauto.
Qed.

(** When the loop ends with an unsolved current node, the deque is empty
    and no reachable state is solved. *)
Lemma bfs_exhausted puzz k ds st n s :
  bfs_inv puzz k ds st → bfs_cond st = false →
  is_solved (puzzle (bfs_heap st !!! bfs_curr st)) = false →
  s ∈ level puzz n → is_solved s = false.
Proof.
  intros I Hc Hcur. unfold bfs_cond in Hc. rewrite Hcur in Hc. simpl in Hc.
  apply bool_decide_eq_false in Hc.
  rewrite (inv_q _ _ _ _ I), length_seq in Hc.
  pose proof (inv_k _ _ _ _ I) as Hk.
  pose proof (lookup_lt_Some _ _ _ (inv_root _ _ _ _ I)) as Hlen.
  assert (Hall : ∀ i, i < length (bfs_heap st) →
    is_solved (puzzle (bfs_heap st !!! i)) = false).
  { intros i Hi. destruct (decide (i < pred k)).
    - by apply (inv_unsolved _ _ _ _ I).
    - rewrite (inv_curr _ _ _ _ I) in Hcur.
      by replace i with (pred k) by lia. }
  revert s. induction n as [|n IH]; intros s Hs; simpl in Hs.
  - apply list_elem_of_singleton in Hs as ->.
    rewrite <-(Hall 0 Hlen).
    by rewrite (list_lookup_total_correct _ _ _ (inv_root _ _ _ _ I)).
  - enough (∀ m s, s ∈ level puzz m →
      ∃ j, j < length (bfs_heap st) ∧ puzzle (bfs_heap st !!! j) = s)
      as Hin.
    { destruct (Hin (S n) s Hs) as (j & ? & <-). auto. }
    clear -I Hc Hk Hlen. intros m. induction m as [|m IHm]; intros s Hs.
    + apply list_elem_of_singleton in Hs as ->. exists 0. split; [done|].
      by rewrite (list_lookup_total_correct _ _ _ (inv_root _ _ _ _ I)).
    + simpl in Hs. apply list_elem_of_bind in Hs as (a & Hs & Ha).
      destruct (IHm a Ha) as (j' & ? & <-).
      destruct (inv_closed _ _ _ _ I j' s) as (j & ? & ? & ?); [lia|done|].
      eauto.
Qed.

(** ** Rebuilding the chain from the parent links *)

Lemma linked_ext h h' ids :
  (∀ i, i ∈ ids → children (h' !!! i) = children (h !!! i)) →
  linked h ids → linked h' ids.
Proof.
  induction ids as [|a ids IH]; simpl; [done|]. intros Hc [Ha Hl]. split.
  - rewrite Hc; [done|set_solver].
  - apply IH; [|done]. intros i Hi. apply Hc. set_solver.
Qed.

Lemma parented_ext h h' ids :
  (∀ i, parent (h' !!! i) = parent (h !!! i)) →
  parented h ids → parented h' ids.
Proof.
  intros Hp. induction ids as [|a [|b ids] IH]; simpl; try done.
  intros [Hb Hr]. rewrite Hp. split; [done|]. by apply IH.
Qed.

Lemma chain_states_ext h h' ids :
  (∀ i, puzzle (h' !!! i) = puzzle (h !!! i)) →
  chain_states h' ids = chain_states h ids.
Proof.
  intros Hp. unfold chain_states, seen_puzzles.
  apply list_fmap_ext. intros _ i _. apply Hp.
Qed.

Lemma sorted_lt_NoDup (l : list nat) : StronglySorted lt l → NoDup l.
Proof.
  induction 1 as [|a l _ IH Ha]; constructor; [|done].
  intros Hin. rewrite Forall_forall in Ha. specialize (Ha a Hin). lia.
Qed.

Lemma chain_states_NoDup h ids :
  NoDup (puzzle <$> h) → NoDup ids → Forall (λ i, i < length h) ids →
  NoDup (chain_states h ids).
Proof.
  intros Hh Hids Hv. apply NoDup_fmap_2_strong; [|done].
  intros x y Hx Hy Heq. rewrite Forall_forall in Hv.
  destruct (lookup_lt_is_Some_2 h x (Hv _ Hx)) as [nx Hnx].
  destruct (lookup_lt_is_Some_2 h y (Hv _ Hy)) as [ny Hny].
  rewrite (list_lookup_total_correct _ _ _ Hnx) in Heq.
  rewrite (list_lookup_total_correct _ _ _ Hny) in Heq.
  apply (NoDup_lookup (puzzle <$> h) x y (puzzle nx)); [done|..].
  - by rewrite list_lookup_fmap, Hnx.
  - by rewrite list_lookup_fmap, Hny, Heq.
Qed.

Lemma link_inv_start puzz k ds st c :
  bfs_inv puzz k ds st → c < length (bfs_heap st) →
  link_inv (bfs_heap st) (bfs_heap st) [c].
Proof.
  intros I Hc. split; simpl; try done.
  - intros ? i [= <-] ?. apply (inv_children _ _ _ _ I). lia.
  - split; [|done]. by apply (inv_children _ _ _ _ I).
  - repeat constructor.
  - by repeat constructor.
Qed.

Lemma link_inv_root puzz k ds st h c rest :
  bfs_inv puzz k ds st → link_inv (bfs_heap st) h (c :: rest) →
  parent (h !!! c) = None → c = 0 ∧ ds !!! c = 0.
Proof.
  intros I L Hp. destruct (decide (c = 0)) as [->|].
  - split; [done|]. apply (inv_ds0 _ _ _ _ I).
  - pose proof (li_valid _ _ _ L) as Hv. apply Forall_cons in Hv as [Hv _].
    rewrite (li_len _ _ _ L) in Hv.
    destruct (inv_parent _ _ _ _ I c) as (j & Hj & _); [lia|].
    destruct (li_same _ _ _ L c) as [Hs _]. congruence.
Qed.

Lemma link_inv_step puzz k ds st h c rest pa :
  bfs_inv puzz k ds st → link_inv (bfs_heap st) h (c :: rest) →
  parent (h !!! c) = Some pa →
  link_inv (bfs_heap st) (append_child h pa c) (pa :: c :: rest) ∧
  ds !!! c = S (ds !!! pa).
Proof.
  intros I L Hpa.
  pose proof (li_valid _ _ _ L) as Hv.
  pose proof Hv as [Hvc _]%Forall_cons.
  pose proof (li_sorted _ _ _ L) as Hsort.
  pose proof Hsort as [_ Hgt]%StronglySorted_inv.
  rewrite Forall_forall in Hgt.
  pose proof (li_len _ _ _ L) as Hlen.
  destruct (li_same _ _ _ L c) as [Hs _]. rewrite Hpa in Hs.
  assert (c ≠ 0).
  { intros ->.
    rewrite (list_lookup_total_correct _ _ _ (inv_root _ _ _ _ I)) in Hs.
    done. }
  destruct (inv_parent _ _ _ _ I c) as (j & Hj & Hjc & _ & Hext & Hd); [lia|].
  assert (j = pa) as -> by congruence.
  split; [|done]. split.
  - by rewrite length_append_child.
  - intros i. rewrite parent_append_child, puzzle_append_child.
    apply (li_same _ _ _ L).
  - intros ? i [= <-] Hi. rewrite children_append_child_ne by lia.
    apply (li_above _ _ _ L c); [done|lia].
  - simpl. split.
    + rewrite children_append_child_eq by lia.
      by rewrite (li_above _ _ _ L c pa).
    + apply (linked_ext h _ (c :: rest)); [|apply (li_linked _ _ _ L)].
      intros i Hi. apply children_append_child_ne.
      apply elem_of_cons in Hi as [->|Hi]; [lia|].
      specialize (Hgt i Hi). lia.
  - constructor; [done|]. constructor; [done|].
    apply Forall_forall. intros x Hx. specialize (Hgt x Hx). lia.
  - rewrite length_append_child. constructor; [lia|done].
  - simpl. split; [done|]. apply (li_path _ _ _ L).
  - simpl. split; [done|]. apply (li_parented _ _ _ L).
Qed.

Lemma bfs_link_spec puzz k ds st :
  bfs_inv puzz k ds st →
  ∀ fuel h c rest r h',
    link_inv (bfs_heap st) h (c :: rest) →
    bfs_link fuel h c = Some (r, h') →
    r = 0 ∧ ∃ pre, link_inv (bfs_heap st) h' (pre ++ c :: rest) ∧
                   head (pre ++ c :: rest) = Some 0 ∧
                   length pre = ds !!! c.
Proof.
  intros I. induction fuel as [|fuel IH]; intros h c rest r h' L; [done|].
  simpl. destruct (parent (h !!! c)) as [pa|] eqn:Hpa.
  - destruct (link_inv_step _ _ _ _ _ _ _ _ I L Hpa) as [L' Hd].
    intros Hl. destruct (IH _ _ _ _ _ L' Hl) as (-> & pre & L'' & Hh & Hn).
    split; [done|]. exists (pre ++ [pa]). rewrite <-app_assoc. simpl.
    split_and!; [done..|]. rewrite length_app. simpl. lia.
  - intros [= <- <-]. destruct (link_inv_root _ _ _ _ _ _ _ I L Hpa) as [-> ?].
    split; [done|]. by exists [].
Qed.

Lemma bfs_link_total puzz k ds st :
  bfs_inv puzz k ds st →
  ∀ fuel h c rest,
    link_inv (bfs_heap st) h (c :: rest) → ds !!! c < fuel →
    is_Some (bfs_link fuel h c).
Proof.
  intros I. induction fuel as [|fuel IH]; intros h c rest L Hf; [lia|].
  simpl. destruct (parent (h !!! c)) as [pa|] eqn:Hpa; [|done].
  destruct (link_inv_step _ _ _ _ _ _ _ _ I L Hpa) as [L' Hd].
  apply (IH _ _ _ L'). lia.
Qed.

(** ** The breadth-first solver as a whole *)

Lemma bfs_inv_curr_lt puzz k ds st :
  bfs_inv puzz k ds st → pred k < length (bfs_heap st).
Proof.
  intros I. pose proof (inv_k _ _ _ _ I).
  pose proof (lookup_lt_Some _ _ _ (inv_root _ _ _ _ I)). lia.
Qed.

Lemma bfs_result fuel puzz r h :
  breadth_first_solve fuel puzz = Some (r, h) →
  ∃ k ds st, bfs_inv puzz k ds st ∧ bfs_cond st = false ∧
    match r with
    | Some root =>
        root = 0 ∧ is_solved (puzzle (bfs_heap st !!! pred k)) = true ∧
        ∃ pre, link_inv (bfs_heap st) h (pre ++ [pred k]) ∧
               head (pre ++ [pred k]) = Some 0 ∧
               length pre = ds !!! pred k
    | None =>
        h = bfs_heap st ∧
        is_solved (puzzle (bfs_heap st !!! pred k)) = false
    end.
Proof.
  unfold breadth_first_solve, _breadth_first_solve.
  destruct (bfs_while fuel (bfs_init puzz)) as [st|] eqn:Hw; [|done].
  destruct (bfs_while_inv _ _ _ _ _ _ (bfs_inv_init puzz) Hw)
    as (k & ds & I & Hc).
  rewrite (inv_curr _ _ _ _ I).
  destruct (is_solved (puzzle (bfs_heap st !!! pred k))) eqn:Hs.
  - destruct (bfs_link fuel (bfs_heap st) (pred k)) as [[root h']|] eqn:Hl;
      [|done].
    intros [= <- <-].
    pose proof (link_inv_start _ _ _ _ _ I (bfs_inv_curr_lt _ _ _ _ I)) as L.
    destruct (bfs_link_spec _ _ _ _ I _ _ _ _ _ _ L Hl) as (-> & pre & ?).
    exists k, ds, st. do 4 (split; [done|]). by exists pre.
  - intros [= <- <-]. exists k, ds, st. done.
Qed.

Lemma link_inv_chain puzz k ds st h pre :
  bfs_inv puzz k ds st →
  is_solved (puzzle (bfs_heap st !!! pred k)) = true →
  link_inv (bfs_heap st) h (pre ++ [pred k]) →
  head (pre ++ [pred k]) = Some 0 →
  solution_chain puzz h 0 (pre ++ [pred k]).
Proof.
  intros I Hs L Hh.
  assert (Hpz : ∀ i, puzzle (h !!! i) = puzzle (bfs_heap st !!! i)).
  { intros i. apply (li_same _ _ _ L). }
  assert (Hpa : ∀ i, parent (h !!! i) = parent (bfs_heap st !!! i)).
  { intros i. apply (li_same _ _ _ L). }
  pose proof (list_lookup_total_correct _ _ _ (inv_root _ _ _ _ I)) as Hr.
  split.
  - split_and!; [done|apply (li_linked _ _ _ L)|apply (li_valid _ _ _ L)].
  - apply sorted_lt_NoDup, (li_sorted _ _ _ L).
  - by rewrite Hpz, Hr.
  - rewrite (chain_states_ext (bfs_heap st)) by done. apply (li_path _ _ _ L).
  - exists (pred k). split; [apply last_snoc|]. by rewrite Hpz.
  - by rewrite Hpa, Hr.
  - apply (parented_ext (bfs_heap st)); [done|apply (li_parented _ _ _ L)].
  - rewrite (chain_states_ext (bfs_heap st)) by done.
    apply chain_states_NoDup.
    + apply (inv_nodup _ _ _ _ I).
    + apply sorted_lt_NoDup, (li_sorted _ _ _ L).
    + rewrite <-(li_len _ _ _ L). apply (li_valid _ _ _ L).
Qed.

Lemma solved_path_level puzz (sol : list P) :
  solved_path puzz sol →
  ∃ n s, length sol = S n ∧ s ∈ level puzz n ∧ is_solved s = true.
Proof.
  intros (Hh & Hp & e & Hl & Hs). exists (length sol - 1), e.
  split_and!; [destruct sol; simpl in *; [done|lia]| |done].
  by apply is_path_level.
Qed.

(** A chain returned by the breadth-first solver is a solution chain, and
    no solution makes fewer steps. *)
Lemma bfs_returns_chain fuel puzz root h :
  breadth_first_solve fuel puzz = Some (Some root, h) →
  ∃ ids, solution_chain puzz h root ids ∧
    ∀ sol, solved_path puzz sol → length ids ≤ length sol.
Proof.
  intros (k & ds & st & I & Hc & -> & Hs & pre & L & Hh & Hn)%bfs_result.
  exists (pre ++ [pred k]). split; [by apply (link_inv_chain _ k ds st)|].
  intros sol (n & s & -> & Hl & Hsol)%solved_path_level.
  rewrite length_app. simpl.
  pose proof (bfs_depth_le _ _ _ _ _ _ I Hl Hsol). lia.
Qed.

Lemma bfs_returns_none fuel puzz h :
  breadth_first_solve fuel puzz = Some (None, h) →
  ∀ sol, ¬ solved_path puzz sol.
Proof.
  intros (k & ds & st & I & Hc & -> & Hs)%bfs_result sol
    (n & s & _ & Hl & Hsol)%solved_path_level.
  rewrite <-(inv_curr _ _ _ _ I) in Hs.
  by rewrite (bfs_exhausted _ _ _ _ _ _ I Hc Hs Hl) in Hsol.
Qed.

(** With a bound on the size of the store, the solver returns. *)
Lemma bfs_total puzz B D fuel :
  (∀ k ds st, bfs_inv puzz k ds st → length (bfs_heap st) ≤ B) →
  (∀ k ds st, bfs_inv puzz k ds st →
     is_solved (puzzle (bfs_heap st !!! pred k)) = true →
     ds !!! pred k ≤ D) →
  B + D + 1 ≤ fuel →
  is_Some (breadth_first_solve fuel puzz).
Proof.
  intros HB HD Hf. unfold breadth_first_solve, _breadth_first_solve.
  destruct (bfs_while_total puzz B HB fuel _ 0 [0] (bfs_inv_init puzz))
    as [st Hw]; [lia..|].
  rewrite Hw.
  destruct (bfs_while_inv _ _ _ _ _ _ (bfs_inv_init puzz) Hw)
    as (k & ds & I & Hc).
  rewrite (inv_curr _ _ _ _ I).
  destruct (is_solved (puzzle (bfs_heap st !!! pred k))) eqn:Hs; [|done].
  pose proof (link_inv_start _ _ _ _ _ I (bfs_inv_curr_lt _ _ _ _ I)) as L.
  destruct (bfs_link_total _ _ _ _ I fuel _ _ _ L) as [[r h'] ->]; [|done].
  specialize (HD _ _ _ I Hs). lia.
Qed.

(** ** The depth-first solver *)

Lemma alter_field {B} (g : PuzzleNode → B) (f : PuzzleNode → PuzzleNode)
    h r i :
  (∀ n, g (f n) = g n) → g (alter f r h !!! i) = g (h !!! i).
Proof.
  intros Hg. rewrite list_lookup_total_alter. by case_decide as Hd; [destruct Hd as [-> _]|].
Qed.

Lemma alter_app_ge (f : PuzzleNode → PuzzleNode) h new r :
  length h ≤ r → alter f r (h ++ new) = h ++ alter f (r - length h) new.
Proof.
  intros Hr. replace r with (length h + (r - length h)) at 1 by lia.
  apply alter_app_r.
Qed.

Lemma seen_puzzles_app h new (seen : list nat) :
  Forall (λ x, x < length h) seen →
  seen_puzzles (h ++ new) seen = seen_puzzles h seen.
Proof.
  intros Hv. unfold seen_puzzles. apply list_fmap_ext.
  intros _ x Hx%list_elem_of_lookup_2. rewrite Forall_forall in Hv.
  by rewrite deref_app_l by auto.
Qed.

Lemma Forall_parent_lookup (new : list PuzzleNode) h i :
  Forall (λ n, parent n = None) new →
  length h ≤ i < length h + length new →
  parent ((h ++ new) !!! i) = None.
Proof.
  intros Hn Hi. rewrite lookup_total_app_r by lia.
  rewrite Forall_forall in Hn. apply Hn, list_elem_of_lookup_total_2. lia.
Qed.

Lemma dfs_chain_weaken puzz seenP (h new1 new2 : list PuzzleNode) c ids :
  Forall (λ n, parent n = None) new1 →
  dfs_chain puzz seenP ((h ++ new1) ++ new2) (length (h ++ new1)) c ids →
  dfs_chain puzz seenP (h ++ new1 ++ new2) (length h) c ids.
Proof.
  intros Hn C. rewrite <-app_assoc in C. destruct C. split; try done.
  - eapply Forall_impl; [done|]. simpl. intros i. rewrite length_app. lia.
  - intros i Hi Hp. apply dc_others0; [|done].
    destruct (decide (length (h ++ new1) ≤ i)); [lia|].
    rewrite length_app in *. rewrite app_assoc in Hp.
    rewrite deref_app_l in Hp by (rewrite length_app; lia).
    by rewrite Forall_parent_lookup in Hp by (done || lia).
Qed.

Lemma dfs_for_spec (rec_ : P → list PuzzleNode → option (option nat * list PuzzleNode))
    seenP (hb : list PuzzleNode) curr_node :
  (∀ p h r h', hb `prefix_of` h → rec_ p h = Some (r, h') →
               dfs_post p seenP h r h') →
  ∀ ps h h2, hb `prefix_of` h →
    dfs_for rec_ curr_node ps h = Some h2 →
    (∃ new, h2 = h ++ new ∧ Forall (λ n, parent n = None) new) ∨
    (∃ new c p ids, p ∈ ps ∧
       h2 = append_child (h ++ new) curr_node c ∧
       dfs_chain p seenP (h ++ new) (length h) c ids).
Proof.
  intros Hrec. induction ps as [|p ps IH]; intros h h2 Hpre; simpl.
  - intros [= <-]. left. exists []. by rewrite app_nil_r.
  - destruct (rec_ p h) as [[r h1]|] eqn:Hr; [|done].
    destruct (Hrec _ _ _ _ Hpre Hr) as (new1 & -> & Hpost).
    assert (Hpre1 : hb `prefix_of` h ++ new1).
    { by apply prefix_app_r. }
    destruct r as [c|].
    + destruct Hpost as (-> & ids & C). rewrite (dc_insol _ _ _ _ _ _ C).
      intros [= <-]. right. exists new1, (length h), p, ids.
      split_and!; [set_solver|done..].
    + intros Hl. destruct (IH _ _ Hpre1 Hl)
        as [(new & -> & Hn)|(new & c & p' & ids & Hp' & -> & C)].
      * left. exists (new1 ++ new). rewrite app_assoc. split; [done|].
        by apply Forall_app.
      * right. exists (new1 ++ new), c, p', ids. rewrite !app_assoc.
        split_and!; [set_solver|done|]. rewrite <-app_assoc.
        by apply dfs_chain_weaken.
Qed.

Lemma parented_ext_tail h h' (ids : list nat) :
  (∀ i, i ∈ tail ids → parent (h' !!! i) = parent (h !!! i)) →
  parented h ids → parented h' ids.
Proof.
  induction ids as [|a ids IH]; [done|]. destruct ids as [|b ids]; [done|].
  intros Hp [Hb Hr]. split.
  - rewrite Hp; [done|]. simpl. set_solver.
  - apply IH; [|done]. intros i Hi. apply Hp. simpl in *. set_solver.
Qed.

Lemma chain_states_head h (ids : list nat) c :
  head ids = Some c → head (chain_states h ids) = Some (puzzle (h !!! c)).
Proof. destruct ids; [done|]. by intros [= ->]. Qed.

Lemma is_path_cons (a b : P) (l : list P) :
  head l = Some b → b ∈ extensions a → is_path l → is_path (a :: l).
Proof. destruct l; [done|]. intros [= ->]. by split. Qed.

(** The end of a call that found a chain below one of its extensions. *)
Lemma dfs_attach puzz seenP h new c p ids :
  puzz ∉ seenP → p ∈ extensions puzz →
  dfs_chain p (seenP ++ [puzz]) ((h ++ [PuzzleNode_init puzz]) ++ new)
    (length (h ++ [PuzzleNode_init puzz])) c ids →
  ∃ h3 new3,
    dfs_mark (length h)
      (children (append_child ((h ++ [PuzzleNode_init puzz]) ++ new)
                   (length h) c !!! length h))
      (append_child ((h ++ [PuzzleNode_init puzz]) ++ new) (length h) c)
      = h3 ∧
    h3 = h ++ new3 ∧ in_solution (h3 !!! length h) = true ∧
    dfs_chain puzz seenP h3 (length h) (length h) (length h :: ids).
Proof.
  intros Hdup Hext C.
  set (curr := length h). set (hn := (h ++ [PuzzleNode_init puzz]) ++ new).
  fold hn in C. rewrite length_app in C. simpl in C. fold curr in C.
  pose proof (dc_range _ _ _ _ _ _ C) as Hrange.
  rewrite Forall_forall in Hrange.
  pose proof (dc_head _ _ _ _ _ _ C) as Hhead.
  assert (Hcin : c ∈ ids). { destruct ids; [done|]. injection Hhead as ->. set_solver. }
  pose proof (Hrange c Hcin) as Hc.
  assert (Hcurr : hn !!! curr = PuzzleNode_init puzz).
  { unfold hn. rewrite deref_app_l by (rewrite length_app; simpl; lia).
    apply deref_snoc. }
  assert (Hlen : curr < length hn).
  { unfold hn. rewrite !length_app. simpl. lia. }
  set (h2 := append_child hn curr c).
  assert (Hch : children (h2 !!! curr) = [c]).
  { unfold h2. rewrite children_append_child_eq by done. by rewrite Hcurr. }
  rewrite Hch. simpl.
  assert (Hins : in_solution (h2 !!! c) = true).
  { unfold h2, append_child. rewrite (alter_field in_solution) by done.
    apply (dc_insol _ _ _ _ _ _ C). }
  rewrite Hins.
  set (h3 := set_in_solution (set_parent h2 c (Some curr)) curr).
  assert (Hl3 : length h3 = length hn).
  { unfold h3, set_in_solution, set_parent, h2, append_child.
    by rewrite !length_alter. }
  assert (Hpz : ∀ i, puzzle (h3 !!! i) = puzzle (hn !!! i)).
  { intros i. unfold h3, set_in_solution, set_parent, h2, append_child.
    by rewrite !(alter_field puzzle). }
  assert (Hcd : ∀ i, i ≠ curr → children (h3 !!! i) = children (hn !!! i)).
  { intros i Hi. unfold h3, set_in_solution, set_parent.
    rewrite !(alter_field children) by done.
    by apply children_append_child_ne. }
  assert (Hcc : children (h3 !!! curr) = [c]).
  { unfold h3, set_in_solution, set_parent.
    by rewrite !(alter_field children). }
  assert (Hpa : ∀ i, i ≠ c → parent (h3 !!! i) = parent (hn !!! i)).
  { intros i Hi. unfold h3, set_in_solution.
    rewrite (alter_field parent) by done. unfold set_parent.
    rewrite list_lookup_total_alter_ne by done.
    apply parent_append_child. }
  assert (Hpc : parent (h3 !!! c) = Some curr).
  { unfold h3, set_in_solution.
    rewrite (alter_field parent) by done. unfold set_parent.
    rewrite list_lookup_total_alter_eq; [done|].
    unfold h2. rewrite length_append_child. lia. }
  assert (Hic : in_solution (h3 !!! curr) = true).
  { unfold h3, set_in_solution. rewrite list_lookup_total_alter_eq; [done|].
    unfold set_parent, h2. rewrite length_alter, length_append_child. lia. }
  exists h3. eexists. split; [done|]. split_and!.
  - unfold h3, set_in_solution, set_parent, h2, append_child, hn.
    rewrite <-app_assoc. rewrite !alter_app_ge by (fold curr; lia). done.
  - done.
  - split.
    + done.
    + simpl. rewrite Hcc, Hhead. split; [done|].
      apply (linked_ext hn); [|apply (dc_linked _ _ _ _ _ _ C)].
      intros i Hi. apply Hcd. specialize (Hrange i Hi). lia.
    + constructor; [apply (dc_sorted _ _ _ _ _ _ C)|].
      apply Forall_forall. intros i Hi. specialize (Hrange i Hi). lia.
    + constructor; [lia|]. apply Forall_forall. intros i Hi.
      specialize (Hrange i Hi). lia.
    + by rewrite Hpz, Hcurr.
    + unfold chain_states, seen_puzzles. rewrite fmap_cons.
      fold (seen_puzzles h3 ids). fold (chain_states h3 ids).
      rewrite (chain_states_ext hn) by done. rewrite Hpz, Hcurr. simpl.
      apply (is_path_cons _ p); [|done|apply (dc_path _ _ _ _ _ _ C)].
      rewrite (chain_states_head _ _ c) by done.
      by rewrite (dc_start _ _ _ _ _ _ C).
    + destruct (dc_solved _ _ _ _ _ _ C) as (e & He & Hs). exists e.
      rewrite Hpz. split; [|done]. rewrite last_cons, He. done.
    + intros s. unfold chain_states, seen_puzzles. rewrite fmap_cons.
      fold (seen_puzzles h3 ids). fold (chain_states h3 ids).
      rewrite (chain_states_ext hn) by done. rewrite Hpz, Hcurr. simpl.
      intros [->|Hs]%elem_of_cons; [done|].
      apply (dc_fresh _ _ _ _ _ _ C) in Hs. set_solver.
    + unfold chain_states, seen_puzzles. rewrite fmap_cons.
      fold (seen_puzzles h3 ids). fold (chain_states h3 ids).
      rewrite (chain_states_ext hn) by done. rewrite Hpz, Hcurr. simpl.
      constructor; [|apply (dc_distinct _ _ _ _ _ _ C)].
      intros Hs. apply (dc_fresh _ _ _ _ _ _ C) in Hs. set_solver.
    + rewrite Hpa by lia. by rewrite Hcurr.
    + destruct ids as [|c' ids]; [done|]. injection Hhead as ->.
      split; [done|].
      apply (parented_ext_tail hn); [|apply (dc_parented _ _ _ _ _ _ C)].
      intros i Hi. apply Hpa.
      pose proof (dc_sorted _ _ _ _ _ _ C) as [_ Hgt]%StronglySorted_inv.
      rewrite Forall_forall in Hgt. simpl in Hi. specialize (Hgt i Hi). lia.
    + done.
    + intros i Hi Hp. rewrite Hl3 in Hi.
      destruct (decide (i = curr)) as [->|]; [set_solver|].
      destruct (decide (i = c)) as [->|]; [set_solver|].
      rewrite Hpa in Hp by done.
      apply elem_of_cons. right. apply (dc_others _ _ _ _ _ _ C); [lia|done].
Qed.

Lemma dfs_spec fuel : ∀ puzz (seen : list nat) h r h',
  Forall (λ x, x < length h) seen →
  _depth_first_solve fuel puzz seen h = Some (r, h') →
  dfs_post puzz (seen_puzzles h seen) h r h'.
Proof.
  induction fuel as [|fuel IH]; intros puzz seen h r h' Hv; [done|].
  simpl. unfold dfs_body. rewrite seen_puzzles_app by done.
  case_bool_decide as Hdup.
  { intros [= <- <-]. exists [PuzzleNode_init puzz].
    split; [done|]. by repeat constructor. }
  destruct (fail_fast puzz).
  { intros [= <- <-]. exists [PuzzleNode_init puzz].
    split; [done|]. by repeat constructor. }
  destruct (is_solved puzz) eqn:Hs.
  { intros [= <- <-].
    assert (set_in_solution (h ++ [PuzzleNode_init puzz]) (length h)
            = h ++ [mkPuzzleNode puzz [] None true]) as ->.
    { unfold set_in_solution. rewrite alter_app_ge by lia.
      by rewrite Nat.sub_diag. }
    exists [mkPuzzleNode puzz [] None true].
    split; [done|]. split; [done|]. exists [length h].
    split; simpl; rewrite ?deref_snoc; try done.
    - by repeat constructor.
    - repeat constructor; rewrite length_app; simpl; lia.
    - exists (length h). by rewrite deref_snoc.
    - intros s ->%list_elem_of_singleton. done.
    - apply NoDup_singleton.
    - intros i Hi Hp. rewrite length_app in Hi. simpl in Hi.
      replace i with (length h) by lia. set_solver. }
  destruct (dfs_for _ _ _ _) as [h2|] eqn:Hfor; [|done].
  intros [= <- <-].
  set (ha := h ++ [PuzzleNode_init puzz]) in *.
  assert (Hv' : Forall (λ x, x < length ha) (seen ++ [length h])).
  { unfold ha. rewrite length_app. simpl. apply Forall_app. split.
    - eapply Forall_impl; [done|]. simpl. lia.
    - repeat constructor. lia. }
  assert (HsP : seen_puzzles ha (seen ++ [length h])
                = seen_puzzles h seen ++ [puzz]).
  { unfold seen_puzzles at 1. rewrite fmap_app. simpl. f_equal.
    - by apply seen_puzzles_app.
    - unfold ha. by rewrite deref_snoc. }
  apply (dfs_for_spec _ (seen_puzzles h seen ++ [puzz]) ha) in Hfor;
    [| |done].
  - destruct Hfor as [(new & -> & Hn)|(new & c & p & ids & Hp & -> & C)].
    + assert (Hcurr : (ha ++ new) !!! length h = PuzzleNode_init puzz).
      { unfold ha. rewrite deref_app_l by (rewrite length_app; simpl; lia).
        apply deref_snoc. }
      rewrite Hcurr. simpl. rewrite Hcurr. simpl.
      exists ([PuzzleNode_init puzz] ++ new). unfold ha.
      rewrite <-app_assoc. split; [done|]. by constructor.
    + destruct (dfs_attach puzz (seen_puzzles h seen) h new c p ids)
        as (h3 & new3 & Hm & Heq & Hin & C'); [done..|].
      fold ha in Hm. rewrite Hm, Hin.
      exists new3. split; [done|]. split; [done|].
      by exists (length h :: ids).
  - intros p h1 r1 h1' [x ->] Hr. apply IH in Hr.
    + rewrite seen_puzzles_app in Hr by done. by rewrite HsP in Hr.
    + eapply Forall_impl; [done|]. simpl. intros i. rewrite length_app. lia.
Qed.

Lemma dfs_chain_solution puzz h c ids :
  dfs_chain puzz [] h 0 c ids → solution_chain puzz h c ids.
Proof.
  intros C. split.
  - split_and!; [apply (dc_head _ _ _ _ _ _ C)|apply (dc_linked _ _ _ _ _ _ C)|].
    eapply Forall_impl; [apply (dc_range _ _ _ _ _ _ C)|]. simpl. lia.
  - apply sorted_lt_NoDup, (dc_sorted _ _ _ _ _ _ C).
  - apply (dc_start _ _ _ _ _ _ C).
  - apply (dc_path _ _ _ _ _ _ C).
  - apply (dc_solved _ _ _ _ _ _ C).
  - apply (dc_root_parent _ _ _ _ _ _ C).
  - apply (dc_parented _ _ _ _ _ _ C).
  - apply (dc_distinct _ _ _ _ _ _ C).
Qed.

(** A chain returned by the depth-first solver is a solution chain, and
    only its nodes have a parent. *)
Lemma dfs_returns_chain fuel puzz root h :
  depth_first_solve fuel puzz = Some (Some root, h) →
  ∃ ids, solution_chain puzz h root ids ∧
    ∀ i, i < length h → parent (h !!! i) ≠ None → i ∈ ids.
Proof.
  intros Hd. apply dfs_spec in Hd; [|done].
  destruct Hd as (new & -> & -> & ids & C). simpl in *. exists ids. split.
  - by apply dfs_chain_solution.
  - intros i Hi. apply (dc_others _ _ _ _ _ _ C). lia.
Qed.

Lemma dfs_returns_none fuel puzz h :
  depth_first_solve fuel puzz = Some (None, h) →
  ∀ i, i < length h → parent (h !!! i) = None.
Proof.
  intros Hd. apply dfs_spec in Hd; [|done].
  destruct Hd as (new & -> & Hn). simpl in *. intros i Hi.
  rewrite Forall_forall in Hn. by apply Hn, list_elem_of_lookup_total_2.
Qed.

(** The states of a solution chain are a path to a solved state. *)
Lemma solution_chain_path puzz h root ids :
  solution_chain puzz h root ids → solved_path puzz (chain_states h ids).
Proof.
  intros S. destruct (sc_chain _ _ _ _ S) as (Hh & _ & _). split_and!.
  - rewrite (chain_states_head _ _ root) by done.
    by rewrite (sc_start _ _ _ _ S).
  - apply (sc_path _ _ _ _ S).
  - destruct (sc_solved _ _ _ _ S) as (e & He & Hs).
    exists (puzzle (h !!! e)). split; [|done].
    unfold chain_states, seen_puzzles. by rewrite fmap_last, He.
Qed.

Lemma dfs_for_total
    (rec_ : P → list PuzzleNode → option (option nat * list PuzzleNode))
    seenP (hb : list PuzzleNode) curr_node (ps0 : list P) :
  (∀ p h r h', hb `prefix_of` h → rec_ p h = Some (r, h') →
               dfs_post p seenP h r h') →
  (∀ p h, p ∈ ps0 → hb `prefix_of` h → is_Some (rec_ p h)) →
  ∀ ps h, ps ⊆ ps0 → hb `prefix_of` h →
    is_Some (dfs_for rec_ curr_node ps h).
Proof.
  intros Hrec Htot. induction ps as [|p ps IH]; intros h Hps Hpre; simpl.
  - done.
  - destruct (Htot p h) as [[r h1] Hr]; [set_solver|done|]. rewrite Hr.
    destruct (Hrec _ _ _ _ Hpre Hr) as (new1 & -> & Hpost).
    assert (hb `prefix_of` h ++ new1) by (by apply prefix_app_r).
    assert (is_Some (dfs_for rec_ curr_node ps (h ++ new1))).
    { apply IH; [set_solver|done]. }
    destruct r as [c|]; [|done]. by destruct (in_solution _).
Qed.

(** On a finite closed set of states the depth-first search returns:
    each level of the recursion adds a new state of [R] to [seen]. *)
Lemma dfs_total (R : list P) :
  (∀ a b, a ∈ R → b ∈ extensions a → b ∈ R) →
  ∀ fuel puzz (seen : list nat) h,
    puzz ∈ R → Forall (λ x, x < length h) seen →
    NoDup (seen_puzzles h seen) → seen_puzzles h seen ⊆ R →
    length R < fuel + length seen →
    is_Some (_depth_first_solve fuel puzz seen h).
Proof.
  intros Hcl. induction fuel as [|fuel IH];
    intros puzz seen h Hp Hv Hnd Hsub Hf.
  { apply NoDup_submseteq in Hsub; [|done].
    apply submseteq_length in Hsub.
    unfold seen_puzzles in Hsub. rewrite length_fmap in Hsub. lia. }
  simpl. unfold dfs_body. rewrite seen_puzzles_app by done.
  case_bool_decide as Hdup; [done|].
  destruct (fail_fast puzz); [done|]. destruct (is_solved puzz); [done|].
  set (ha := h ++ [PuzzleNode_init puzz]).
  assert (Hv' : Forall (λ x, x < length ha) (seen ++ [length h])).
  { unfold ha. rewrite length_app. simpl. apply Forall_app. split.
    - eapply Forall_impl; [done|]. simpl. lia.
    - repeat constructor. lia. }
  assert (HsP : seen_puzzles ha (seen ++ [length h])
                = seen_puzzles h seen ++ [puzz]).
  { unfold seen_puzzles at 1. rewrite fmap_app. simpl. f_equal.
    - by apply seen_puzzles_app.
    - unfold ha. by rewrite deref_snoc. }
  assert (Hv1 : ∀ x, Forall (λ i, i < length (ha ++ x)) (seen ++ [length h])).
  { intros x. eapply Forall_impl; [done|]. simpl. intros i.
    rewrite length_app. lia. }
  destruct (dfs_for_total
    (λ p, _depth_first_solve fuel p (seen ++ [length h]))
    (seen_puzzles h seen ++ [puzz]) ha (length h) (extensions puzz))
    with (ps := extensions puzz) (h := ha) as [h2 ->]; [| |done|done|done].
  - intros p h1 r1 h1' [x ->] Hr. apply dfs_spec in Hr; [|done].
    rewrite seen_puzzles_app in Hr by done. by rewrite HsP in Hr.
  - intros p h1 Hpe [x ->]. apply IH.
    + by apply (Hcl puzz).
    + done.
    + rewrite seen_puzzles_app, HsP by done. apply NoDup_app.
      split_and!; [done| |apply NoDup_singleton]. set_solver.
    + rewrite seen_puzzles_app, HsP by done. set_solver.
    + rewrite length_app. simpl. lia.
Qed.

Lemma chain_unique h root (ids ids' : list nat) :
  chain h root ids → chain h root ids' → ids = ids'.
Proof.
  intros (Hh & Hl & _) (Hh' & Hl' & _). revert root ids' Hh Hh' Hl Hl'.
  induction ids as [|a ids IH]; intros root ids' Hh Hh' Hl Hl'; [done|].
  destruct ids' as [|a' ids']; [done|]. simpl in *.
  injection Hh as ->. injection Hh' as ->.
  destruct Hl as [Hc Hl], Hl' as [Hc' Hl']. rewrite Hc in Hc'. f_equal.
  destruct ids as [|b ids], ids' as [|b' ids']; simpl in *; try done.
  injection Hc' as ->. by apply (IH b').
Qed.

Lemma is_path_lookup (l : list P) :
  is_path l ↔ ∀ i s t, l !! i = Some s → l !! S i = Some t →
                       t ∈ extensions s.
Proof.
  induction l as [|a l IH]; simpl.
  - split; [intros _ i s t Hi; by rewrite lookup_nil in Hi|done].
  - destruct l as [|b l].
    + split; [|done]. intros _ i s t _ Hi. by destruct i.
    + rewrite IH. split.
      * intros [Hb Hr] [|i] s t; simpl.
        -- by intros [= <-] [= <-].
        -- apply Hr.
      * intros Hl. split; [by apply (Hl 0)|].
        intros i s t. apply (Hl (S i)).
Qed.

(** ** Fuel is only a bound: more of it gives the same result *)

Lemma dfs_for_mono
    (rec1 rec2 : P → list PuzzleNode → option (option nat * list PuzzleNode))
    curr_node ps :
  (∀ p h x, rec1 p h = Some x → rec2 p h = Some x) →
  ∀ h h2, dfs_for rec1 curr_node ps h = Some h2 →
          dfs_for rec2 curr_node ps h = Some h2.
Proof.
  intros Hrec. induction ps as [|p ps IH]; intros h h2; simpl; [done|].
  destruct (rec1 p h) as [[r h1]|] eqn:Hr; [|done].
  rewrite (Hrec _ _ _ Hr). destruct r as [c|]; [|apply IH].
  destruct (in_solution _); [done|apply IH].
Qed.

Lemma dfs_fuel_S fuel : ∀ puzz (seen : list nat) h x,
  _depth_first_solve fuel puzz seen h = Some x →
  _depth_first_solve (S fuel) puzz seen h = Some x.
Proof.
  induction fuel as [|fuel IH]; intros puzz seen h x; [done|].
  change (dfs_body (_depth_first_solve fuel) puzz seen h = Some x →
          dfs_body (_depth_first_solve (S fuel)) puzz seen h = Some x).
  unfold dfs_body. case_bool_decide; [done|].
  destruct (fail_fast puzz); [done|]. destruct (is_solved puzz); [done|].
  destruct (dfs_for _ _ _ _) as [h2|] eqn:Hfor; [|done].
  apply (dfs_for_mono _
    (λ p, _depth_first_solve (S fuel) p (seen ++ [length h]))) in Hfor.
  - by rewrite Hfor.
  - intros p h1 y. apply IH.
Qed.

Lemma dfs_fuel_le fuel fuel' puzz x :
  fuel ≤ fuel' → depth_first_solve fuel puzz = Some x →
  depth_first_solve fuel' puzz = Some x.
Proof.
  unfold depth_first_solve. induction 1 as [|m _ IH]; [done|].
  intros Hx. by apply dfs_fuel_S, IH.
Qed.

Lemma bfs_while_fuel_S fuel : ∀ st st',
  bfs_while fuel st = Some st' → bfs_while (S fuel) st = Some st'.
Proof.
  induction fuel as [|fuel IH]; intros st st'; [done|].
  intros Hw. simpl in *. destruct (bfs_cond st); [|done]. by apply IH.
Qed.

Lemma bfs_link_fuel_S fuel : ∀ h c x,
  bfs_link fuel h c = Some x → bfs_link (S fuel) h c = Some x.
Proof.
  induction fuel as [|fuel IH]; intros h c x; [done|].
  intros Hl. simpl in *. destruct (parent (h !!! c)); [|done]. by apply IH.
Qed.

Lemma bfs_fuel_le fuel fuel' puzz x :
  fuel ≤ fuel' → breadth_first_solve fuel puzz = Some x →
  breadth_first_solve fuel' puzz = Some x.
Proof.
  induction 1 as [|m _ IH]; [done|]. intros Hx. specialize (IH Hx).
  revert IH. unfold breadth_first_solve, _breadth_first_solve.
  destruct (bfs_while m _) as [st|] eqn:Hw; [|done].
  rewrite (bfs_while_fuel_S _ _ _ Hw).
  destruct (is_solved _); [|done].
  destruct (bfs_link m _ _) as [y|] eqn:Hl; [|done].
  by rewrite (bfs_link_fuel_S _ _ _ _ Hl).
Qed.

Lemma bfs_parents fuel puzz r h :
  breadth_first_solve fuel puzz = Some (r, h) →
  parent (h !!! 0) = None ∧
  ∀ i, 0 < i < length h →
    ∃ j, parent (h !!! i) = Some j ∧ j < i ∧
         puzzle (h !!! i) ∈ extensions (puzzle (h !!! j)).
Proof.
  intros (k & ds & st & I & _ & Hr)%bfs_result.
  pose proof (list_lookup_total_correct _ _ _ (inv_root _ _ _ _ I)) as Hroot.
  assert (Hh : length h = length (bfs_heap st) ∧
    ∀ i, parent (h !!! i) = parent (bfs_heap st !!! i) ∧
         puzzle (h !!! i) = puzzle (bfs_heap st !!! i)).
  { destruct r as [root|].
    - destruct Hr as (_ & _ & pre & L & _).
      split; [apply (li_len _ _ _ L)|apply (li_same _ _ _ L)].
    - by destruct Hr as [-> _]. }
  destruct Hh as [Hlen Hsame]. split.
  - destruct (Hsame 0) as [-> _]. by rewrite Hroot.
  - intros i Hi. rewrite Hlen in Hi.
    destruct (inv_parent _ _ _ _ I i Hi) as (j & ? & ? & _ & ? & _).
    exists j. destruct (Hsame i) as [-> ->], (Hsame j) as [_ ->]. done.
Qed.

Lemma linked_children h (ids : list nat) i :
  linked h ids → i ∈ ids → length (children (h !!! i)) ≤ 1.
Proof.
  induction ids as [|a ids IH]; simpl; [by intros _ ?%elem_of_nil|].
  intros [Hc Hl] [->|Hi]%elem_of_cons; [|auto].
  rewrite Hc. destruct (head ids); simpl; lia.
Qed.

Lemma solved_path_reachable puzz sol :
  solved_path puzz sol → ∃ s, reachable puzz s ∧ is_solved s = true.
Proof.
  intros (n & s & _ & ? & ?)%solved_path_level. exists s.
  split; [by exists n|done].
Qed.

Lemma path_lookup_level (p : P) (l : list P) i s :
  head l = Some p → is_path l → l !! i = Some s → s ∈ level p i.
Proof.
  intros Hh Hp. revert s. induction i as [|i IH]; intros s Hi.
  - rewrite <-head_lookup, Hh in Hi. injection Hi as ->. simpl. set_solver.
  - destruct (lookup_lt_is_Some_2 l i) as [s' Hs'].
    { apply lookup_lt_Some in Hi. lia. }
    simpl. apply list_elem_of_bind. exists s'. split; [|by apply IH].
    by apply (proj1 (is_path_lookup l) Hp i).
Qed.

(** ** The properties of the specification *)

(** C1 (breadth-first minimality).  If some sequence of extensions from
    the initial state ends in a solved state, then [breadth_first_solve]
    returns a chain, the states of that chain are such a sequence, and
    it makes no more extension steps than any such sequence. *)
Theorem breadth_first_minimal (puzz : P) (sol : list P) :
  solved_path puzz sol →
  ∃ n0, ∀ fuel, n0 ≤ fuel →
    ∃ root h ids,
      breadth_first_solve fuel puzz = Some (Some root, h) ∧
      chain h root ids ∧
      solved_path puzz (chain_states h ids) ∧
      ∀ sol', solved_path puzz sol' → length ids - 1 ≤ length sol' - 1.
Proof.
  intros Hsol. destruct (solved_path_level _ _ Hsol) as (n & s & _ & Hl & Hs).
  exists (length (within puzz (S n)) + n + 1). intros fuel Hf.
  destruct (bfs_total puzz (length (within puzz (S n))) n fuel)
    as [[r h] Hr].
  - intros k ds st I. by apply (bfs_heap_bound_solution puzz k ds st n s).
  - intros k ds st I _. by apply (bfs_depth_le puzz k ds st n s).
  - lia.
  - destruct r as [root|].
    + destruct (bfs_returns_chain _ _ _ _ Hr) as (ids & Hch & Hmin).
      exists root, h, ids. split_and!.
      * done.
      * apply (sc_chain _ _ _ _ Hch).
      * by apply (solution_chain_path _ _ root).
      * intros sol' Hsol'. specialize (Hmin _ Hsol'). lia.
    + by destruct (bfs_returns_none _ _ _ Hr sol).
Qed.

(** C2 (adjacency validity).  In a chain returned by either solver each
    state is an extension of the state before it, and the state of the
    leaf is solved. *)
Theorem returned_chain_valid fuel (puzz : P) root h :
  depth_first_solve fuel puzz = Some (Some root, h) ∨
  breadth_first_solve fuel puzz = Some (Some root, h) →
  (∃ ids, chain h root ids) ∧
  ∀ ids, chain h root ids →
    (∀ i s t, chain_states h ids !! i = Some s →
              chain_states h ids !! S i = Some t → t ∈ extensions s) ∧
    ∃ leaf, last ids = Some leaf ∧ is_solved (puzzle (h !!! leaf)) = true.
Proof.
  intros Hr.
  assert (∃ ids, solution_chain puzz h root ids) as [ids0 Hch].
  { destruct Hr as [Hr|Hr].
    - destruct (dfs_returns_chain _ _ _ _ Hr) as (ids & ? & _). eauto.
    - destruct (bfs_returns_chain _ _ _ _ Hr) as (ids & ? & _). eauto. }
  pose proof (sc_chain _ _ _ _ Hch) as Hc0.
  split; [eauto|]. intros ids Hc.
  rewrite <-(chain_unique _ _ _ _ Hc0 Hc). split.
  - apply is_path_lookup, (sc_path _ _ _ _ Hch).
  - apply (sc_solved _ _ _ _ Hch).
Qed.

(** C3 (no-solution termination).  When the states reachable from the
    initial state are finitely many ([R] lists them) and none is solved,
    both solvers return, and return nothing, however the states are
    connected.  The depth-first search does not explore a state that
    equals a state of a node on its current path: such a call returns
    nothing without any recursive call; and the states on the path it
    hands to its recursive calls stay pairwise distinct. *)
Theorem no_solution_terminates (puzz : P) (R : list P) :
  (∀ s, s ∈ R ↔ reachable puzz s) →
  (∀ s, reachable puzz s → is_solved s = false) →
  (∃ n0, ∀ fuel, n0 ≤ fuel →
     (∃ h, depth_first_solve fuel puzz = Some (None, h)) ∧
     (∃ h, breadth_first_solve fuel puzz = Some (None, h))) ∧
  (∀ rec_ p (seen : list nat) (h : list PuzzleNode),
     Forall (λ x, x < length h) seen → p ∈ seen_puzzles h seen →
     dfs_body rec_ p seen h = Some (None, h ++ [PuzzleNode_init p])) ∧
  (∀ p (seen : list nat) (h : list PuzzleNode),
     Forall (λ x, x < length h) seen → NoDup (seen_puzzles h seen) →
     p ∉ seen_puzzles h seen →
     NoDup (seen_puzzles (h ++ [PuzzleNode_init p]) (seen ++ [length h]))).
Proof.
  intros HR Hns.
  assert (Hp : puzz ∈ R). { apply HR. exists 0. simpl. set_solver. }
  assert (Hcl : ∀ a b, a ∈ R → b ∈ extensions a → b ∈ R).
  { intros a b [n Ha]%HR Hb. apply HR. exists (S n). simpl.
    apply list_elem_of_bind. eauto. }
  assert (Hnone : ∀ sol, ¬ solved_path puzz sol).
  { intros sol (s & Hs & Hsol)%solved_path_reachable.
    by rewrite (Hns s Hs) in Hsol. }
  split_and!.
  - exists (length R + 1). intros fuel Hf. split.
    + destruct (dfs_total R Hcl fuel puzz [] []) as [[r h] Hr];
        [done|done|constructor|set_solver|simpl; lia|].
      destruct r as [root|]; [|by exists h].
      destruct (dfs_returns_chain fuel puzz root h Hr) as (ids & Hch & _).
      by destruct (Hnone _ (solution_chain_path _ _ _ _ Hch)).
    + destruct (bfs_total puzz (length R) 0 fuel) as [[r h] Hr].
      * intros k ds st I. apply (bfs_heap_bound _ _ _ _ _ I). intros i Hi.
        apply HR. exists (ds !!! i). by apply (bfs_node_level _ k).
      * intros k ds st I Hs.
        rewrite Hns in Hs; [done|]. exists (ds !!! pred k).
        apply (bfs_node_level _ k); [done|]. by apply (bfs_inv_curr_lt puzz _ ds).
      * lia.
      * destruct r as [root|]; [|by exists h].
        destruct (bfs_returns_chain _ _ _ _ Hr) as (ids & Hch & _).
        by destruct (Hnone _ (solution_chain_path _ _ _ _ Hch)).
  - intros rec_ p seen h Hv Hin. unfold dfs_body.
    rewrite seen_puzzles_app by done. by rewrite bool_decide_eq_true_2.
  - intros p seen h Hv Hnd Hnin. unfold seen_puzzles at 1.
    rewrite fmap_app. simpl. rewrite deref_snoc. simpl.
    fold (seen_puzzles (h ++ [PuzzleNode_init p]) seen).
    rewrite seen_puzzles_app by done.
    apply NoDup_app. split_and!; [done| |apply NoDup_singleton]. set_solver.
Qed.

(** C4 (linear chain).  The nodes reached from a returned root through
    [children] are pairwise different nodes (no cycle), each has at
    most one child, the root has no parent, and their states are
    pairwise distinct. *)
Theorem returned_chain_linear fuel (puzz : P) root h :
  depth_first_solve fuel puzz = Some (Some root, h) ∨
  breadth_first_solve fuel puzz = Some (Some root, h) →
  (∃ ids, chain h root ids) ∧
  ∀ ids, chain h root ids →
    NoDup ids ∧
    (∀ i, i ∈ ids → length (children (h !!! i)) ≤ 1) ∧
    parent (h !!! root) = None ∧
    NoDup (chain_states h ids).
Proof.
  intros Hr.
  assert (∃ ids, solution_chain puzz h root ids) as [ids0 Hch].
  { destruct Hr as [Hr|Hr].
    - destruct (dfs_returns_chain _ _ _ _ Hr) as (ids & ? & _). eauto.
    - destruct (bfs_returns_chain _ _ _ _ Hr) as (ids & ? & _). eauto. }
  pose proof (sc_chain _ _ _ _ Hch) as Hc0.
  split; [eauto|]. intros ids Hc.
  rewrite <-(chain_unique _ _ _ _ Hc0 Hc). split_and!.
  - apply (sc_nodup_ids _ _ _ _ Hch).
  - intros i. apply linked_children. apply Hc0.
  - apply (sc_root_parent _ _ _ _ Hch).
  - apply (sc_distinct _ _ _ _ Hch).
Qed.

(** C5 (already-solved input).  On a solved initial state, with a sound
    [fail_fast], both solvers return one node: it holds the initial
    state and has neither parent nor children. *)
Theorem already_solved (puzz : P) fuel :
  is_solved puzz = true → fail_fast_sound → 1 ≤ fuel →
  (∃ n, depth_first_solve fuel puzz = Some (Some 0, [n]) ∧
        puzzle n = puzz ∧ parent n = None ∧ children n = []) ∧
  (∃ n, breadth_first_solve fuel puzz = Some (Some 0, [n]) ∧
        puzzle n = puzz ∧ parent n = None ∧ children n = []).
Proof.
  intros Hs Hff Hf. destruct fuel as [|fuel]; [lia|].
  assert (Hnf : fail_fast puzz = false).
  { destruct (fail_fast puzz) eqn:E; [|done].
    destruct (Hff puzz E [puzz]). split_and!; [done..|]. by exists puzz. }
  split.
  - exists (mkPuzzleNode puzz [] None true).
    unfold depth_first_solve. simpl. unfold dfs_body.
    rewrite bool_decide_eq_false_2 by (simpl; set_solver).
    by rewrite Hnf, Hs.
  - exists (PuzzleNode_init puzz).
    unfold breadth_first_solve, _breadth_first_solve. simpl.
    unfold bfs_cond. simpl. rewrite Hs. simpl. by rewrite Hs.
Qed.

(** C6, as amended.  The depth-first solver sets [parent] only in nodes
    of the chain it returns: every other node it created has no parent.
    The breadth-first solver sets [parent] in every node it creates for
    an extension, when it creates it, whether or not the node ends up on
    the returned chain; only the root has none. *)
Theorem parent_links fuel (puzz : P) rd hd rb hb :
  depth_first_solve fuel puzz = Some (rd, hd) →
  breadth_first_solve fuel puzz = Some (rb, hb) →
  (∀ i, i < length hd → parent (hd !!! i) ≠ None →
        ∃ root ids, rd = Some root ∧ chain hd root ids ∧ i ∈ ids) ∧
  parent (hb !!! 0) = None ∧
  (∀ i, 0 < i < length hb →
        ∃ j, parent (hb !!! i) = Some j ∧ j < i ∧
             puzzle (hb !!! i) ∈ extensions (puzzle (hb !!! j))).
Proof.
  intros Hd Hb. split; [|by apply (bfs_parents fuel puzz rb)].
  intros i Hi Hp. destruct rd as [root|].
  - destruct (dfs_returns_chain _ _ _ _ Hd) as (ids & Hch & Ho).
    exists root, ids. split_and!; [done|apply (sc_chain _ _ _ _ Hch)|auto].
  - by rewrite (dfs_returns_none _ _ _ Hd) in Hp.
Qed.

(** ** Further properties of the solvers *)

Lemma puzzle_lookup_inj h i j :
  NoDup (puzzle <$> h) → i < length h → j < length h →
  puzzle (h !!! i) = puzzle (h !!! j) → i = j.
Proof.
  intros Hnd Hi Hj Heq.
  destruct (lookup_lt_is_Some_2 h i Hi) as [ni Hni].
  destruct (lookup_lt_is_Some_2 h j Hj) as [nj Hnj].
  rewrite (list_lookup_total_correct _ _ _ Hni) in Heq.
  rewrite (list_lookup_total_correct _ _ _ Hnj) in Heq.
  apply (NoDup_lookup (puzzle <$> h) i j (puzzle ni)); [done|..].
  - by rewrite list_lookup_fmap, Hni.
  - by rewrite list_lookup_fmap, Hnj, Heq.
Qed.

Lemma puzzles_ext h h' :
  length h' = length h → (∀ i, puzzle (h' !!! i) = puzzle (h !!! i)) →
  puzzle <$> h' = puzzle <$> h.
Proof.
  intros Hlen Hp. apply list_eq. intros i. rewrite !list_lookup_fmap.
  destruct (decide (i < length h)) as [Hi|Hi].
  - destruct (lookup_lt_is_Some_2 h i Hi) as [n Hn].
    destruct (lookup_lt_is_Some_2 h' i) as [n' Hn']; [lia|].
    specialize (Hp i).
    rewrite (list_lookup_total_correct _ _ _ Hn) in Hp.
    rewrite (list_lookup_total_correct _ _ _ Hn') in Hp.
    rewrite Hn, Hn'. simpl. by rewrite Hp.
  - by rewrite !lookup_ge_None_2 by lia.
Qed.

(** The store a breadth-first search returns differs from the store at
    the end of its first loop in the [children] fields only. *)
Lemma bfs_result_store fuel puzz r h :
  breadth_first_solve fuel puzz = Some (r, h) →
  ∃ k ds st, bfs_inv puzz k ds st ∧ bfs_cond st = false ∧
    length h = length (bfs_heap st) ∧
    (∀ i, parent (h !!! i) = parent (bfs_heap st !!! i) ∧
          puzzle (h !!! i) = puzzle (bfs_heap st !!! i)) ∧
    (r = None → is_solved (puzzle (bfs_heap st !!! pred k)) = false).
Proof.
  intros (k & ds & st & I & Hc & Hr)%bfs_result. exists k, ds, st.
  split; [done|]. split; [done|]. destruct r as [root|].
  - destruct Hr as (_ & _ & pre & L & _).
    split_and!; [apply (li_len _ _ _ L)|apply (li_same _ _ _ L)|done].
  - destruct Hr as [-> Hs]. done.
Qed.

Lemma bfs_depth_of puzz k ds st i :
  bfs_inv puzz k ds st → i < length (bfs_heap st) →
  depth_of (bfs_heap st) i (ds !!! i).
Proof.
  intros I. induction i as [i IH] using lt_wf_ind. intros Hi.
  destruct (decide (i = 0)) as [->|].
  - rewrite (inv_ds0 _ _ _ _ I). constructor.
    by rewrite (list_lookup_total_correct _ _ _ (inv_root _ _ _ _ I)).
  - destruct (inv_parent _ _ _ _ I i) as (j & Hj & ? & _ & _ & ->); [lia|].
    apply (depth_of_child _ i j); [done|]. apply IH; lia.
Qed.

Lemma depth_of_ext h h' i d :
  (∀ j, parent (h' !!! j) = parent (h !!! j)) →
  depth_of h i d → depth_of h' i d.
Proof.
  intros Hp. induction 1 as [i Hi|i j d Hi _ IH].
  - constructor. by rewrite Hp.
  - apply (depth_of_child _ i j); [by rewrite Hp|done].
Qed.

Lemma bfs_depth_index puzz k ds st i :
  bfs_inv puzz k ds st → i < length (bfs_heap st) → ds !!! i ≤ i.
Proof.
  intros I. induction i as [i IH] using lt_wf_ind. intros Hi.
  destruct (decide (i = 0)) as [->|].
  - by rewrite (inv_ds0 _ _ _ _ I).
  - destruct (inv_parent _ _ _ _ I i) as (j & _ & ? & _ & _ & ->); [lia|].
    specialize (IH j). lia.
Qed.

(** When the deque is empty, every reachable state has a node. *)
Lemma bfs_store_complete puzz k ds st n s :
  bfs_inv puzz k ds st → k = length (bfs_heap st) →
  s ∈ level puzz n →
  ∃ j, j < length (bfs_heap st) ∧ puzzle (bfs_heap st !!! j) = s.
Proof.
  intros I Hk. revert s. induction n as [|n IH]; intros s Hs; simpl in Hs.
  - apply list_elem_of_singleton in Hs as ->. exists 0.
    pose proof (inv_root _ _ _ _ I) as Hr. split.
    + by apply lookup_lt_Some in Hr.
    + by rewrite (list_lookup_total_correct _ _ _ Hr).
  - apply list_elem_of_bind in Hs as (a & Hs & Ha).
    destruct (IH a Ha) as (j' & ? & <-).
    destruct (inv_closed _ _ _ _ I j' s) as (j & ? & ? & _); [lia|done|].
    eauto.
Qed.

(** X1.  When [breadth_first_solve] returns nothing, no sequence of
    extensions from the initial state ends in a solved state, and the
    store holds exactly the states reachable from the initial state, each
    in one node: the search was exhaustive. *)
Theorem breadth_first_none_exhaustive fuel (puzz : P) h :
  breadth_first_solve fuel puzz = Some (None, h) →
  (∀ sol, ¬ solved_path puzz sol) ∧
  NoDup (puzzle <$> h) ∧
  (∀ s, reachable puzz s ↔ s ∈ puzzle <$> h).
Proof.
  intros Hr. split; [by apply (bfs_returns_none fuel puzz h)|].
  apply bfs_result in Hr as (k & ds & st & I & Hc & -> & Hs).
  split; [apply (inv_nodup _ _ _ _ I)|]. intros s.
  assert (k = length (bfs_heap st)) as Hk.
  { unfold bfs_cond in Hc. rewrite (inv_curr _ _ _ _ I), Hs in Hc.
    simpl in Hc. apply bool_decide_eq_false in Hc.
    rewrite (inv_q _ _ _ _ I), length_seq in Hc.
    pose proof (inv_k _ _ _ _ I). lia. }
  rewrite elem_of_puzzles. split.
  - intros [n Hn]. by apply (bfs_store_complete puzz k ds st n).
  - intros (i & Hi & <-). exists (ds !!! i). by apply (bfs_node_level _ k).
Qed.

(** X2.  In the store a breadth-first search leaves, whatever it returns,
    no two nodes hold the same state, and the [parent] links are a tree of
    shortest paths: the number of links from a node up to the root is the
    least number of extension steps that reach the node's state. *)
Theorem breadth_first_shortest_tree fuel (puzz : P) r h :
  breadth_first_solve fuel puzz = Some (r, h) →
  NoDup (puzzle <$> h) ∧
  ∀ i, i < length h →
    ∃ d, depth_of h i d ∧ puzzle (h !!! i) ∈ level puzz d ∧
         ∀ n, puzzle (h !!! i) ∈ level puzz n → d ≤ n.
Proof.
  intros (k & ds & st & I & _ & Hlen & Hsame & _)%bfs_result_store.
  assert (Hpz : ∀ i, puzzle (h !!! i) = puzzle (bfs_heap st !!! i)).
  { intros i. apply Hsame. }
  split.
  - rewrite (puzzles_ext (bfs_heap st) h) by done. apply (inv_nodup _ _ _ _ I).
  - intros i Hi. rewrite Hlen in Hi. exists (ds !!! i). rewrite Hpz.
    split_and!.
    + apply (depth_of_ext (bfs_heap st)); [intros j; apply Hsame|].
      by apply (bfs_depth_of puzz k).
    + by apply (bfs_node_level _ k).
    + intros n Hn. destruct (decide (ds !!! i ≤ n)) as [|Hgt]; [done|].
      pose proof (inv_bound _ _ _ _ I i Hi).
      destruct (bfs_complete puzz k ds st n _ I Hn) as (j & Hj & Heq & Hd);
        [lia|].
      assert (j = i) as ->; [|lia].
      by apply (puzzle_lookup_inj (bfs_heap st)); [apply (inv_nodup _ _ _ _ I)|..].
Qed.

(** X3.  On a puzzle with finitely many reachable states ([R] contains
    the initial state and is closed under extensions) both solvers return,
    whether or not there is a solution and whatever [fail_fast] does. *)
Theorem solvers_terminate (puzz : P) (R : list P) fuel :
  puzz ∈ R → (∀ a b, a ∈ R → b ∈ extensions a → b ∈ R) →
  2 * length R + 1 ≤ fuel →
  is_Some (depth_first_solve fuel puzz) ∧
  is_Some (breadth_first_solve fuel puzz).
Proof.
  intros Hp Hcl Hf. split.
  - apply (dfs_total R Hcl); [done|done|constructor|set_solver|simpl; lia].
  - apply (bfs_total puzz (length R) (length R)); [| |lia].
    + intros k ds st I. apply (bfs_heap_bound _ _ _ _ _ I). intros i Hi.
      apply (level_closed puzz R (ds !!! i)); [done..|].
      by apply (bfs_node_level _ k).
    + intros k ds st I _.
      pose proof (bfs_inv_curr_lt _ _ _ _ I) as Hlt.
      pose proof (bfs_depth_index _ _ _ _ _ I Hlt).
      assert (length (bfs_heap st) ≤ length R); [|lia].
      apply (bfs_heap_bound _ _ _ _ _ I). intros i Hi.
      apply (level_closed puzz R (ds !!! i)); [done..|].
      by apply (bfs_node_level _ k).
Qed.

Lemma is_path_app_r (l1 l2 : list P) : is_path (l1 ++ l2) → is_path l2.
Proof.
  induction l1 as [|a l1 IH]; [done|]. intros Hp. apply IH.
  simpl in Hp. destruct (l1 ++ l2); [done|tauto].
Qed.

(** From a path to a solved state, a path that starts at an extension of
    its first state and does not come back to that state. *)
Lemma path_step_avoid (l : list P) : ∀ puzz e (S : list P),
  head l = Some puzz → is_path l → last l = Some e →
  is_solved e = true → is_solved puzz = false →
  (∀ x, x ∈ l → x ∉ S) →
  ∃ l' p0, p0 ∈ extensions puzz ∧ head l' = Some p0 ∧ is_path l' ∧
           last l' = Some e ∧ (∀ x, x ∈ l' → (x ∉ S) ∧ x ≠ puzz).
Proof.
  induction l as [l IH] using (induction_ltof1 _ (@length P)).
  unfold ltof in IH. intros puzz e S Hh Hp Hl Hse Hsp Hav.
  destruct l as [|a l1]; [done|]. injection Hh as ->.
  destruct l1 as [|b l2].
  { simpl in Hl. injection Hl as ->. congruence. }
  destruct (decide (puzz ∈ b :: l2)) as [Hin|Hnin].
  - apply list_elem_of_split in Hin as (l3 & l4 & Heq).
    apply (IH (puzz :: l4)).
    + rewrite Heq. simpl. rewrite length_app. simpl. lia.
    + done.
    + apply (is_path_app_r (puzz :: l3)). simpl. by rewrite <-Heq.
    + rewrite last_cons_cons, Heq in Hl. by rewrite last_app_cons in Hl.
    + done.
    + done.
    + intros x Hx. apply Hav. rewrite Heq. set_solver.
  - exists (b :: l2), b. destruct Hp as [Hb Hp]. split_and!; try done.
    intros x Hx. split; [apply Hav; set_solver|]. by intros ->.
Qed.

Lemma dfs_for_found
    (rec_ : P → list PuzzleNode → option (option nat * list PuzzleNode))
    seenP (hb : list PuzzleNode) curr_node p0 :
  (∀ p h r h', hb `prefix_of` h → rec_ p h = Some (r, h') →
               dfs_post p seenP h r h') →
  (∀ h r h', hb `prefix_of` h → rec_ p0 h = Some (r, h') → r ≠ None) →
  ∀ ps h h2, p0 ∈ ps → hb `prefix_of` h →
    dfs_for rec_ curr_node ps h = Some h2 →
    ∃ new c p ids, p ∈ ps ∧
      h2 = append_child (h ++ new) curr_node c ∧
      dfs_chain p seenP (h ++ new) (length h) c ids.
Proof.
  intros Hrec Hp0. induction ps as [|p ps IH]; intros h h2 Hin Hpre; simpl.
  { by apply elem_of_nil in Hin. }
  destruct (rec_ p h) as [[r h1]|] eqn:Hr; [|done].
  destruct (Hrec _ _ _ _ Hpre Hr) as (new1 & -> & Hpost).
  assert (Hpre1 : hb `prefix_of` h ++ new1) by (by apply prefix_app_r).
  destruct r as [c|].
  - destruct Hpost as (-> & ids & C). rewrite (dc_insol _ _ _ _ _ _ C).
    intros [= <-]. exists new1, (length h), p, ids.
    split_and!; [set_solver|done..].
  - assert (p0 ∈ ps) as Hin'.
    { apply elem_of_cons in Hin as [->|]; [|done].
      by destruct (Hp0 _ _ _ Hpre Hr). }
    intros Hl.
    destruct (IH _ _ Hin' Hpre1 Hl) as (new & c & p' & ids & Hp' & -> & C).
    exists (new1 ++ new), c, p', ids. rewrite !app_assoc.
    split_and!; [set_solver|done|]. rewrite <-app_assoc.
    by apply dfs_chain_weaken.
Qed.

(** With a sound [fail_fast], a call of [_depth_first_solve] that returns
    does not return nothing when a path to a solved state avoids the
    states of [seen]. *)
Lemma dfs_complete fuel : fail_fast_sound →
  ∀ puzz (seen : list nat) h r h' (l : list P) e,
    Forall (λ x, x < length h) seen →
    _depth_first_solve fuel puzz seen h = Some (r, h') →
    head l = Some puzz → is_path l → last l = Some e →
    is_solved e = true →
    (∀ x, x ∈ l → x ∉ seen_puzzles h seen) →
    r ≠ None.
Proof.
  intros Hff. induction fuel as [|fuel IH];
    intros puzz seen h r h' l e Hv; [done|].
  simpl. unfold dfs_body. rewrite seen_puzzles_app by done.
  intros Hr Hh Hp Hl Hse Hav.
  assert (puzz ∈ l) as Hpl by (destruct l; [done|]; injection Hh as ->; set_solver).
  rewrite bool_decide_eq_false_2 in Hr by (by apply Hav).
  destruct (fail_fast puzz) eqn:Hfp.
  { destruct (Hff puzz Hfp l). split_and!; [done..|]. by exists e. }
  destruct (is_solved puzz) eqn:Hsp.
  { by injection Hr as <- <-. }
  destruct (dfs_for _ _ _ _) as [h2|] eqn:Hfor; [|done].
  injection Hr as <- <-.
  destruct (path_step_avoid l puzz e (seen_puzzles h seen))
    as (l' & p0 & Hp0 & Hh' & Hp' & Hl' & Hav'); [done..|].
  set (ha := h ++ [PuzzleNode_init puzz]) in *.
  assert (Hv' : Forall (λ x, x < length ha) (seen ++ [length h])).
  { unfold ha. rewrite length_app. simpl. apply Forall_app. split.
    - eapply Forall_impl; [done|]. simpl. lia.
    - repeat constructor. lia. }
  assert (HsP : seen_puzzles ha (seen ++ [length h])
                = seen_puzzles h seen ++ [puzz]).
  { unfold seen_puzzles at 1. rewrite fmap_app. simpl. f_equal.
    - by apply seen_puzzles_app.
    - unfold ha. by rewrite deref_snoc. }
  assert (Hv1 : ∀ x, Forall (λ i, i < length (ha ++ x)) (seen ++ [length h])).
  { intros x. eapply Forall_impl; [done|]. simpl. intros i.
    rewrite length_app. lia. }
  apply (dfs_for_found _ (seen_puzzles h seen ++ [puzz]) ha _ p0) in Hfor;
    [| | |done|done].
  - destruct Hfor as (new & c & p & ids & Hpe & -> & C).
    destruct (dfs_attach puzz (seen_puzzles h seen) h new c p ids)
      as (h3 & new3 & Hm & Heq & Hin & C'); [by apply Hav|done|done|].
    fold ha in Hm. by rewrite Hm, Hin.
  - intros p h1 r1 h1' [x ->] Hr. apply dfs_spec in Hr; [|done].
    rewrite seen_puzzles_app in Hr by done. by rewrite HsP in Hr.
  - intros h1 r1 h1' [x ->] Hr.
    apply (IH p0 (seen ++ [length h]) (ha ++ x) r1 h1' l' e); try done.
    intros y Hy. rewrite seen_puzzles_app, HsP by done.
    destruct (Hav' y Hy). set_solver.
Qed.

(** X4.  With a sound [fail_fast], depth_first_solve returns nothing only
    when no sequence of extensions from the initial state ends in a
    solved state. *)
Theorem depth_first_none_sound fuel (puzz : P) h :
  fail_fast_sound →
  depth_first_solve fuel puzz = Some (None, h) →
  ∀ sol, ¬ solved_path puzz sol.
Proof.
  intros Hff Hr sol (Hh & Hp & e & Hl & Hs).
  apply (dfs_complete fuel Hff puzz [] [] None h sol e); try done.
  intros x _. apply not_elem_of_nil.
Qed.

(** X5.  On a puzzle with finitely many reachable states and a sound
    [fail_fast], the two solvers agree with each other and with the
    puzzle: each returns a chain exactly when a solution exists. *)
Theorem solvers_decide (puzz : P) (R : list P) fuel :
  fail_fast_sound →
  puzz ∈ R → (∀ a b, a ∈ R → b ∈ extensions a → b ∈ R) →
  2 * length R + 1 ≤ fuel →
  ∃ rd hd rb hb,
    depth_first_solve fuel puzz = Some (rd, hd) ∧
    breadth_first_solve fuel puzz = Some (rb, hb) ∧
    (is_Some rd ↔ ∃ sol, solved_path puzz sol) ∧
    (is_Some rb ↔ ∃ sol, solved_path puzz sol).
Proof.
  intros Hff Hp Hcl Hf.
  assert (is_Some (depth_first_solve fuel puzz)) as [[rd hd] Hd].
  { apply (dfs_total R Hcl); [done|done|constructor|set_solver|simpl; lia]. }
  assert (is_Some (breadth_first_solve fuel puzz)) as [[rb hb] Hb].
  { apply (bfs_total puzz (length R) (length R)); [| |lia].
    - intros k ds st I. apply (bfs_heap_bound _ _ _ _ _ I). intros i Hi.
      apply (level_closed puzz R (ds !!! i)); [done..|].
      by apply (bfs_node_level _ k).
    - intros k ds st I _.
      pose proof (bfs_inv_curr_lt _ _ _ _ I) as Hlt.
      pose proof (bfs_depth_index _ _ _ _ _ I Hlt).
      assert (length (bfs_heap st) ≤ length R); [|lia].
      apply (bfs_heap_bound _ _ _ _ _ I). intros i Hi.
      apply (level_closed puzz R (ds !!! i)); [done..|].
      by apply (bfs_node_level _ k). }
  exists rd, hd, rb, hb. split; [done|]. split; [done|]. split.
  - split.
    + intros [root ->].
      destruct (dfs_returns_chain _ _ _ _ Hd) as (ids & Hch & _).
      eexists. by apply (solution_chain_path puzz hd root ids).
    + intros [sol Hsol]. destruct rd as [root|]; [done|].
      destruct Hsol as (Hh & Hpa & e & Hl & Hs).
      destruct (dfs_complete fuel Hff puzz [] [] None hd sol e); try done.
      intros x _. apply not_elem_of_nil.
  - split.
    + intros [root ->].
      destruct (bfs_returns_chain _ _ _ _ Hb) as (ids & Hch & _).
      eexists. by apply (solution_chain_path puzz hb root ids).
    + intros [sol Hsol]. destruct rb as [root|]; [done|].
      by destruct (bfs_returns_none _ _ _ Hb sol).
Qed.

(** ** Finite state spaces: the parts of the two results above *)

Lemma dfs_total_closed (puzz : P) (R : list P) fuel :
  puzz ∈ R → (∀ a b, a ∈ R → b ∈ extensions a → b ∈ R) →
  length R < fuel → is_Some (depth_first_solve fuel puzz).
Proof.
  intros Hp Hcl Hf.
  apply (dfs_total R Hcl); [done|done|constructor|set_solver|simpl; lia].
Qed.

Lemma bfs_total_closed (puzz : P) (R : list P) fuel :
  puzz ∈ R → (∀ a b, a ∈ R → b ∈ extensions a → b ∈ R) →
  2 * length R + 1 ≤ fuel → is_Some (breadth_first_solve fuel puzz).
Proof.
  intros Hp Hcl Hf.
  assert (∀ k ds st, bfs_inv puzz k ds st →
                     length (bfs_heap st) ≤ length R) as Hb.
  { intros k ds st I. apply (bfs_heap_bound _ _ _ _ _ I). intros i Hi.
    apply (level_closed puzz R (ds !!! i)); [done..|].
    by apply (bfs_node_level _ k). }
  apply (bfs_total puzz (length R) (length R)); [done| |lia].
  intros k ds st I _.
  pose proof (bfs_inv_curr_lt _ _ _ _ I) as Hlt.
  pose proof (bfs_depth_index _ _ _ _ _ I Hlt).
  pose proof (Hb k ds st I). lia.
Qed.

Lemma dfs_some_iff fuel (puzz : P) rd hd :
  fail_fast_sound → depth_first_solve fuel puzz = Some (rd, hd) →
  is_Some rd ↔ ∃ sol, solved_path puzz sol.
Proof.
  intros Hff Hd. split.
  - intros [root ->].
    destruct (dfs_returns_chain _ _ _ _ Hd) as (ids & Hch & _).
    eexists. by apply (solution_chain_path puzz hd root ids).
  - intros [sol Hsol]. destruct rd as [root|]; [done|].
    destruct Hsol as (Hh & Hpa & e & Hl & Hs).
    destruct (dfs_complete fuel Hff puzz [] [] None hd sol e); try done.
    intros x _. apply not_elem_of_nil.
Qed.

Lemma bfs_some_iff fuel (puzz : P) rb hb :
  breadth_first_solve fuel puzz = Some (rb, hb) →
  is_Some rb ↔ ∃ sol, solved_path puzz sol.
Proof.
  intros Hb. split.
  - intros [root ->].
    destruct (bfs_returns_chain _ _ _ _ Hb) as (ids & Hch & _).
    eexists. by apply (solution_chain_path puzz hb root ids).
  - intros [sol Hsol]. destruct rb as [root|]; [done|].
    by destruct (bfs_returns_none _ _ _ Hb sol).
Qed.

(** Both solvers return on a finite closed set of states, and with a
    sound [fail_fast] each returns a chain exactly when there is a
    solution. *)
Lemma finite_search (puzz : P) (R : list P) fuel :
  fail_fast_sound →
  puzz ∈ R → (∀ a b, a ∈ R → b ∈ extensions a → b ∈ R) →
  2 * length R + 1 ≤ fuel →
  ∃ rd hd rb hb,
    depth_first_solve fuel puzz = Some (rd, hd) ∧
    breadth_first_solve fuel puzz = Some (rb, hb) ∧
    (is_Some rd ↔ ∃ sol, solved_path puzz sol) ∧
    (is_Some rb ↔ ∃ sol, solved_path puzz sol).
Proof.
  intros Hff Hp Hcl Hf.
  destruct (dfs_total_closed puzz R fuel) as [[rd hd] Hd]; [done..|lia|].
  destruct (bfs_total_closed puzz R fuel) as [[rb hb] Hb]; [done..|].
  exists rd, hd, rb, hb. split_and!; [done..| |].
  - by apply (dfs_some_iff fuel puzz rd hd).
  - by apply (bfs_some_iff fuel puzz rb hb).
Qed.

(** ** The [in_solution] marks *)

Lemma dfs_for_marks
    (rec_ : P → list PuzzleNode → option (option nat * list PuzzleNode))
    seenP (hb : list PuzzleNode) curr_node :
  (∀ p h r h', hb `prefix_of` h → rec_ p h = Some (r, h') →
               dfs_post p seenP h r h' ∧ marks_post h r h') →
  ∀ ps h h2, hb `prefix_of` h →
    dfs_for rec_ curr_node ps h = Some h2 →
    (∃ new, h2 = h ++ new ∧
       ∀ i, length h ≤ i < length (h ++ new) →
         parent ((h ++ new) !!! i) = None ∧
         in_solution ((h ++ new) !!! i) = false ∧
         children ((h ++ new) !!! i) = []) ∨
    (∃ new c, h2 = append_child (h ++ new) curr_node c ∧
       length h ≤ c < length (h ++ new) ∧
       in_solution ((h ++ new) !!! c) = true ∧
       ∀ i, length h ≤ i < length (h ++ new) →
         (in_solution ((h ++ new) !!! i) = false →
          children ((h ++ new) !!! i) = []) ∧
         (in_solution ((h ++ new) !!! i) = true ↔
          i = c ∨ parent ((h ++ new) !!! i) ≠ None)).
Proof.
  intros Hrec. induction ps as [|p ps IH]; intros h h2 Hpre; simpl.
  - intros [= <-]. left. exists []. split; [by rewrite app_nil_r|].
    intros i. rewrite app_nil_r. lia.
  - destruct (rec_ p h) as [[r h1]|] eqn:Hr; [|done].
    destruct (Hrec _ _ _ _ Hpre Hr) as [(new1 & -> & Hpost) Hm].
    assert (Hpre1 : hb `prefix_of` h ++ new1) by (by apply prefix_app_r).
    destruct r as [c|].
    + destruct Hpost as (-> & ids & C).
      rewrite (dc_insol _ _ _ _ _ _ C). intros [= <-]. right.
      exists new1, (length h). split; [done|].
      pose proof (dc_range _ _ _ _ _ _ C) as Hrange.
      pose proof (dc_head _ _ _ _ _ _ C) as Hhead.
      destruct ids as [|c ids]; [done|]. injection Hhead as ->.
      apply Forall_cons in Hrange as [Hc _].
      split; [done|]. split; [apply (dc_insol _ _ _ _ _ _ C)|]. apply Hm.
    + assert (Hnew1 : ∀ new i, length h ≤ i < length (h ++ new1) →
        parent (((h ++ new1) ++ new) !!! i) = None ∧
        in_solution (((h ++ new1) ++ new) !!! i) = false ∧
        children (((h ++ new1) ++ new) !!! i) = []).
      { intros new i Hi. rewrite deref_app_l by lia.
        destruct (Hm i Hi) as [Hch Hin]. split; [|by auto].
        rewrite Forall_forall in Hpost. apply Hpost.
        rewrite length_app in Hi.
        replace i with (length h + (i - length h)) by lia.
        rewrite lookup_total_app_r by lia.
        replace (length h + (i - length h) - length h) with (i - length h)
          by lia.
        apply list_elem_of_lookup_total_2. lia. }
      intros Hl. destruct (IH _ _ Hpre1 Hl)
        as [(new & -> & Hn)|(new & c & -> & Hc & Hic & Hn)].
      * left. exists (new1 ++ new). rewrite app_assoc. split; [done|].
        intros i Hi. destruct (decide (i < length (h ++ new1))).
        -- apply Hnew1. lia.
        -- apply Hn. lia.
      * right. exists (new1 ++ new), c. rewrite !app_assoc.
        split; [done|]. rewrite length_app in Hc. rewrite !length_app.
        split; [rewrite !length_app in Hc; lia|]. split; [done|].
        intros i Hi. destruct (decide (i < length (h ++ new1))) as [Hlt|Hge].
        -- destruct (Hnew1 new i) as (-> & -> & ->); [lia|].
           rewrite length_app in Hlt. split; [done|].
           split; [done|]. intros [->|?]; [lia|done].
        -- apply Hn. rewrite !length_app in *. lia.
Qed.

Lemma dfs_marks fuel : ∀ puzz (seen : list nat) h r h',
  Forall (λ x, x < length h) seen →
  _depth_first_solve fuel puzz seen h = Some (r, h') →
  marks_post h r h'.
Proof.
  induction fuel as [|fuel IH]; intros puzz seen h r h' Hv; [done|].
  simpl. unfold dfs_body. rewrite seen_puzzles_app by done.
  assert (Hone : ∀ n i, length h ≤ i < length (h ++ [n]) →
                        (h ++ [n]) !!! i = n).
  { intros n i. rewrite length_app. simpl. intros Hi.
    replace i with (length h) by lia. apply deref_snoc. }
  case_bool_decide as Hdup.
  { intros [= <- <-] i Hi. by rewrite Hone. }
  destruct (fail_fast puzz).
  { intros [= <- <-] i Hi. by rewrite Hone. }
  destruct (is_solved puzz) eqn:Hs.
  { intros [= <- <-].
    assert (set_in_solution (h ++ [PuzzleNode_init puzz]) (length h)
            = h ++ [mkPuzzleNode puzz [] None true]) as ->.
    { unfold set_in_solution. rewrite alter_app_ge by lia.
      by rewrite Nat.sub_diag. }
    intros i Hi. rewrite Hone by done. simpl.
    rewrite length_app in Hi. simpl in Hi.
    split; [done|]. split; [intros _; left; lia|done]. }
  destruct (dfs_for _ _ _ _) as [h2|] eqn:Hfor; [|done].
  intros [= <- <-].
  set (ha := h ++ [PuzzleNode_init puzz]) in *.
  set (curr := length h) in *.
  assert (Hla : length ha = S curr).
  { unfold ha. rewrite length_app. simpl. lia. }
  assert (Hv' : Forall (λ x, x < length ha) (seen ++ [curr])).
  { rewrite Hla. apply Forall_app. split.
    - eapply Forall_impl; [done|]. simpl. unfold curr. lia.
    - repeat constructor. }
  assert (HsP : seen_puzzles ha (seen ++ [curr])
                = seen_puzzles h seen ++ [puzz]).
  { unfold seen_puzzles at 1. rewrite fmap_app. simpl. f_equal.
    - by apply seen_puzzles_app.
    - unfold ha, curr. by rewrite deref_snoc. }
  assert (Hcurr : ∀ new, (ha ++ new) !!! curr = PuzzleNode_init puzz).
  { intros new. rewrite deref_app_l by lia. apply deref_snoc. }
  apply (dfs_for_marks _ (seen_puzzles h seen ++ [puzz]) ha) in Hfor;
    [| |done].
  - destruct Hfor as [(new & -> & Hn)|(new & c & -> & Hc & Hic & Hn)].
    + rewrite Hcurr. simpl. rewrite Hcurr. simpl.
      intros i Hi. destruct (decide (i = curr)) as [->|].
      * by rewrite Hcurr.
      * destruct (Hn i) as (_ & ? & ?); [lia|done].
    + set (hn := ha ++ new) in *.
      assert (Hlen : curr < length hn).
      { unfold hn. rewrite length_app. lia. }
      set (h2 := append_child hn curr c).
      assert (Hch : children (h2 !!! curr) = [c]).
      { unfold h2. rewrite children_append_child_eq by done.
        unfold hn. by rewrite Hcurr. }
      assert (Hins : in_solution (h2 !!! c) = true).
      { unfold h2, append_child. by rewrite (alter_field in_solution). }
      rewrite Hch. simpl. rewrite Hins.
      set (h3 := set_in_solution (set_parent h2 c (Some curr)) curr).
      assert (Hl3 : length h3 = length hn).
      { unfold h3, set_in_solution, set_parent, h2, append_child.
        by rewrite !length_alter. }
      assert (Hpa : ∀ i, i ≠ c → parent (h3 !!! i) = parent (hn !!! i)).
      { intros i Hi. unfold h3, set_in_solution.
        rewrite (alter_field parent) by done. unfold set_parent.
        rewrite list_lookup_total_alter_ne by done.
        apply parent_append_child. }
      assert (Hpc : parent (h3 !!! c) = Some curr).
      { unfold h3, set_in_solution.
        rewrite (alter_field parent) by done. unfold set_parent.
        rewrite list_lookup_total_alter_eq; [done|].
        unfold h2. rewrite length_append_child. lia. }
      assert (Hic3 : in_solution (h3 !!! curr) = true).
      { unfold h3, set_in_solution.
        rewrite list_lookup_total_alter_eq; [done|].
        unfold set_parent, h2. rewrite length_alter, length_append_child.
        lia. }
      assert (Hio : ∀ i, i ≠ curr →
                in_solution (h3 !!! i) = in_solution (hn !!! i)).
      { intros i Hi. unfold h3, set_in_solution.
        rewrite list_lookup_total_alter_ne by done.
        unfold set_parent. rewrite (alter_field in_solution) by done.
        unfold h2, append_child. by rewrite (alter_field in_solution). }
      assert (Hcd : ∀ i, i ≠ curr →
                children (h3 !!! i) = children (hn !!! i)).
      { intros i Hi. unfold h3, set_in_solution, set_parent.
        rewrite !(alter_field children) by done.
        by apply children_append_child_ne. }
      rewrite Hic3. intros i Hi. rewrite Hl3 in Hi.
      destruct (decide (i = curr)) as [->|Hne].
      { rewrite Hic3. split; [done|]. split; [by left|done]. }
      destruct (Hn i) as [Hch' Hin']; [lia|].
      rewrite Hio, Hcd by done. split; [done|].
      destruct (decide (i = c)) as [->|Hnc].
      { rewrite Hpc, Hic. split; [by right|done]. }
      rewrite Hpa by done. rewrite Hin'.
      split; intros [?|?]; try lia; by right.
  - intros p h1 r1 h1' [x ->] Hr.
    assert (Forall (λ i, i < length (ha ++ x)) (seen ++ [curr])) as Hv1.
    { eapply Forall_impl; [done|]. simpl. intros i. rewrite length_app. lia. }
    split.
    + apply dfs_spec in Hr; [|done].
      rewrite seen_puzzles_app in Hr by done. by rewrite HsP in Hr.
    + by apply (IH p (seen ++ [curr])).
Qed.

Lemma parented_tail h (ids : list nat) i :
  parented h ids → i ∈ tail ids → parent (h !!! i) ≠ None.
Proof.
  induction ids as [|a ids IH]; [by intros _ ?%elem_of_nil|].
  destruct ids as [|b ids]; [by intros _ ?%elem_of_nil|].
  simpl. intros [Hb Hr] [->|Hi]%elem_of_cons; [by rewrite Hb|].
  by apply IH.
Qed.

Lemma bfs_unmarked_body (st : bfs_state) :
  Forall (λ n, in_solution n = false) (bfs_heap st) →
  Forall (λ n, in_solution n = false) (bfs_heap (bfs_body st)).
Proof.
  intros Hu. unfold bfs_body. destruct (bfs_q st) as [|c q]; [done|].
  rewrite bfs_for_eq. simpl. apply Forall_app. split; [done|].
  by apply Forall_fmap, Forall_true.
Qed.

Lemma bfs_unmarked_while fuel : ∀ st st',
  Forall (λ n, in_solution n = false) (bfs_heap st) →
  bfs_while fuel st = Some st' →
  Forall (λ n, in_solution n = false) (bfs_heap st').
Proof.
  induction fuel as [|fuel IH]; intros st st' Hu; simpl; [done|].
  destruct (bfs_cond st).
  - apply IH. by apply bfs_unmarked_body.
  - by intros [= <-].
Qed.

Lemma bfs_unmarked_link fuel : ∀ h c r h',
  Forall (λ n, in_solution n = false) h →
  bfs_link fuel h c = Some (r, h') →
  Forall (λ n, in_solution n = false) h'.
Proof.
  induction fuel as [|fuel IH]; intros h c r h' Hu; simpl; [done|].
  destruct (parent (h !!! c)) as [pa|].
  - apply IH. unfold append_child. by apply Forall_alter.
  - by intros [= _ <-].
Qed.

(** X18.  [in_solution] is the mark of the depth-first solver only: in
    the store it leaves, the marked nodes are exactly the nodes of the
    returned chain (none when it returns [None]); the breadth-first
    solver marks no node, not even those of the chain it returns. *)
Theorem in_solution_marks fuel (puzz : P) :
  (∀ r h, depth_first_solve fuel puzz = Some (r, h) →
     ∀ i, i < length h →
       in_solution (h !!! i) = true ↔
       ∃ root ids, r = Some root ∧ chain h root ids ∧ i ∈ ids) ∧
  (∀ r h, breadth_first_solve fuel puzz = Some (r, h) →
     ∀ i, i < length h → in_solution (h !!! i) = false).
Proof.
  split.
  - intros r h Hd i Hi.
    destruct (dfs_marks fuel puzz [] [] r h (Forall_nil_2 _) Hd i) as [_ Hm];
      [simpl; lia|]. destruct r as [root|].
    + destruct (dfs_returns_chain _ _ _ _ Hd) as (ids & Hsc & Hoth).
      pose proof (sc_chain _ _ _ _ Hsc) as Hch.
      rewrite Hm. split.
      * intros Hor. exists root, ids. split; [done|]. split; [done|].
        destruct Hor as [->|Hp]; [|by apply Hoth].
        destruct Hch as (Hh & _). destruct ids; [done|].
        injection Hh as ->. set_solver.
      * intros (root' & ids' & [= <-] & Hch' & Hin).
        rewrite (chain_unique h root ids' ids Hch' Hch) in Hin.
        destruct Hch as (Hh & _). destruct ids as [|a ids]; [done|].
        injection Hh as ->.
        apply elem_of_cons in Hin as [->|Hin]; [by left|]. right.
        by apply (parented_tail h (root :: ids)); [apply (sc_parented _ _ _ _ Hsc)|].
    + rewrite Hm. split; [done|]. by intros (? & ? & ? & _).
  - intros r h Hb i Hi.
    assert (Forall (λ n, in_solution n = false) h) as Hu.
    { revert Hb. unfold breadth_first_solve, _breadth_first_solve.
      destruct (bfs_while fuel (bfs_init puzz)) as [st|] eqn:Hw; [|done].
      pose proof (bfs_unmarked_while fuel _ _
        (ltac:(by repeat constructor) :
           Forall (λ n, in_solution n = false) (bfs_heap (bfs_init puzz)))
        Hw) as Hu.
      destruct (is_solved _).
      - destruct (bfs_link _ _ _) as [[root h']|] eqn:Hl; [|done].
        intros [= <- <-]. by apply (bfs_unmarked_link _ _ _ _ _ Hu Hl).
      - by intros [= <- <-]. }
    rewrite Forall_forall in Hu. by apply Hu, list_elem_of_lookup_total_2.
Qed.

(** ** Children outside the returned chain *)

Lemma parented_parent_in h (a : nat) (rest : list nat) j i :
  parented h (a :: rest) → j ∈ rest → parent (h !!! j) = Some i →
  i ∈ a :: rest.
Proof.
  revert a. induction rest as [|b rest IH]; intros a Hp Hj Hi.
  { by apply elem_of_nil in Hj. }
  destruct Hp as [Hb Hp]. apply elem_of_cons in Hj as [->|Hj].
  - rewrite Hb in Hi. injection Hi as <-. set_solver.
  - apply elem_of_cons. right. by apply (IH b).
Qed.

Lemma above_in_chain h (ids : list nat) root j k :
  parented h ids → head ids = Some root → parent (h !!! root) = None →
  j ∈ ids → above h j k → k ∈ ids.
Proof.
  intros Hp Hh Hr Hj Ha. destruct ids as [|a rest]; [done|].
  injection Hh as ->.
  assert (∀ j i, j ∈ root :: rest → parent (h !!! j) = Some i →
                 i ∈ root :: rest) as Hstep.
  { intros j' i' [->|Hj']%elem_of_cons Hi'; [by rewrite Hr in Hi'|].
    by apply (parented_parent_in h root rest j'). }
  induction Ha as [j i Hi|j i k Hi Ha IH]; [by apply (Hstep j)|].
  apply IH. by apply (Hstep j).
Qed.

Lemma bfs_link_children h0 fuel : ∀ h c r h',
  (∀ i, parent (h !!! i) = parent (h0 !!! i)) →
  bfs_link fuel h c = Some (r, h') →
  ∀ i, children (h' !!! i) ≠ children (h !!! i) → above h0 c i.
Proof.
  induction fuel as [|fuel IH]; intros h c r h' Hpa; simpl; [done|].
  destruct (parent (h !!! c)) as [pa|] eqn:Hc; [|by intros [= _ <-] i].
  intros Hl i Hi. rewrite Hpa in Hc.
  destruct (decide (children (h' !!! i) = children (append_child h pa c !!! i)))
    as [E|Hne].
  - destruct (decide (i = pa)) as [->|Hn]; [by constructor|].
    destruct Hi. rewrite E. by apply children_append_child_ne.
  - apply (above_step h0 c pa i Hc).
    apply (IH (append_child h pa c) pa r h'); [|done..].
    intros j. by rewrite parent_append_child.
Qed.

Lemma bfs_result_link fuel puzz root h :
  breadth_first_solve fuel puzz = Some (Some root, h) →
  ∃ k ds st, bfs_inv puzz k ds st ∧
    bfs_link fuel (bfs_heap st) (pred k) = Some (root, h).
Proof.
  unfold breadth_first_solve, _breadth_first_solve.
  destruct (bfs_while fuel (bfs_init puzz)) as [st|] eqn:Hw; [|done].
  destruct (bfs_while_inv _ _ _ _ _ _ (bfs_inv_init puzz) Hw)
    as (k & ds & I & Hc).
  rewrite (inv_curr _ _ _ _ I).
  destruct (is_solved (puzzle (bfs_heap st !!! pred k))) eqn:Hs; [|done].
  destruct (bfs_link fuel (bfs_heap st) (pred k)) as [[root' h']|] eqn:Hl;
    [|done].
  intros [= <- <-]. by exists k, ds, st.
Qed.

(** X25.  In the store either solver leaves, only the nodes of the
    returned chain have children: every other node that was created stays
    without children, and when [None] is returned no node has any. *)
Theorem children_on_chain fuel (puzz : P) r h :
  depth_first_solve fuel puzz = Some (r, h) ∨
  breadth_first_solve fuel puzz = Some (r, h) →
  ∀ i, i < length h → children (h !!! i) ≠ [] →
    ∃ root ids, r = Some root ∧ chain h root ids ∧ i ∈ ids.
Proof.
  intros [Hd|Hb] i Hi Hch.
  - destruct (dfs_marks fuel puzz [] [] r h (Forall_nil_2 _) Hd i)
      as [Hun Hm]; [simpl; lia|].
    destruct (in_solution (h !!! i)) eqn:Hin; [|by destruct Hch; apply Hun].
    destruct r as [root|]; [|done].
    destruct (dfs_returns_chain _ _ _ _ Hd) as (ids & Hsc & Hoth).
    pose proof (sc_chain _ _ _ _ Hsc) as Hc.
    exists root, ids. split; [done|]. split; [done|].
    destruct (proj1 Hm eq_refl) as [->|Hp]; [|by apply Hoth].
    destruct Hc as (Hh & _). destruct ids; [done|].
    injection Hh as ->. set_solver.
  - destruct r as [root|].
    + destruct (bfs_result_link _ _ _ _ Hb) as (k & ds & st & I & Hl).
      pose proof (link_inv_start _ _ _ _ _ I (bfs_inv_curr_lt _ _ _ _ I))
        as L0.
      destruct (bfs_link_spec _ _ _ _ I _ _ _ _ _ _ L0 Hl)
        as (-> & pre & L & Hh & _).
      exists 0, (pre ++ [pred k]). split; [done|].
      split; [split_and!; [done|apply (li_linked _ _ _ L)
                          |apply (li_valid _ _ _ L)]|].
      apply (above_in_chain (bfs_heap st) _ 0 (pred k)).
      * apply (li_parented _ _ _ L).
      * done.
      * by rewrite (list_lookup_total_correct _ _ _ (inv_root _ _ _ _ I)).
      * set_solver.
      * apply (bfs_link_children (bfs_heap st) fuel (bfs_heap st) (pred k)
                 0 h); [done..|].
        rewrite (inv_children _ _ _ _ I); [done|].
        by rewrite <-(li_len _ _ _ L).
    + apply bfs_result in Hb as (k & ds & st & I & _ & -> & _).
      destruct Hch. by apply (inv_children _ _ _ _ I).
Qed.

(** X19.  Soundness of both solvers: the node they return holds the
    puzzle that was passed in, and the states of the chain below it are a
    solution of that puzzle, from the puzzle itself to a solved state. *)
Theorem returned_chain_solves fuel (puzz : P) root h :
  depth_first_solve fuel puzz = Some (Some root, h) ∨
  breadth_first_solve fuel puzz = Some (Some root, h) →
  puzzle (h !!! root) = puzz ∧
  ∃ ids, chain h root ids ∧ solved_path puzz (chain_states h ids).
Proof.
  intros Hr.
  assert (∃ ids, solution_chain puzz h root ids) as [ids Hsc].
  { destruct Hr as [Hd|Hb].
    - destruct (dfs_returns_chain _ _ _ _ Hd) as (ids & ? & _).
      by exists ids.
    - destruct (bfs_returns_chain _ _ _ _ Hb) as (ids & ? & _).
      by exists ids. }
  split; [apply (sc_start _ _ _ _ Hsc)|]. exists ids.
  split; [apply (sc_chain _ _ _ _ Hsc)|].
  by apply (solution_chain_path puzz h root).
Qed.

(** ** Comparing and printing returned chains *)

Lemma node_in_singleton (eq : nat → nat → option bool) (x item : nat) :
  node_in eq x [item] =
    if bool_decide (item = x) then Some true else eq item x.
Proof. simpl. case_bool_decide; [done|]. by destruct (eq item x) as [[]|]. Qed.

Lemma chain_tail h (a b : nat) (ids : list nat) :
  chain h a (a :: b :: ids) → chain h b (b :: ids).
Proof.
  intros (_ & [_ Hl] & Hv). apply Forall_cons in Hv as [_ Hv]. by split.
Qed.

(** X6. [PuzzleNode.__str__] of the root of a chain of nodes prints the
    states of the chain in order, from the root to the leaf, each followed
    by an empty line, when the recursion depth allows one call per
    node. *)
Theorem chain_str (str_puzzle : P → string) h (ids : list nat) root fuel :
  chain h root ids → length ids ≤ fuel →
  PuzzleNode__str__ str_puzzle fuel h root =
    Some (chain_text str_puzzle (chain_states h ids)).
Proof.
  intros (Hh & Hl & _). revert root fuel Hh Hl.
  induction ids as [|a ids IH]; intros root fuel Hh Hl Hf; [done|].
  simpl in Hh. injection Hh as ->. destruct fuel as [|n]; [simpl in Hf; lia|].
  destruct Hl as [Hc Hl]. simpl. rewrite Hc.
  destruct ids as [|b ids]; [done|]. simpl head. simpl option_list.
  cbn [mapM]. rewrite (IH b n) by (done || simpl in *; lia). done.
Qed.

(** X7. [PuzzleNode.__eq__] on the roots of two chains of nodes compares
    the chains state by state: it is true exactly when both chains hold
    the same sequence of states, whatever the node objects, their parents
    and their [in_solution] marks are. *)
Theorem chain_eq h (ids ids' : list nat) a b fuel :
  chain h a ids → chain h b ids' →
  length ids `min` length ids' ≤ fuel →
  PuzzleNode__eq__ fuel h a b =
    Some (bool_decide (chain_states h ids = chain_states h ids')).
Proof.
  revert a b ids ids'.
  induction fuel as [|n IH]; intros a b ids ids' Ha Hb Hf.
  { destruct Ha as (Ha & _), Hb as (Hb & _).
    destruct ids, ids'; simpl in *; try done; lia. }
  destruct ids as [|a0 ta]; [by destruct Ha|].
  destruct ids' as [|b0 tb]; [by destruct Hb|].
  assert (a0 = a) as -> by (destruct Ha as [[=] _]; done).
  assert (b0 = b) as -> by (destruct Hb as [[=] _]; done).
  pose proof Ha as (_ & [Hca _] & _). pose proof Hb as (_ & [Hcb _] & _).
  assert (Hcons : ∀ x l,
    chain_states h (x :: l) = puzzle (h !!! x) :: chain_states h l) by done.
  cbn [PuzzleNode__eq__]. rewrite Hca, Hcb, (Hcons a), (Hcons b).
  case_bool_decide as Hp.
  2:{ f_equal. symmetry. apply bool_decide_eq_false. by intros [= ? _]. }
  rewrite Hp.
  destruct ta as [|a1 ta], tb as [|b1 tb]; simpl head; simpl option_list.
  - simpl. f_equal. symmetry. by apply bool_decide_eq_true.
  - simpl. f_equal. symmetry. by apply bool_decide_eq_false.
  - simpl. f_equal. symmetry. by apply bool_decide_eq_false.
  - apply chain_tail in Ha, Hb.
    assert (Hab : PuzzleNode__eq__ n h a1 b1 = Some (bool_decide
      (chain_states h (a1 :: ta) = chain_states h (b1 :: tb)))).
    { apply IH; [done..|]. simpl in *. lia. }
    assert (Hba : PuzzleNode__eq__ n h b1 a1 = Some (bool_decide
      (chain_states h (b1 :: tb) = chain_states h (a1 :: ta)))).
    { apply IH; [done..|]. simpl in *. lia. }
    cbn [mapM]. rewrite !node_in_singleton.
    destruct (decide (a1 = b1)) as [->|Hne].
    + rewrite (chain_unique h b1 (b1 :: ta) (b1 :: tb) Ha Hb).
      rewrite !bool_decide_eq_true_2 by done. done.
    + rewrite (bool_decide_eq_false_2 (a1 = b1)) by done.
      rewrite (bool_decide_eq_false_2 (b1 = a1)) by done.
      rewrite Hab, Hba.
      destruct (decide (chain_states h (a1 :: ta) = chain_states h (b1 :: tb)))
        as [He|He].
      * rewrite He, !bool_decide_eq_true_2 by done. done.
      * rewrite (bool_decide_eq_false_2 _ He). simpl. f_equal. symmetry.
        apply bool_decide_eq_false. intros [= H1 H2]. apply He.
        rewrite !Hcons. congruence.
Qed.

End Facts.
End SolverFacts.

(** * The word-ladder puzzle *)

Module WordLadderFacts.
Import PuzzleTools SolverFacts Fixtures.
Import (hints) WordLadderPuzzle.

Abbreviation one_letter := WordLadderPuzzle.one_letter.
Abbreviation states := WordLadderPuzzle.states.
Abbreviation lowercase := WordLadderPuzzle.lowercase.

Lemma length_append (s1 s2 : string) :
  String.length (String.append s1 s2) = String.length s1 + String.length s2.
Proof. induction s1 as [|c s1 IH]; simpl; [done|]. by rewrite IH. Qed.

Lemma length_substring (s : string) : ∀ n m,
  n + m ≤ String.length s → String.length (String.substring n m s) = m.
Proof.
  induction s as [|c s IH]; intros [|n] [|m]; simpl; try done; try lia.
  - intros Hm. rewrite IH; [done|lia].
  - intros Hm. apply (IH n 0). lia.
  - intros Hm. apply (IH n (S m)). lia.
Qed.

Lemma length_new_word w i c :
  i < String.length w → String.length (WordLadderPuzzle.new_word w i c) = String.length w.
Proof.
  intros Hi. unfold WordLadderPuzzle.new_word.
  rewrite !length_append, !length_substring by lia. simpl. lia.
Qed.

(** Every extension keeps the length of the current word, the goal word
    and the word set. *)
Lemma extensions_inv (a b : WLP) :
  b ∈ extensions a →
  String.length (WordLadderPuzzle._from_word b) = String.length (WordLadderPuzzle._from_word a) ∧
  WordLadderPuzzle._to_word b = WordLadderPuzzle._to_word a ∧ WordLadderPuzzle._word_set b = WordLadderPuzzle._word_set a.
Proof.
  simpl. unfold WordLadderPuzzle.extensions.
  intros (i & Hb & Hi%elem_of_seq)%list_elem_of_bind.
  apply list_elem_of_bind in Hb as (c & Hb & _).
  case_decide; [|by apply elem_of_nil in Hb].
  apply list_elem_of_singleton in Hb as ->. simpl.
  split; [|done]. apply length_new_word. lia.
Qed.

Lemma level_inv (p : WLP) n s :
  s ∈ level p n →
  String.length (WordLadderPuzzle._from_word s) = String.length (WordLadderPuzzle._from_word p) ∧
  WordLadderPuzzle._to_word s = WordLadderPuzzle._to_word p.
Proof.
  revert s. induction n as [|n IH]; intros s; simpl.
  - by intros ->%list_elem_of_singleton.
  - intros (a & Hs & Ha)%list_elem_of_bind.
    destruct (IH a Ha) as [<- <-]. apply extensions_inv in Hs. tauto.
Qed.

(** A puzzle that [fail_fast] rejects has no solved state at any
    distance. *)
Lemma fail_fast_level (p s : WLP) n :
  fail_fast p = true → s ∈ level p n → is_solved s = false.
Proof.
  simpl. unfold WordLadderPuzzle.fail_fast, WordLadderPuzzle.is_solved.
  intros Hf%bool_decide_eq_true Hs.
  destruct (level_inv _ _ _ Hs) as [Hlen Hto].
  apply bool_decide_eq_false. congruence.
Qed.

Lemma fail_fast_sound_word_ladder : fail_fast_sound (P:=WLP).
Proof.
  intros p Hf sol (n & s & _ & Hs & Hsol)%solved_path_level.
  by rewrite (fail_fast_level p s n Hf Hs) in Hsol.
Qed.

Lemma solved_path_ladder : solved_path cost_save ladder.
Proof.
  split_and!; [reflexivity| |].
  - simpl. split_and!; by_computation.
  - eexists. split; reflexivity.
Qed.

Lemma dfs_cost_save_eq :
  depth_first_solve 6 cost_save = Some (Some 0, dfs_cost_save).
Proof. vm_compute. reflexivity. Qed.

Lemma bfs_cost_save_eq :
  breadth_first_solve 6 cost_save = Some (Some 0, bfs_cost_save).
Proof. vm_compute. reflexivity. Qed.

Lemma bfs_cost_cast_eq :
  breadth_first_solve 6 cost_cast = Some (Some 0, bfs_cost_cast).
Proof. vm_compute. reflexivity. Qed.

Lemma chain_dfs_cost_save : chain dfs_cost_save 0 [0; 1; 3; 4; 5].
Proof. split_and!; [reflexivity| |by_computation]. vm_compute. tauto. Qed.

Lemma chain_bfs_cost_save : chain bfs_cost_save 0 [0; 1; 2; 3; 4].
Proof. split_and!; [reflexivity| |by_computation]. vm_compute. tauto. Qed.

(** C7.  For ["cost" -> "save"] over the five words, both solvers
    return the chain cost, cast, case, cave, save. *)
Theorem cost_save_ladder fuel :
  6 ≤ fuel →
  ∃ hd hb ids_d ids_b,
    depth_first_solve fuel cost_save = Some (Some 0, hd) ∧
    chain hd 0 ids_d ∧ chain_states hd ids_d = ladder ∧
    breadth_first_solve fuel cost_save = Some (Some 0, hb) ∧
    chain hb 0 ids_b ∧ chain_states hb ids_b = ladder.
Proof.
  intros Hf.
  exists dfs_cost_save, bfs_cost_save, [0; 1; 3; 4; 5], [0; 1; 2; 3; 4].
  split_and!.
  - apply (dfs_fuel_le 6); [done|]. apply dfs_cost_save_eq.
  - apply chain_dfs_cost_save.
  - vm_compute. reflexivity.
  - apply (bfs_fuel_le 6); [done|]. apply bfs_cost_save_eq.
  - apply chain_bfs_cost_save.
  - vm_compute. reflexivity.
Qed.

Lemma cost_save_ladder_witness :
  6 ≤ 6 ∧
  ∃ hd hb ids_d ids_b,
    depth_first_solve 6 cost_save = Some (Some 0, hd) ∧
    chain hd 0 ids_d ∧ chain_states hd ids_d = ladder ∧
    breadth_first_solve 6 cost_save = Some (Some 0, hb) ∧
    chain hb 0 ids_b ∧ chain_states hb ids_b = ladder.
Proof. split; [lia|]. apply (cost_save_ladder 6). lia. Defined.

(** C9.  [fail_fast] of the word ladder is sound: when it returns
    [True], no sequence of extensions from the puzzle ends in a solved
    state. *)
Theorem fail_fast_is_sound (p : WLP)
    (sol : list WLP) :
  fail_fast p = true → ¬ solved_path p sol.
Proof.
  intros Hf (Hhead & Hpath & e & Hlast & Hsol).
  assert (e ∈ level p (length sol - 1)) as He by (by apply is_path_level).
  destruct (level_inv _ _ _ He) as [Hlen Hto].
  revert Hf Hsol. simpl.
  unfold WordLadderPuzzle.fail_fast, WordLadderPuzzle.is_solved.
  intros Hf%bool_decide_eq_true Hsol%bool_decide_eq_true. congruence.
Qed.

Lemma fail_fast_is_sound_witness :
  fail_fast sam_save = true ∧ ¬ solved_path sam_save [sam_save].
Proof.
  split; [reflexivity|]. apply (fail_fast_is_sound sam_save). reflexivity.
Defined.

(** ** The general properties at the fixtures *)

Lemma breadth_first_minimal_witness :
  solved_path cost_save ladder ∧
  ∃ n0, ∀ fuel, n0 ≤ fuel →
    ∃ root h ids,
      breadth_first_solve fuel cost_save = Some (Some root, h) ∧
      chain h root ids ∧
      solved_path cost_save (chain_states h ids) ∧
      ∀ sol', solved_path cost_save sol' →
              length ids - 1 ≤ length sol' - 1.
Proof.
  split; [exact solved_path_ladder|].
  exact (breadth_first_minimal cost_save ladder solved_path_ladder).
Defined.

Lemma returned_chain_valid_witness :
  (depth_first_solve 6 cost_save = Some (Some 0, dfs_cost_save) ∨
   breadth_first_solve 6 cost_save = Some (Some 0, dfs_cost_save)) ∧
  ((∃ ids, chain dfs_cost_save 0 ids) ∧
   ∀ ids, chain dfs_cost_save 0 ids →
     (∀ i s t, chain_states dfs_cost_save ids !! i = Some s →
               chain_states dfs_cost_save ids !! S i = Some t →
               t ∈ extensions s) ∧
     ∃ leaf, last ids = Some leaf ∧
             is_solved (puzzle (dfs_cost_save !!! leaf)) = true).
Proof.
  split; [left; exact dfs_cost_save_eq|].
  apply (returned_chain_valid 6 cost_save 0 dfs_cost_save).
  left. exact dfs_cost_save_eq.
Defined.

Lemma returned_chain_linear_witness :
  (depth_first_solve 6 cost_save = Some (Some 0, bfs_cost_save) ∨
   breadth_first_solve 6 cost_save = Some (Some 0, bfs_cost_save)) ∧
  ((∃ ids, chain bfs_cost_save 0 ids) ∧
   ∀ ids, chain bfs_cost_save 0 ids →
     NoDup ids ∧
     (∀ i, i ∈ ids → length (children (bfs_cost_save !!! i)) ≤ 1) ∧
     parent (bfs_cost_save !!! 0) = None ∧
     NoDup (chain_states bfs_cost_save ids)).
Proof.
  split; [right; exact bfs_cost_save_eq|].
  apply (returned_chain_linear 6 cost_save 0 bfs_cost_save).
  right. exact bfs_cost_save_eq.
Defined.

Lemma already_solved_witness :
  is_solved save_save = true ∧ fail_fast_sound (P:=WLP) ∧
  1 ≤ 1 ∧
  (∃ n, depth_first_solve 1 save_save = Some (Some 0, [n]) ∧
        puzzle n = save_save ∧ parent n = None ∧ children n = []) ∧
  (∃ n, breadth_first_solve 1 save_save = Some (Some 0, [n]) ∧
        puzzle n = save_save ∧ parent n = None ∧ children n = []).
Proof.
  split; [reflexivity|]. split; [exact fail_fast_sound_word_ladder|].
  split; [lia|].
  apply (already_solved save_save 1);
    [reflexivity|exact fail_fast_sound_word_ladder|lia].
Defined.

Lemma on_states_closed (a b : WLP) :
  a ∈ on_states → b ∈ extensions a → b ∈ on_states.
Proof.
  assert (extensions (on_xx "on") = [on_xx "oo"]) as E1
    by (vm_compute; reflexivity).
  assert (extensions (on_xx "oo") = [on_xx "no"; on_xx "on"]) as E2
    by (vm_compute; reflexivity).
  assert (extensions (on_xx "no") = [on_xx "oo"]) as E3
    by (vm_compute; reflexivity).
  unfold on_states. rewrite !elem_of_cons, elem_of_nil.
  intros [->|[->|[->|[]]]]; rewrite ?E1, ?E2, ?E3;
    rewrite !elem_of_cons, elem_of_nil; tauto.
Qed.

Lemma on_states_reachable (s : WLP) :
  s ∈ on_states ↔ reachable (on_xx "on") s.
Proof.
  split.
  - unfold on_states. rewrite !elem_of_cons, elem_of_nil.
    intros [->|[->|[->|[]]]];
      [exists 0|exists 1|exists 2]; by_computation.
  - intros [n Hn]. apply (level_closed (on_xx "on") on_states n s);
      [by_computation|exact on_states_closed|done].
Qed.

Lemma on_states_unsolved (s : WLP) :
  reachable (on_xx "on") s → is_solved s = false.
Proof.
  intros Hs%on_states_reachable. revert Hs.
  unfold on_states. rewrite !elem_of_cons, elem_of_nil.
  by intros [->|[->|[->|[]]]].
Qed.

Lemma no_solution_terminates_witness :
  (∀ s, s ∈ on_states ↔ reachable (on_xx "on") s) ∧
  (∀ s, reachable (on_xx "on") s → is_solved s = false) ∧
  (∃ n0, ∀ fuel, n0 ≤ fuel →
     (∃ h, depth_first_solve fuel (on_xx "on") = Some (None, h)) ∧
     (∃ h, breadth_first_solve fuel (on_xx "on") = Some (None, h))) ∧
  (∀ rec_ p (seen : list nat) (h : list PuzzleNode),
     Forall (λ x, x < length h) seen → p ∈ seen_puzzles h seen →
     dfs_body rec_ p seen h = Some (None, h ++ [PuzzleNode_init p])) ∧
  (∀ (p : WLP) (seen : list nat) (h : list PuzzleNode),
     Forall (λ x, x < length h) seen → NoDup (seen_puzzles h seen) →
     p ∉ seen_puzzles h seen →
     NoDup (seen_puzzles (h ++ [PuzzleNode_init p]) (seen ++ [length h]))).
Proof.
  split; [exact on_states_reachable|]. split; [exact on_states_unsolved|].
  exact (no_solution_terminates (on_xx "on") on_states
           on_states_reachable on_states_unsolved).
Defined.

Lemma parent_links_witness :
  depth_first_solve 6 cost_save = Some (Some 0, dfs_cost_save) ∧
  breadth_first_solve 6 cost_save = Some (Some 0, bfs_cost_save) ∧
  (∀ i, i < length dfs_cost_save → parent (dfs_cost_save !!! i) ≠ None →
        ∃ root ids, Some 0 = Some root ∧ chain dfs_cost_save root ids ∧
                    i ∈ ids) ∧
  parent (bfs_cost_save !!! 0) = None ∧
  (∀ i, 0 < i < length bfs_cost_save →
        ∃ j, parent (bfs_cost_save !!! i) = Some j ∧ j < i ∧
             puzzle (bfs_cost_save !!! i)
               ∈ extensions (puzzle (bfs_cost_save !!! j))).
Proof.
  split; [exact dfs_cost_save_eq|]. split; [exact bfs_cost_save_eq|].
  exact (parent_links 6 cost_save (Some 0) dfs_cost_save
           (Some 0) bfs_cost_save dfs_cost_save_eq bfs_cost_save_eq).
Defined.

(** ** Further properties of the solvers at the fixtures *)

Lemma dfs_on_xx_eq :
  depth_first_solve 7 (on_xx "on") = Some (None, dfs_on_xx).
Proof. vm_compute. reflexivity. Qed.

Lemma bfs_on_xx_eq :
  breadth_first_solve 7 (on_xx "on") = Some (None, bfs_on_xx).
Proof. vm_compute. reflexivity. Qed.

Lemma ladder_closed (a b : WLP) :
  a ∈ ladder → b ∈ extensions a → b ∈ ladder.
Proof.
  assert (∀ x, x ∈ ladder → extensions x ⊆ ladder) as Hsub.
  { intros x. unfold ladder. rewrite !fmap_cons, fmap_nil.
    rewrite !elem_of_cons, elem_of_nil.
    intros [->|[->|[->|[->|[->|[]]]]]]; by_computation. }
  intros Ha Hb. by apply (Hsub a).
Qed.

Lemma chain_two_chains_0 : chain two_chains 0 [0; 1].
Proof. split_and!; [reflexivity| |by_computation]. vm_compute. tauto. Qed.

Lemma chain_two_chains_2 : chain two_chains 2 [2; 3].
Proof. split_and!; [reflexivity| |by_computation]. vm_compute. tauto. Qed.

Lemma breadth_first_none_exhaustive_witness :
  breadth_first_solve 7 (on_xx "on") = Some (None, bfs_on_xx) ∧
  (∀ sol, ¬ solved_path (on_xx "on") sol) ∧
  NoDup (puzzle <$> bfs_on_xx) ∧
  (∀ s, reachable (on_xx "on") s ↔ s ∈ puzzle <$> bfs_on_xx).
Proof.
  split; [exact bfs_on_xx_eq|].
  exact (breadth_first_none_exhaustive 7 (on_xx "on") bfs_on_xx
           bfs_on_xx_eq).
Defined.

Lemma breadth_first_shortest_tree_witness :
  breadth_first_solve 6 cost_save = Some (Some 0, bfs_cost_save) ∧
  NoDup (puzzle <$> bfs_cost_save) ∧
  ∀ i, i < length bfs_cost_save →
    ∃ d, depth_of bfs_cost_save i d ∧
         puzzle (bfs_cost_save !!! i) ∈ level cost_save d ∧
         ∀ n, puzzle (bfs_cost_save !!! i) ∈ level cost_save n → d ≤ n.
Proof.
  split; [exact bfs_cost_save_eq|].
  exact (breadth_first_shortest_tree 6 cost_save (Some 0) bfs_cost_save
           bfs_cost_save_eq).
Defined.

Lemma solvers_terminate_witness :
  on_xx "on" ∈ on_states ∧
  (∀ a b, a ∈ on_states → b ∈ extensions a → b ∈ on_states) ∧
  2 * length on_states + 1 ≤ 7 ∧
  is_Some (depth_first_solve 7 (on_xx "on")) ∧
  is_Some (breadth_first_solve 7 (on_xx "on")).
Proof.
  split; [by_computation|]. split; [exact on_states_closed|].
  split; [simpl; lia|].
  apply (solvers_terminate (on_xx "on") on_states 7);
    [by_computation|exact on_states_closed|simpl; lia].
Defined.

Lemma depth_first_none_sound_witness :
  fail_fast_sound (P:=WLP) ∧
  depth_first_solve 7 (on_xx "on") = Some (None, dfs_on_xx) ∧
  ∀ sol, ¬ solved_path (on_xx "on") sol.
Proof.
  split; [exact fail_fast_sound_word_ladder|].
  split; [exact dfs_on_xx_eq|].
  exact (depth_first_none_sound 7 (on_xx "on") dfs_on_xx
           fail_fast_sound_word_ladder dfs_on_xx_eq).
Defined.

Lemma solvers_decide_witness :
  fail_fast_sound (P:=WLP) ∧ cost_save ∈ ladder ∧
  (∀ a b, a ∈ ladder → b ∈ extensions a → b ∈ ladder) ∧
  2 * length ladder + 1 ≤ 11 ∧
  ∃ rd hd rb hb,
    depth_first_solve 11 cost_save = Some (rd, hd) ∧
    breadth_first_solve 11 cost_save = Some (rb, hb) ∧
    (is_Some rd ↔ ∃ sol, solved_path cost_save sol) ∧
    (is_Some rb ↔ ∃ sol, solved_path cost_save sol).
Proof.
  split; [exact fail_fast_sound_word_ladder|]. split; [by_computation|].
  split; [exact ladder_closed|]. split; [simpl; lia|].
  apply (solvers_decide cost_save ladder 11);
    [exact fail_fast_sound_word_ladder|by_computation|exact ladder_closed
    |simpl; lia].
Defined.

Lemma chain_str_witness :
  chain bfs_cost_save 0 [0; 1; 2; 3; 4] ∧
  length [0; 1; 2; 3; 4] ≤ 5 ∧
  PuzzleNode__str__ WordLadderPuzzle.__str__ 5 bfs_cost_save 0 =
    Some (chain_text WordLadderPuzzle.__str__
            (chain_states bfs_cost_save [0; 1; 2; 3; 4])).
Proof.
  split; [exact chain_bfs_cost_save|]. split; [simpl; lia|].
  apply (chain_str WordLadderPuzzle.__str__ bfs_cost_save [0; 1; 2; 3; 4]
           0 5); [exact chain_bfs_cost_save|simpl; lia].
Defined.

Lemma chain_eq_witness :
  chain two_chains 0 [0; 1] ∧ chain two_chains 2 [2; 3] ∧
  length [0; 1] `min` length [2; 3] ≤ 2 ∧
  PuzzleNode__eq__ 2 two_chains 0 2 =
    Some (bool_decide (chain_states two_chains [0; 1]
                       = chain_states two_chains [2; 3])).
Proof.
  split; [exact chain_two_chains_0|]. split; [exact chain_two_chains_2|].
  split; [simpl; lia|].
  exact (chain_eq (H:=WordLadderPuzzle.WordLadderPuzzle_Puzzle)
           two_chains [0; 1] [2; 3] 0 2 2
           chain_two_chains_0 chain_two_chains_2 (le_n 2)).
Defined.

Lemma in_solution_marks_witness :
  depth_first_solve 6 cost_save = Some (Some 0, dfs_cost_save) ∧
  breadth_first_solve 6 cost_save = Some (Some 0, bfs_cost_save) ∧
  (in_solution (dfs_cost_save !!! 3) = true ↔
   ∃ root ids, Some 0 = Some root ∧ chain dfs_cost_save root ids ∧ 3 ∈ ids) ∧
  in_solution (bfs_cost_save !!! 3) = false.
Proof.
  split; [exact dfs_cost_save_eq|]. split; [exact bfs_cost_save_eq|]. split.
  - apply (proj1 (in_solution_marks 6 cost_save) (Some 0) dfs_cost_save
             dfs_cost_save_eq 3). by_computation.
  - apply (proj2 (in_solution_marks 6 cost_save) (Some 0) bfs_cost_save
             bfs_cost_save_eq 3). by_computation.
Defined.

Lemma children_on_chain_witness :
  (depth_first_solve 6 cost_save = Some (Some 0, dfs_cost_save) ∨
   breadth_first_solve 6 cost_save = Some (Some 0, dfs_cost_save)) ∧
  1 < length dfs_cost_save ∧ children (dfs_cost_save !!! 1) ≠ [] ∧
  ∃ root ids, Some 0 = Some root ∧ chain dfs_cost_save root ids ∧ 1 ∈ ids.
Proof.
  assert (1 < length dfs_cost_save) as Hl by by_computation.
  assert (children (dfs_cost_save !!! 1) ≠ []) as Hc by by_computation.
  split; [left; exact dfs_cost_save_eq|]. split; [exact Hl|].
  split; [exact Hc|].
  exact (children_on_chain 6 cost_save (Some 0) dfs_cost_save
           (or_introl dfs_cost_save_eq) 1 Hl Hc).
Defined.

Lemma returned_chain_solves_witness :
  (depth_first_solve 6 cost_save = Some (Some 0, dfs_cost_save) ∨
   breadth_first_solve 6 cost_save = Some (Some 0, dfs_cost_save)) ∧
  puzzle (dfs_cost_save !!! 0) = cost_save ∧
  ∃ ids, chain dfs_cost_save 0 ids ∧
         solved_path cost_save (chain_states dfs_cost_save ids).
Proof.
  split; [left; exact dfs_cost_save_eq|].
  apply (returned_chain_solves 6 cost_save 0 dfs_cost_save).
  left. exact dfs_cost_save_eq.
Defined.

(** The text printed for the chain that the breadth-first solver returns
    for ["cost" -> "save"]. *)
Example cost_save_text :
  PuzzleNode__str__ WordLadderPuzzle.__str__ 5 bfs_cost_save 0 =
    Some (String.concat nl
            ["cost -> save"; ""; "cast -> save"; ""; "case -> save"; "";
             "cave -> save"; ""; "save -> save"; ""; ""]).
Proof. vm_compute. reflexivity. Qed.

(** C6 as the specification states it fails for the breadth-first
    solver: for ["cost" -> "cast"] with the extra word ["most"], the
    node of ["most"] is not on the returned chain and has a parent. *)
Lemma parent_only_on_chain_counterexample :
  ¬ (∀ fuel (puzz : WLP) root (h : list PuzzleNode) (ids : list nat) i,
       depth_first_solve fuel puzz = Some (Some root, h) ∨
       breadth_first_solve fuel puzz = Some (Some root, h) →
       chain h root ids → i < length h → i ∉ ids →
       parent (h !!! i) = None).
Proof.
  intros Hc.
  specialize (Hc 6 cost_cast 0 bfs_cost_cast [0; 2] 1
                (or_intror bfs_cost_cast_eq)).
  assert (parent (bfs_cost_cast !!! 1) = None) as Hp.
  { apply Hc; [|by_computation|by_computation].
    split_and!; [reflexivity| |by_computation]. vm_compute. tauto. }
  vm_compute in Hp. discriminate Hp.
Qed.

(** ** What a step of a word ladder is *)

Lemma get_lt (s : string) : ∀ n,
  n < String.length s ↔ is_Some (String.get n s).
Proof.
  induction s as [|c s IH]; intros [|n]; simpl.
  - split; [lia|by intros [? ?]].
  - split; [lia|by intros [? ?]].
  - split; [by eexists|lia].
  - rewrite <-IH. lia.
Qed.

Lemma get_ge (s : string) n :
  String.length s ≤ n → String.get n s = None.
Proof.
  intros Hn. destruct (String.get n s) eqn:E; [|done].
  assert (n < String.length s); [|lia]. apply get_lt. by eexists.
Qed.

Lemma get_new_word_eq w i c :
  i < String.length w →
  String.get i (WordLadderPuzzle.new_word w i c) = Some c.
Proof.
  intros Hi. unfold WordLadderPuzzle.new_word.
  pose proof (String.append_correct2 (String.substring 0 i w)
    (String.append (String c EmptyString)
       (String.substring (i + 1) (String.length w - (i + 1)) w)) 0) as E.
  rewrite length_substring in E by lia. simpl in E. by rewrite <-E.
Qed.

Lemma get_new_word_ne w i c j :
  i < String.length w → j ≠ i →
  String.get j (WordLadderPuzzle.new_word w i c) = String.get j w.
Proof.
  intros Hi Hj. unfold WordLadderPuzzle.new_word.
  destruct (decide (j < i)) as [Hlt|Hge].
  - rewrite <-String.append_correct1 by (rewrite length_substring; lia).
    rewrite String.substring_correct1 by done. f_equal. lia.
  - pose proof (String.append_correct2 (String.substring 0 i w)
      (String.append (String c EmptyString)
         (String.substring (i + 1) (String.length w - (i + 1)) w))
      (j - i)) as E.
    rewrite length_substring in E by lia.
    replace (j - i + i) with j in E by lia. rewrite <-E.
    destruct (j - i) as [|k] eqn:Ek; [lia|]. simpl.
    change (String.append EmptyString ?x) with x.
    destruct (decide (k < String.length w - (i + 1))) as [Hk|Hk].
    + rewrite String.substring_correct1 by done. f_equal. lia.
    + rewrite String.substring_correct2 by lia. symmetry.
      apply get_ge. lia.
Qed.

Lemma one_letter_elim (p q : WLP) :
  q ∈ extensions p →
  WordLadderPuzzle._to_word q = WordLadderPuzzle._to_word p ∧
  WordLadderPuzzle._word_set q = WordLadderPuzzle._word_set p ∧
  WordLadderPuzzle._from_word q ∈ WordLadderPuzzle._word_set p ∧
  one_letter (WordLadderPuzzle._from_word p)
             (WordLadderPuzzle._from_word q).
Proof.
  simpl. unfold WordLadderPuzzle.extensions.
  intros (i & Hb & Hi%elem_of_seq)%list_elem_of_bind.
  apply list_elem_of_bind in Hb as (c & Hb & Hc).
  case_decide as Hd; [|by apply elem_of_nil in Hb].
  apply list_elem_of_singleton in Hb as ->. simpl.
  destruct Hd as [Hin Hne]. split_and!; [done..|].
  split; [apply length_new_word; lia|].
  exists i, c. split_and!; [done|apply get_new_word_eq; lia| |].
  - intros Hg. apply Hne. apply String.get_correct. intros j.
    destruct (decide (j = i)) as [->|Hj].
    + rewrite Hg. apply get_new_word_eq. lia.
    + apply get_new_word_ne; [lia|done].
  - intros j Hj. apply get_new_word_ne; [lia|done].
Qed.

Lemma one_letter_intro (p q : WLP) :
  WordLadderPuzzle._to_word q = WordLadderPuzzle._to_word p →
  WordLadderPuzzle._word_set q = WordLadderPuzzle._word_set p →
  WordLadderPuzzle._from_word q ∈ WordLadderPuzzle._word_set p →
  one_letter (WordLadderPuzzle._from_word p)
             (WordLadderPuzzle._from_word q) →
  q ∈ extensions p.
Proof.
  simpl. unfold WordLadderPuzzle.extensions.
  intros Hto Hws Hin (Hlen & i & c & Hc & Hi & Hne & Hoth).
  assert (i < String.length (WordLadderPuzzle._from_word p)) as Hlt.
  { rewrite <-Hlen. apply get_lt. by eexists. }
  assert (WordLadderPuzzle._from_word q
          = WordLadderPuzzle.new_word (WordLadderPuzzle._from_word p) i c)
    as Hq.
  { apply String.get_correct. intros j.
    destruct (decide (j = i)) as [->|Hj].
    - rewrite Hi. symmetry. by apply get_new_word_eq.
    - rewrite Hoth by done. symmetry. by apply get_new_word_ne. }
  apply list_elem_of_bind. exists i. split; [|apply elem_of_seq; lia].
  apply list_elem_of_bind. exists c. split; [|done].
  rewrite decide_True.
  - apply list_elem_of_singleton. destruct q as [w' to' ws'].
    simpl in Hto, Hws, Hq. by rewrite Hto, Hws, Hq.
  - rewrite <-Hq. split; [done|]. intros E. rewrite E in Hi. done.
Qed.

(** X8.  The extensions of a word ladder puzzle are exactly the puzzles
    with the same goal word and word set whose current word is in the
    word set and is the old one with one position changed to another,
    lowercase, letter. *)
Theorem extensions_one_letter (p q : WLP) :
  q ∈ extensions p ↔
    WordLadderPuzzle._to_word q = WordLadderPuzzle._to_word p ∧
    WordLadderPuzzle._word_set q = WordLadderPuzzle._word_set p ∧
    WordLadderPuzzle._from_word q ∈ WordLadderPuzzle._word_set p ∧
    one_letter (WordLadderPuzzle._from_word p)
               (WordLadderPuzzle._from_word q).
Proof.
  split.
  - apply one_letter_elim.
  - intros (Hto & Hws & Hin & Hone). by apply one_letter_intro.
Qed.

(** X26.  A step of a word ladder can be taken back when the word it
    leaves is in the word set and is written in lowercase letters: the
    puzzle is then an extension of each of its extensions. *)
Theorem ladder_reversible (p q : WLP) :
  WordLadderPuzzle._from_word p ∈ WordLadderPuzzle._word_set p →
  lowercase (WordLadderPuzzle._from_word p) →
  q ∈ extensions p → p ∈ extensions q.
Proof.
  intros Hin Hlow (Hto & Hws & _ & Hlen & i & c & Hc & Hi & Hne & Hoth)
    %one_letter_elim.
  assert (i < String.length (WordLadderPuzzle._from_word p)) as Hlt.
  { rewrite <-Hlen. apply get_lt. by eexists. }
  apply get_lt in Hlt as [c' Hc'].
  apply one_letter_intro; [done|done|by rewrite Hws|].
  split; [done|]. exists i, c'. split_and!.
  - by apply (Hlow i).
  - done.
  - rewrite Hi. intros [= ->]. by rewrite Hc' in Hne.
  - intros j Hj. symmetry. by apply Hoth.
Qed.

(** ** Both solvers decide every word ladder *)

Lemma states_closed (p a b : WLP) :
  a ∈ states p → b ∈ extensions a → b ∈ states p.
Proof.
  intros Ha Hb.
  assert (WordLadderPuzzle._to_word a = WordLadderPuzzle._to_word p ∧
          WordLadderPuzzle._word_set a = WordLadderPuzzle._word_set p)
    as [Hto Hws].
  { apply elem_of_cons in Ha as [->|Ha]; [done|].
    apply list_elem_of_fmap in Ha as (w & -> & _). done. }
  revert Hb. simpl. unfold WordLadderPuzzle.extensions.
  intros (i & Hb & Hi)%list_elem_of_bind.
  apply list_elem_of_bind in Hb as (c & Hb & Hc).
  case_decide as Hd; [|by apply elem_of_nil in Hb].
  apply list_elem_of_singleton in Hb as ->. destruct Hd as [Hin _].
  rewrite Hto, Hws. apply elem_of_cons. right.
  apply list_elem_of_fmap. eexists. split; [done|].
  apply elem_of_elements. by rewrite <-Hws.
Qed.

(** X9.  On every word ladder puzzle both solvers return, within a
    recursion depth and a number of iterations of twice the size of the
    word set plus three, and each returns a chain exactly when a ladder
    from the current word to the goal word exists. *)
Theorem word_ladder_decided (p : WLP) fuel :
  2 * size (WordLadderPuzzle._word_set p) + 3 ≤ fuel →
  ∃ rd hd rb hb,
    depth_first_solve fuel p = Some (rd, hd) ∧
    breadth_first_solve fuel p = Some (rb, hb) ∧
    (is_Some rd ↔ ∃ sol, solved_path p sol) ∧
    (is_Some rb ↔ ∃ sol, solved_path p sol).
Proof.
  intros Hf. apply (finite_search p (states p)).
  - exact fail_fast_sound_word_ladder.
  - apply elem_of_cons. by left.
  - apply states_closed.
  - unfold states. simpl. rewrite length_fmap.
    change (length (elements ?X)) with (size X). lia.
Qed.

(** X22.  A word ladder can only be solved when the goal word is in the
    word set, or is the current word already: otherwise no sequence of
    extensions ends in a solved state, whatever the lengths of the
    words. *)
Theorem ladder_needs_goal_word (p : WLP) (sol : list WLP) :
  solved_path p sol →
  WordLadderPuzzle._from_word p = WordLadderPuzzle._to_word p ∨
  WordLadderPuzzle._to_word p ∈ WordLadderPuzzle._word_set p.
Proof.
  intros (n & e & _ & He & Hs)%solved_path_level.
  apply bool_decide_eq_true in Hs.
  apply (level_closed p (states p)) in He;
    [|apply elem_of_cons; by left|apply states_closed].
  apply elem_of_cons in He as [->|He]; [by left|]. right.
  apply list_elem_of_fmap in He as (w & -> & Hw%elem_of_elements).
  simpl in Hs. by rewrite <-Hs.
Qed.

Lemma word_ladder_decided_witness :
  2 * size (WordLadderPuzzle._word_set cost_save) + 3 ≤ 13 ∧
  ∃ rd hd rb hb,
    depth_first_solve 13 cost_save = Some (rd, hd) ∧
    breadth_first_solve 13 cost_save = Some (rb, hb) ∧
    (is_Some rd ↔ ∃ sol, solved_path cost_save sol) ∧
    (is_Some rb ↔ ∃ sol, solved_path cost_save sol).
Proof.
  assert (2 * size (WordLadderPuzzle._word_set cost_save) + 3 ≤ 13) as Hs
    by by_computation.
  split; [exact Hs|]. exact (word_ladder_decided cost_save 13 Hs).
Defined.

Lemma ladder_needs_goal_word_witness :
  solved_path cost_save ladder ∧
  (WordLadderPuzzle._from_word cost_save = WordLadderPuzzle._to_word cost_save
   ∨ WordLadderPuzzle._to_word cost_save
       ∈ WordLadderPuzzle._word_set cost_save).
Proof.
  split; [exact solved_path_ladder|].
  exact (ladder_needs_goal_word cost_save ladder solved_path_ladder).
Defined.

Lemma lowercase_cost : lowercase "cost".
Proof.
  intros [|[|[|[|i]]]] c; simpl; try done; intros [= <-]; by_computation.
Qed.

Lemma ladder_reversible_witness :
  WordLadderPuzzle._from_word cost_save ∈ WordLadderPuzzle._word_set cost_save ∧
  lowercase (WordLadderPuzzle._from_word cost_save) ∧
  mkWLP "cast" "save" ws ∈ extensions cost_save ∧
  cost_save ∈ extensions (mkWLP "cast" "save" ws).
Proof.
  assert (WordLadderPuzzle._from_word cost_save
          ∈ WordLadderPuzzle._word_set cost_save) as Hin by by_computation.
  assert (mkWLP "cast" "save" ws ∈ extensions cost_save) as He
    by by_computation.
  split; [exact Hin|]. split; [exact lowercase_cost|]. split; [exact He|].
  exact (ladder_reversible cost_save (mkWLP "cast" "save" ws) Hin
           lowercase_cost He).
Defined.

End WordLadderFacts.

(** * The sliding-tile puzzle *)

Module MNPuzzleFacts.
Import PuzzleTools SolverFacts Fixtures.
Import (hints) MNPuzzle.

Abbreviation dims := MNPuzzle.dims.
Abbreviation adjacent := MNPuzzle.adjacent.
Abbreviation swap_grid := MNPuzzle.swap_grid.
Abbreviation reshape := MNPuzzle.reshape.
Abbreviation arrangements := MNPuzzle.arrangements.

Lemma extensions_count_2x3 (a b c d e f : string) tg (row column : nat) :
  MNPuzzle.blanks [[a; b; c]; [d; e; f]] = 1 →
  row < 2 → column < 3 →
  ([[a; b; c]; [d; e; f]] !!! row) !!! column = "*" →
  length (MNPuzzle.extensions
            (MNPuzzle.mkMNPuzzle [[a; b; c]; [d; e; f]] tg))
  = if decide (column = 1) then 3 else 2.
Proof.
  unfold MNPuzzle.blanks. simpl. rewrite !filter_cons, filter_nil.
  intros Hb Hr Hc Hcell.
  unfold MNPuzzle.extensions, MNPuzzle.n, MNPuzzle.m, MNPuzzle.cell. simpl.
  destruct row as [|[|row]]; [| |lia];
    (destruct column as [|[|[|column]]]; [| | |lia]);
    simpl in Hcell; subst;
    repeat (destruct (decide (_ = "*")); simpl in *; try lia; try done).
Qed.

(** C8.  On a 2 x 3 grid with exactly one blank, [extensions] returns 2
    states when the blank is in a corner (column 0 or 2) and 3 states when
    it is in the middle of a row. *)
Theorem extensions_2x3 (self : MNPuzzle.MNPuzzle) (row column : nat) :
  MNPuzzle.n self = 2 →
  Forall (λ r, length r = 3) (MNPuzzle.from_grid self) →
  MNPuzzle.blanks (MNPuzzle.from_grid self) = 1 →
  row < 2 → column < 3 →
  (MNPuzzle.from_grid self !!! row) !!! column = "*" →
  (column = 0 ∨ column = 2 → length (extensions self) = 2) ∧
  (column = 1 → length (extensions self) = 3).
Proof.
  destruct self as [g tg]. unfold MNPuzzle.n. simpl. intros Hn Hrows.
  destruct g as [|r1 [|r2 [|]]]; simpl in *; try lia.
  apply Forall_cons in Hrows as [H1 Hrows].
  apply Forall_cons in Hrows as [H2 _].
  destruct r1 as [|a [|b [|c [|]]]]; simpl in *; try lia.
  destruct r2 as [|d [|e [|f [|]]]]; simpl in *; try lia.
  intros Hb Hr Hc Hcell.
  rewrite (extensions_count_2x3 a b c d e f tg row column) by done.
  split; intros; case_decide; lia.
Qed.

Lemma extensions_2x3_witness :
  MNPuzzle.n mn1 = 2 ∧
  Forall (λ r, length r = 3) (MNPuzzle.from_grid mn1) ∧
  MNPuzzle.blanks (MNPuzzle.from_grid mn1) = 1 ∧
  0 < 2 ∧ 0 < 3 ∧
  (MNPuzzle.from_grid mn1 !!! 0) !!! 0 = "*" ∧
  (0 = 0 ∨ 0 = 2 → length (extensions mn1) = 2) ∧
  (0 = 1 → length (extensions mn1) = 3).
Proof.
  assert (Forall (λ r, length r = 3) (MNPuzzle.from_grid mn1)) as Hrows
    by (repeat constructor).
  split; [reflexivity|]. split; [exact Hrows|]. split; [reflexivity|].
  split; [lia|]. split; [lia|]. split; [reflexivity|].
  apply (extensions_2x3 mn1 0 0); [reflexivity|exact Hrows|reflexivity|lia|lia|reflexivity].
Defined.

(** ** Grids and single cells *)

Lemma cell_nat (g : list (list string)) (r c : nat) :
  MNPuzzle.cell g (Z.of_nat r) (Z.of_nat c) = (g !!! r) !!! c.
Proof. unfold MNPuzzle.cell. by rewrite !Nat2Z.id. Qed.

Lemma set_cell_nat (g : list (list string)) (r c : nat) v :
  MNPuzzle.set_cell g (Z.of_nat r) (Z.of_nat c) v
  = alter (λ row, <[c := v]> row) r g.
Proof. unfold MNPuzzle.set_cell. by rewrite !Nat2Z.id. Qed.

Lemma dims_alter_insert (g : list (list string)) (r c : nat) v :
  dims (alter (λ row, <[c := v]> row) r g) = dims g.
Proof.
  unfold dims. revert r. induction g as [|row g IH]; intros [|r]; simpl;
    try done.
  - by rewrite length_insert.
  - f_equal. apply IH.
Qed.

Lemma dims_length (g g' : list (list string)) :
  dims g' = dims g → length g' = length g.
Proof.
  unfold dims. intros E. apply (f_equal length) in E.
  by rewrite !length_fmap in E.
Qed.

Lemma dims_row (g g' : list (list string)) r :
  dims g' = dims g → length (g' !!! r) = length (g !!! r).
Proof.
  intros E. pose proof (dims_length _ _ E) as El.
  destruct (decide (r < length g)) as [Hr|Hr].
  - unfold dims in E.
    rewrite <-(list_lookup_total_fmap length g r) by done.
    rewrite <-(list_lookup_total_fmap length g' r) by lia. by rewrite E.
  - rewrite !list_lookup_total_alt, !lookup_ge_None_2 by lia. done.
Qed.

Lemma lookup_alter_insert (g : list (list string)) (r c a b : nat) v :
  (alter (λ row, <[c := v]> row) r g !!! a) !!! b =
    if decide ((a = r ∧ b = c) ∧ r < length g ∧ c < length (g !!! r))
    then v else (g !!! a) !!! b.
Proof.
  rewrite list_lookup_total_alter.
  destruct (decide (r = a ∧ r < length g)) as [[-> Hr]|Hn].
  - rewrite list_lookup_total_insert.
    destruct (decide (c = b ∧ c < length (g !!! a))) as [[-> Hc]|Hn].
    + by rewrite decide_True.
    + rewrite decide_False; [done|]. intros [[_ ->] [_ ?]]. by apply Hn.
  - rewrite decide_False; [done|]. intros [[-> _] [? _]]. by apply Hn.
Qed.

(** Writing [v] to a cell takes the old value out of the cells of the
    grid and puts [v] in. *)
Lemma perm_insert (row : list string) c v :
  c < length row → row !!! c :: <[c := v]> row ≡ₚ v :: row.
Proof.
  revert c. induction row as [|x row IH]; intros [|c] Hc; simpl in *;
    try lia.
  - apply Permutation_swap.
  - rewrite Permutation_swap, IH by lia. apply Permutation_swap.
Qed.

Lemma perm_alter_insert (g : list (list string)) r c v :
  r < length g → c < length (g !!! r) →
  (g !!! r) !!! c :: concat (alter (λ row, <[c := v]> row) r g)
    ≡ₚ v :: concat g.
Proof.
  revert r. induction g as [|row g IH]; intros [|r] Hr Hc; simpl in *;
    try lia.
  - rewrite app_comm_cons, perm_insert by done. done.
  - rewrite (Permutation_middle row), IH by lia.
    symmetry. apply Permutation_middle.
Qed.

Lemma grid_ext (g g' : list (list string)) :
  dims g' = dims g →
  (∀ r c, r < length g → c < length (g !!! r) →
          (g' !!! r) !!! c = (g !!! r) !!! c) →
  g' = g.
Proof.
  intros Hd Hc. pose proof (dims_length _ _ Hd) as Hl.
  apply (list_eq_same_length _ _ (length g)); [done..|].
  intros r row' row Hr Hrow' Hrow.
  assert (g' !!! r = row') as E' by (by apply list_lookup_total_correct).
  assert (g !!! r = row) as E by (by apply list_lookup_total_correct).
  pose proof (dims_row g g' r Hd) as Hlr. rewrite E, E' in Hlr.
  apply (list_eq_same_length _ _ (length row)); [done..|].
  intros c x' x Hcl Hx' Hx.
  specialize (Hc r c Hr). rewrite E, E' in Hc.
  rewrite <-(list_lookup_total_correct _ _ _ Hx'),
          <-(list_lookup_total_correct _ _ _ Hx). by apply Hc.
Qed.

(** ** What an extension is *)

Lemma swapped_nat (p : MNPuzzle.MNPuzzle) (r c r' c' : nat) :
  MNPuzzle.swapped p (Z.of_nat r) (Z.of_nat c) (Z.of_nat r') (Z.of_nat c')
  = MNPuzzle.mkMNPuzzle
      (swap_grid (MNPuzzle.from_grid p) r c r' c' "*"
         ((MNPuzzle.from_grid p !!! r') !!! c'))
      (MNPuzzle.to_grid p).
Proof.
  unfold MNPuzzle.swapped, swap_grid. by rewrite !set_cell_nat, cell_nat.
Qed.

Lemma dims_swap_grid g r c r' c' w v :
  dims (swap_grid g r c r' c' w v) = dims g.
Proof. unfold swap_grid. by rewrite !dims_alter_insert. Qed.

Lemma lookup_swap_grid g r c r' c' w v a b :
  r < length g → c < length (g !!! r) →
  r' < length g → c' < length (g !!! r') →
  (swap_grid g r c r' c' w v !!! a) !!! b =
    if decide (a = r ∧ b = c) then v
    else if decide (a = r' ∧ b = c') then w else (g !!! a) !!! b.
Proof.
  intros Hr Hc Hr' Hc'. unfold swap_grid.
  rewrite !lookup_alter_insert, length_alter.
  rewrite (dims_row g _ r (dims_alter_insert g r' c' w)).
  repeat case_decide; try done; tauto.
Qed.

Lemma perm_swap_grid g r c r' c' :
  r < length g → c < length (g !!! r) →
  r' < length g → c' < length (g !!! r') → ¬ (r = r' ∧ c = c') →
  concat (swap_grid g r c r' c' ((g !!! r) !!! c) ((g !!! r') !!! c'))
    ≡ₚ concat g.
Proof.
  intros Hr Hc Hr' Hc' Hne. unfold swap_grid.
  set (w := (g !!! r) !!! c). set (v := (g !!! r') !!! c').
  set (g1 := alter (λ row, <[c' := w]> row) r' g).
  assert (dims g1 = dims g) as Hd by apply dims_alter_insert.
  pose proof (perm_alter_insert g r' c' w Hr' Hc') as E1. fold g1 v in E1.
  pose proof (perm_alter_insert g1 r c v) as E2.
  rewrite (dims_length _ _ Hd), (dims_row _ _ r Hd) in E2.
  specialize (E2 Hr Hc).
  assert ((g1 !!! r) !!! c = w) as Ew.
  { unfold g1. rewrite lookup_alter_insert. rewrite decide_False; [done|].
    intros [[-> ->] _]. by apply Hne. }
  rewrite Ew, E1 in E2. by apply Permutation_cons_inv in E2.
Qed.

(** The assertions of [__init__] give a rectangular grid. *)
Lemma init_asserts_row (g tg : list (list string)) r :
  MNPuzzle.init_asserts g tg → r < length g →
  length (g !!! r) = length (g !!! 0).
Proof.
  intros (_ & Hrows & _) Hr. rewrite Forall_forall in Hrows.
  apply Hrows. by apply list_elem_of_lookup_total_2.
Qed.

Lemma init_asserts_dims (g g' tg : list (list string)) :
  dims g' = dims g → MNPuzzle.init_asserts g tg →
  MNPuzzle.init_asserts g' tg.
Proof.
  intros Hd (Hn & Hrows & Hto). pose proof (dims_length _ _ Hd) as Hl.
  split_and!; [lia| |done]. apply Forall_forall. intros row' Hrow'.
  apply list_elem_of_lookup in Hrow' as [i Hi].
  pose proof (lookup_lt_Some _ _ _ Hi) as Hlt.
  rewrite <-(list_lookup_total_correct _ _ _ Hi).
  rewrite !(dims_row g g' _ Hd).
  apply (init_asserts_row g tg); [by split_and!|lia].
Qed.

Lemma extensions_elim (p e : MNPuzzle.MNPuzzle) :
  e ∈ extensions p →
  ∃ r c r' c',
    r < MNPuzzle.n p ∧ c < MNPuzzle.m p ∧
    r' < MNPuzzle.n p ∧ c' < MNPuzzle.m p ∧ adjacent r c r' c' ∧
    (MNPuzzle.from_grid p !!! r) !!! c = "*" ∧
    e = MNPuzzle.swapped p (Z.of_nat r) (Z.of_nat c)
          (Z.of_nat r') (Z.of_nat c').
Proof.
  change (extensions p) with (MNPuzzle.extensions p).
  unfold MNPuzzle.extensions.
  intros (row & He & Hrow%elem_of_seqZ)%list_elem_of_bind.
  apply list_elem_of_bind in He as (column & He & Hcol%elem_of_seqZ).
  case_decide as Hcell; [|by apply elem_of_nil in He].
  exists (Z.to_nat row), (Z.to_nat column).
  rewrite !elem_of_app in He.
  destruct He as [He|[He|[He|He]]];
    (destruct (MNPuzzle.in_range _ _) eqn:Hin;
       [|by apply elem_of_nil in He]);
    apply list_elem_of_singleton in He as ->;
    apply bool_decide_eq_true in Hin; unfold adjacent.
  - exists (Z.to_nat (row - 1)), (Z.to_nat column).
    rewrite !Z2Nat.id by lia. split_and!; try done; lia.
  - exists (Z.to_nat (row + 1)), (Z.to_nat column).
    rewrite !Z2Nat.id by lia. split_and!; try done; lia.
  - exists (Z.to_nat row), (Z.to_nat (column - 1)).
    rewrite !Z2Nat.id by lia. split_and!; try done; lia.
  - exists (Z.to_nat row), (Z.to_nat (column + 1)).
    rewrite !Z2Nat.id by lia. split_and!; try done; lia.
Qed.

Lemma extensions_intro (p : MNPuzzle.MNPuzzle) (r c r' c' : nat) :
  r < MNPuzzle.n p → c < MNPuzzle.m p →
  r' < MNPuzzle.n p → c' < MNPuzzle.m p → adjacent r c r' c' →
  (MNPuzzle.from_grid p !!! r) !!! c = "*" →
  MNPuzzle.swapped p (Z.of_nat r) (Z.of_nat c) (Z.of_nat r') (Z.of_nat c')
    ∈ extensions p.
Proof.
  change (extensions p) with (MNPuzzle.extensions p).
  unfold MNPuzzle.extensions. intros Hr Hc Hr' Hc' Ha Hcell.
  apply list_elem_of_bind. exists (Z.of_nat r).
  split; [|apply elem_of_seqZ; lia].
  apply list_elem_of_bind. exists (Z.of_nat c).
  split; [|apply elem_of_seqZ; lia].
  rewrite decide_True by (by rewrite cell_nat).
  rewrite !elem_of_app. unfold MNPuzzle.in_range.
  destruct Ha as [[-> [->| ->]]|[-> [->| ->]]].
  - left. rewrite bool_decide_eq_true_2 by lia.
    apply list_elem_of_singleton. f_equal. lia.
  - right. left. rewrite bool_decide_eq_true_2 by lia.
    apply list_elem_of_singleton. f_equal. lia.
  - right. right. left. rewrite bool_decide_eq_true_2 by lia.
    apply list_elem_of_singleton. f_equal. lia.
  - right. right. right. rewrite bool_decide_eq_true_2 by lia.
    apply list_elem_of_singleton. f_equal. lia.
Qed.

(** X10.  The extensions of an MN puzzle are exactly the grids in which a
    blank has changed place with a cell next to it in its row or its
    column, inside the grid; the goal grid is kept. *)
Theorem extensions_swaps (p e : MNPuzzle.MNPuzzle) :
  e ∈ extensions p ↔
    ∃ r c r' c',
      r < MNPuzzle.n p ∧ c < MNPuzzle.m p ∧
      r' < MNPuzzle.n p ∧ c' < MNPuzzle.m p ∧ adjacent r c r' c' ∧
      (MNPuzzle.from_grid p !!! r) !!! c = "*" ∧
      e = MNPuzzle.swapped p (Z.of_nat r) (Z.of_nat c)
            (Z.of_nat r') (Z.of_nat c').
Proof.
  split.
  - apply extensions_elim.
  - intros (r & c & r' & c' & Hr & Hc & Hr' & Hc' & Ha & Hcell & ->).
    by apply extensions_intro.
Qed.

(** ** Extensions conserve the grid, and can be taken back *)

Lemma adjacent_ne r c r' c' : adjacent r c r' c' → ¬ (r = r' ∧ c = c').
Proof. unfold adjacent. lia. Qed.

Lemma adjacent_sym r c r' c' : adjacent r c r' c' → adjacent r' c' r c.
Proof. unfold adjacent. lia. Qed.

Lemma swapped_conserves (p : MNPuzzle.MNPuzzle) (r c r' c' : nat) :
  MNPuzzle.init_asserts (MNPuzzle.from_grid p) (MNPuzzle.to_grid p) →
  r < MNPuzzle.n p → c < MNPuzzle.m p →
  r' < MNPuzzle.n p → c' < MNPuzzle.m p → adjacent r c r' c' →
  (MNPuzzle.from_grid p !!! r) !!! c = "*" →
  dims (swap_grid (MNPuzzle.from_grid p) r c r' c' "*"
          ((MNPuzzle.from_grid p !!! r') !!! c'))
    = dims (MNPuzzle.from_grid p) ∧
  concat (swap_grid (MNPuzzle.from_grid p) r c r' c' "*"
            ((MNPuzzle.from_grid p !!! r') !!! c'))
    ≡ₚ concat (MNPuzzle.from_grid p).
Proof.
  intros Hw Hr Hc Hr' Hc' Ha Hcell. unfold MNPuzzle.n, MNPuzzle.m in *.
  split; [apply dims_swap_grid|].
  rewrite <-Hcell. apply perm_swap_grid; try done.
  - by rewrite (init_asserts_row _ _ r Hw).
  - by rewrite (init_asserts_row _ _ r' Hw).
  - by apply adjacent_ne.
Qed.

(** X11.  An extension of an MN puzzle that passed the assertions of
    [__init__] passes them too, has the same goal grid and the same
    shape, and holds the same symbols, each as many times as before: a
    move only changes places. *)
Theorem extensions_conserve (p e : MNPuzzle.MNPuzzle) :
  MNPuzzle.init_asserts (MNPuzzle.from_grid p) (MNPuzzle.to_grid p) →
  e ∈ extensions p →
  MNPuzzle.init_asserts (MNPuzzle.from_grid e) (MNPuzzle.to_grid e) ∧
  MNPuzzle.to_grid e = MNPuzzle.to_grid p ∧
  dims (MNPuzzle.from_grid e) = dims (MNPuzzle.from_grid p) ∧
  concat (MNPuzzle.from_grid e) ≡ₚ concat (MNPuzzle.from_grid p).
Proof.
  intros Hw (r & c & r' & c' & Hr & Hc & Hr' & Hc' & Ha & Hcell & ->)
    %extensions_elim.
  destruct (swapped_conserves p r c r' c') as [Hd Hp]; [done..|].
  rewrite swapped_nat. simpl. split_and!; [|done..].
  by apply (init_asserts_dims (MNPuzzle.from_grid p)).
Qed.

(** X12.  Every move of an MN puzzle can be taken back: a puzzle that
    passed the assertions of [__init__] is an extension of each of its
    extensions. *)
Theorem extensions_reversible (p e : MNPuzzle.MNPuzzle) :
  MNPuzzle.init_asserts (MNPuzzle.from_grid p) (MNPuzzle.to_grid p) →
  e ∈ extensions p → p ∈ extensions e.
Proof.
  intros Hw (r & c & r' & c' & Hr & Hc & Hr' & Hc' & Ha & Hcell & ->)
    %extensions_elim.
  unfold MNPuzzle.n, MNPuzzle.m in *.
  pose proof (init_asserts_row _ _ r Hw Hr) as Hlr.
  pose proof (init_asserts_row _ _ r' Hw Hr') as Hlr'.
  pose proof (adjacent_ne _ _ _ _ Ha) as Hne.
  rewrite swapped_nat. destruct p as [g tg]. simpl in *.
  set (v := (g !!! r') !!! c').
  set (g' := swap_grid g r c r' c' "*" v).
  assert (dims g' = dims g) as Hd by apply dims_swap_grid.
  assert (∀ a b, (g' !!! a) !!! b =
            if decide (a = r ∧ b = c) then v
            else if decide (a = r' ∧ b = c') then "*" else (g !!! a) !!! b)
    as Hg'.
  { intros a b. apply lookup_swap_grid; lia. }
  assert (MNPuzzle.mkMNPuzzle g tg
          = MNPuzzle.swapped (MNPuzzle.mkMNPuzzle g' tg) (Z.of_nat r')
              (Z.of_nat c') (Z.of_nat r) (Z.of_nat c)) as ->.
  { rewrite swapped_nat. simpl. f_equal. symmetry.
    apply grid_ext; [by rewrite dims_swap_grid|].
    intros a b Hab Hb. rewrite lookup_swap_grid;
      rewrite ?(dims_length _ _ Hd), ?(dims_row _ _ _ Hd); try lia.
    rewrite !Hg'. rewrite (decide_True _ _ (conj eq_refl eq_refl)).
    repeat case_decide; try done; destruct_and?; subst; try done; lia. }
  apply extensions_intro; unfold MNPuzzle.n, MNPuzzle.m; simpl;
    rewrite ?(dims_length _ _ Hd), ?(dims_row _ _ 0 Hd);
    [done..|by apply adjacent_sym|].
  rewrite Hg', decide_False, decide_True; [done..|]. intros [-> ->]. lia.
Qed.

(** ** Both solvers decide every MN puzzle *)

Lemma reshape_concat (g : list (list string)) :
  reshape (dims g) (concat g) = g.
Proof.
  induction g as [|row g IH]; simpl; [done|].
  by rewrite take_app_length, drop_app_length, IH.
Qed.

Lemma dims_reshape ds (l : list string) :
  sum_list ds ≤ length l → dims (reshape ds l) = ds.
Proof.
  revert l. induction ds as [|d ds IH]; intros l Hl; simpl in *; [done|].
  rewrite length_take, IH by (rewrite length_drop; lia). f_equal. lia.
Qed.

Lemma concat_reshape ds (l : list string) :
  length l = sum_list ds → concat (reshape ds l) = l.
Proof.
  revert l. induction ds as [|d ds IH]; intros l Hl; simpl in *.
  - by destruct l.
  - rewrite IH by (rewrite length_drop; lia). apply take_drop.
Qed.

Lemma elem_of_arrangements (p a : MNPuzzle.MNPuzzle) :
  a ∈ arrangements p ↔
    MNPuzzle.to_grid a = MNPuzzle.to_grid p ∧
    dims (MNPuzzle.from_grid a) = dims (MNPuzzle.from_grid p) ∧
    concat (MNPuzzle.from_grid a) ≡ₚ concat (MNPuzzle.from_grid p).
Proof.
  unfold arrangements. rewrite list_elem_of_fmap. split.
  - intros (l & -> & Hl%permutations_Permutation). simpl.
    assert (length l = sum_list (dims (MNPuzzle.from_grid p))) as Hlen.
    { rewrite <-Hl. apply length_concat. }
    split; [done|]. split; [apply dims_reshape; lia|].
    by rewrite concat_reshape.
  - intros (Hto & Hd & Hc). exists (concat (MNPuzzle.from_grid a)).
    split; [|by apply permutations_Permutation].
    destruct a as [g tg]. simpl in *. by rewrite <-Hd, reshape_concat, Hto.
Qed.

Lemma arrangements_closed (p a b : MNPuzzle.MNPuzzle) :
  MNPuzzle.init_asserts (MNPuzzle.from_grid p) (MNPuzzle.to_grid p) →
  a ∈ arrangements p → b ∈ extensions a → b ∈ arrangements p.
Proof.
  intros Hw (Hto & Hd & Hc)%elem_of_arrangements
    (r & c & r' & c' & Hr & Hc0 & Hr' & Hc' & Ha & Hcell & ->)
    %extensions_elim.
  assert (MNPuzzle.init_asserts (MNPuzzle.from_grid a) (MNPuzzle.to_grid a))
    as Hwa.
  { rewrite Hto. by apply (init_asserts_dims (MNPuzzle.from_grid p)). }
  destruct (swapped_conserves a r c r' c') as [Hd' Hp']; [done..|].
  apply elem_of_arrangements. rewrite swapped_nat. simpl.
  split_and!; [done|congruence|]. by rewrite Hp'.
Qed.

Lemma fail_fast_sound_mn : fail_fast_sound (P:=MNPuzzle.MNPuzzle).
Proof. intros s Hs. discriminate Hs. Qed.

(** X13.  On every MN puzzle that passed the assertions of [__init__]
    both solvers return once the recursion depth and the number of
    iterations allowed are large enough, and each returns a chain exactly
    when the goal grid can be reached. *)
Theorem mn_decided (p : MNPuzzle.MNPuzzle) :
  MNPuzzle.init_asserts (MNPuzzle.from_grid p) (MNPuzzle.to_grid p) →
  ∃ n0, ∀ fuel, n0 ≤ fuel →
    ∃ rd hd rb hb,
      depth_first_solve fuel p = Some (rd, hd) ∧
      breadth_first_solve fuel p = Some (rb, hb) ∧
      (is_Some rd ↔ ∃ sol, solved_path p sol) ∧
      (is_Some rb ↔ ∃ sol, solved_path p sol).
Proof.
  intros Hw. exists (2 * length (arrangements p) + 1). intros fuel Hf.
  apply (finite_search p (arrangements p)); [|by apply elem_of_arrangements
    | |done].
  - exact fail_fast_sound_mn.
  - intros a b. by apply arrangements_closed.
Qed.

(** X23.  An MN puzzle that passed the assertions of [__init__] can only
    be solved when its goal grid has the shape of its grid and holds the
    same symbols, each as many times. *)
Theorem solvable_same_symbols (p : MNPuzzle.MNPuzzle)
    (sol : list MNPuzzle.MNPuzzle) :
  MNPuzzle.init_asserts (MNPuzzle.from_grid p) (MNPuzzle.to_grid p) →
  solved_path p sol →
  dims (MNPuzzle.to_grid p) = dims (MNPuzzle.from_grid p) ∧
  concat (MNPuzzle.to_grid p) ≡ₚ concat (MNPuzzle.from_grid p).
Proof.
  intros Hw (n & e & _ & He & Hs)%solved_path_level.
  apply bool_decide_eq_true in Hs.
  apply (level_closed p (arrangements p)) in He.
  - apply elem_of_arrangements in He as (Hto & Hd & Hc).
    rewrite <-Hto, <-Hs. done.
  - by apply elem_of_arrangements.
  - intros a b. by apply arrangements_closed.
Qed.

(** ** The number of moves *)

Lemma lookup_total_cell (g : list (list string)) r c :
  (g !!! r) !!! c ≠ "" → r < length g ∧ c < length (g !!! r).
Proof.
  intros Hne. split.
  - destruct (decide (r < length g)); [done|]. destruct Hne.
    by rewrite (list_lookup_total_alt g), lookup_ge_None_2 by lia.
  - destruct (decide (c < length (g !!! r))); [done|]. destruct Hne.
    by rewrite list_lookup_total_alt, lookup_ge_None_2 by lia.
Qed.

Lemma blanks_cell (g : list (list string)) r c :
  (g !!! r) !!! c = "*" →
  MNPuzzle.blanks g
  = S (MNPuzzle.blanks (alter (λ row, <[c := ""]> row) r g)).
Proof.
  intros Hc. destruct (lookup_total_cell g r c) as [Hr Hlt];
    [by rewrite Hc|].
  pose proof (perm_alter_insert g r c "" Hr Hlt) as E. rewrite Hc in E.
  unfold MNPuzzle.blanks.
  pose proof (Permutation_length
    (filter_Permutation (λ x : string, x = "*") _ _ E)) as El.
  rewrite filter_cons_True, filter_cons_False in El by done.
  simpl in El. lia.
Qed.

Lemma blank_unique (g : list (list string)) r c r' c' :
  MNPuzzle.blanks g = 1 →
  (g !!! r) !!! c = "*" → (g !!! r') !!! c' = "*" → r' = r ∧ c' = c.
Proof.
  intros Hb Hc Hc'.
  destruct (decide (r' = r ∧ c' = c)) as [|Hne]; [done|].
  rewrite (blanks_cell g r c Hc) in Hb.
  rewrite (blanks_cell _ r' c') in Hb; [lia|].
  rewrite lookup_alter_insert, decide_False; [done|]. tauto.
Qed.

Lemma bind_nil {A B} (F : A → list B) (l : list A) :
  (∀ x, x ∈ l → F x = []) → l ≫= F = [].
Proof.
  induction l as [|a l IH]; intros HF; [done|].
  rewrite bind_cons, HF, IH; [done| |]; set_solver.
Qed.

Lemma length_bind_single {A B} (F : A → list B) (l : list A) x :
  NoDup l → x ∈ l → (∀ y, y ∈ l → y ≠ x → F y = []) →
  length (l ≫= F) = length (F x).
Proof.
  induction l as [|a l IH]; intros Hnd Hx HF; [by apply elem_of_nil in Hx|].
  apply NoDup_cons in Hnd as [Ha Hnd]. rewrite bind_cons, length_app.
  apply elem_of_cons in Hx as [->|Hx].
  - rewrite bind_nil; [simpl; lia|]. intros y Hy. apply HF; set_solver.
  - assert (a ≠ x) as Hne by (by intros ->).
    rewrite (HF a), IH; [done..| | |done]; set_solver.
Qed.

(** X21.  In a grid with a single blank the number of extensions is the
    number of cells next to the blank inside the grid: one for each of
    the cells above, below, left and right of it that exists. *)
Theorem extensions_count (p : MNPuzzle.MNPuzzle) (r c : nat) :
  MNPuzzle.blanks (MNPuzzle.from_grid p) = 1 →
  (MNPuzzle.from_grid p !!! r) !!! c = "*" → c < MNPuzzle.m p →
  length (extensions p) =
    (if decide (0 < r) then 1 else 0) +
    (if decide (r + 1 < MNPuzzle.n p) then 1 else 0) +
    (if decide (0 < c) then 1 else 0) +
    (if decide (c + 1 < MNPuzzle.m p) then 1 else 0).
Proof.
  intros Hb Hcell Hc.
  destruct (lookup_total_cell (MNPuzzle.from_grid p) r c) as [Hr _];
    [by rewrite Hcell|].
  change (extensions p) with (MNPuzzle.extensions p).
  unfold MNPuzzle.extensions.
  rewrite (length_bind_single _ _ (Z.of_nat r));
    [|apply NoDup_seqZ|apply elem_of_seqZ; unfold MNPuzzle.n; lia|].
  - rewrite (length_bind_single _ _ (Z.of_nat c));
      [|apply NoDup_seqZ|apply elem_of_seqZ; lia|].
    + rewrite decide_True by (by rewrite cell_nat).
      rewrite !length_app. unfold MNPuzzle.in_range.
      unfold MNPuzzle.n in *.
      repeat case_bool_decide; repeat case_decide; simpl; lia.
    + intros column Hcol%elem_of_seqZ Hne. case_decide as Hcell'; [|done].
      unfold MNPuzzle.cell in Hcell'. rewrite Nat2Z.id in Hcell'.
      destruct (blank_unique _ r c r (Z.to_nat column) Hb Hcell Hcell'). lia.
  - intros row Hrow%elem_of_seqZ Hne. apply bind_nil.
    intros column Hcol%elem_of_seqZ. case_decide as Hcell'; [|done].
    unfold MNPuzzle.cell in Hcell'.
    destruct (blank_unique _ r c _ _ Hb Hcell Hcell'). lia.
Qed.

(** ** The properties at the fixture of the doctests *)

Lemma init_asserts_mn1 :
  MNPuzzle.init_asserts (MNPuzzle.from_grid mn1) (MNPuzzle.to_grid mn1).
Proof. split_and!; [simpl; lia|by repeat constructor..]. Qed.

Lemma mn2_extension : mn2 ∈ extensions mn1.
Proof. by_computation. Qed.

Lemma extensions_conserve_witness :
  MNPuzzle.init_asserts (MNPuzzle.from_grid mn1) (MNPuzzle.to_grid mn1) ∧
  mn2 ∈ extensions mn1 ∧
  MNPuzzle.init_asserts (MNPuzzle.from_grid mn2) (MNPuzzle.to_grid mn2) ∧
  MNPuzzle.to_grid mn2 = MNPuzzle.to_grid mn1 ∧
  dims (MNPuzzle.from_grid mn2) = dims (MNPuzzle.from_grid mn1) ∧
  concat (MNPuzzle.from_grid mn2) ≡ₚ concat (MNPuzzle.from_grid mn1).
Proof.
  split; [exact init_asserts_mn1|]. split; [exact mn2_extension|].
  exact (extensions_conserve mn1 mn2 init_asserts_mn1 mn2_extension).
Defined.

Lemma extensions_reversible_witness :
  MNPuzzle.init_asserts (MNPuzzle.from_grid mn1) (MNPuzzle.to_grid mn1) ∧
  mn2 ∈ extensions mn1 ∧ mn1 ∈ extensions mn2.
Proof.
  split; [exact init_asserts_mn1|]. split; [exact mn2_extension|].
  exact (extensions_reversible mn1 mn2 init_asserts_mn1 mn2_extension).
Defined.

Lemma extensions_count_witness :
  MNPuzzle.blanks (MNPuzzle.from_grid mn2) = 1 ∧
  (MNPuzzle.from_grid mn2 !!! 0) !!! 1 = "*" ∧ 1 < MNPuzzle.m mn2 ∧
  length (extensions mn2) =
    (if decide (0 < 0) then 1 else 0) +
    (if decide (0 + 1 < MNPuzzle.n mn2) then 1 else 0) +
    (if decide (0 < 1) then 1 else 0) +
    (if decide (1 + 1 < MNPuzzle.m mn2) then 1 else 0).
Proof.
  assert (1 < MNPuzzle.m mn2) as Hm by (vm_compute; lia).
  split; [reflexivity|]. split; [reflexivity|]. split; [exact Hm|].
  exact (extensions_count mn2 0 1 eq_refl eq_refl Hm).
Defined.

Lemma mn_decided_witness :
  MNPuzzle.init_asserts (MNPuzzle.from_grid mn1) (MNPuzzle.to_grid mn1) ∧
  ∃ n0, ∀ fuel, n0 ≤ fuel →
    ∃ rd hd rb hb,
      depth_first_solve fuel mn1 = Some (rd, hd) ∧
      breadth_first_solve fuel mn1 = Some (rb, hb) ∧
      (is_Some rd ↔ ∃ sol, solved_path mn1 sol) ∧
      (is_Some rb ↔ ∃ sol, solved_path mn1 sol).
Proof.
  split; [exact init_asserts_mn1|]. exact (mn_decided mn1 init_asserts_mn1).
Defined.

Lemma init_asserts_mn_near :
  MNPuzzle.init_asserts (MNPuzzle.from_grid mn_near)
    (MNPuzzle.to_grid mn_near).
Proof. split_and!; [simpl; lia|by repeat constructor..]. Qed.

Lemma solved_path_mn_near : solved_path mn_near [mn_near; mn_done].
Proof.
  split_and!; [reflexivity| |].
  - simpl. split; [by_computation|done].
  - exists mn_done. split; reflexivity.
Qed.

Lemma solvable_same_symbols_witness :
  MNPuzzle.init_asserts (MNPuzzle.from_grid mn_near)
    (MNPuzzle.to_grid mn_near) ∧
  solved_path mn_near [mn_near; mn_done] ∧
  dims (MNPuzzle.to_grid mn_near) = dims (MNPuzzle.from_grid mn_near) ∧
  concat (MNPuzzle.to_grid mn_near) ≡ₚ concat (MNPuzzle.from_grid mn_near).
Proof.
  split; [exact init_asserts_mn_near|]. split; [exact solved_path_mn_near|].
  exact (solvable_same_symbols mn_near [mn_near; mn_done]
           init_asserts_mn_near solved_path_mn_near).
Defined.

End MNPuzzleFacts.

(** * Peg solitaire *)

Module GridPegFacts.
Import PuzzleTools SolverFacts Fixtures.
Import (hints) GridPegSolitairePuzzle.

Abbreviation count := GridPegSolitairePuzzle.count.
Abbreviation dims := GridPegSolitairePuzzle.dims.
Abbreviation is_marker := GridPegSolitairePuzzle.is_marker.
Abbreviation jumped := GridPegSolitairePuzzle.jumped.
Abbreviation _marker := GridPegSolitairePuzzle._marker.
Abbreviation _marker_set := GridPegSolitairePuzzle._marker_set.
Abbreviation pegs := GridPegSolitairePuzzle.pegs.
Abbreviation cell := GridPegSolitairePuzzle.cell.
Abbreviation set_cell := GridPegSolitairePuzzle.set_cell.
Abbreviation init_asserts := GridPegSolitairePuzzle.init_asserts.
Abbreviation in_line := GridPegSolitairePuzzle.in_line.
Abbreviation jump_of := GridPegSolitairePuzzle.jump_of.
Abbreviation rows_text := GridPegSolitairePuzzle.rows_text.

Lemma pegs_eq (g : list (list string)) : pegs g = sum_list (count <$> g).
Proof. done. Qed.

Lemma count_app (a b : list string) : count (a ++ b) = count a + count b.
Proof. unfold count. by rewrite filter_app, length_app. Qed.

Lemma lookup_total_lt (l : list string) i :
  l !!! i ≠ "" → i < length l.
Proof.
  intros Hne. destruct (decide (i < length l)); [done|].
  destruct Hne. rewrite list_lookup_total_alt, lookup_ge_None_2; [done|lia].
Qed.

Lemma take_drop_3 (l : list string) i :
  i + 3 ≤ length l →
  l = take i l ++ [l !!! i; l !!! (i + 1); l !!! (i + 2)] ++ drop (i + 3) l.
Proof.
  revert i. induction l as [|x l IH]; intros i Hi; simpl in Hi; [lia|].
  destruct i as [|i].
  - destruct l as [|y [|z l]]; simpl in *; try lia. done.
  - simpl. f_equal. apply IH. lia.
Qed.

(** Writing three cells in a row, as the horizontal jumps do. *)
Lemma splice_3 (l : list string) i a b c :
  i + 3 ≤ length l →
  length (take i l ++ [a; b; c] ++ drop (i + 3) l) = length l ∧
  count (take i l ++ [a; b; c] ++ drop (i + 3) l)
    + count [l !!! i; l !!! (i + 1); l !!! (i + 2)]
  = count l + count [a; b; c] ∧
  (Forall is_marker l → is_marker a → is_marker b → is_marker c →
   Forall is_marker (take i l ++ [a; b; c] ++ drop (i + 3) l)).
Proof.
  intros Hi. split_and!.
  - rewrite !length_app, length_take, length_drop. simpl. lia.
  - pose proof (f_equal count (take_drop_3 l i Hi)) as E.
    rewrite !count_app in E. rewrite !count_app. lia.
  - intros Hl Ha Hb Hc. rewrite !Forall_app. split_and!.
    + by apply Forall_take.
    + by rewrite !Forall_cons, Forall_nil.
    + by apply Forall_drop.
Qed.

Lemma sum_list_insert {A} `{Inhabited A} (f : A → nat) (l : list A) r x :
  r < length l →
  sum_list (f <$> <[r := x]> l) + f (l !!! r) = sum_list (f <$> l) + f x.
Proof.
  revert r. induction l as [|y l IH]; intros r Hr; simpl in *; [lia|].
  destruct r as [|r]; simpl; [lia|]. specialize (IH r ltac:(lia)).
  unfold fmap in *. lia.
Qed.

Lemma pegs_insert (g : list (list string)) r row :
  r < length g →
  pegs (<[r := row]> g) + count (g !!! r) = pegs g + count row.
Proof. intros Hr. rewrite !pegs_eq. by apply sum_list_insert. Qed.

Lemma dims_insert (g : list (list string)) r row :
  r < length g → length row = length (g !!! r) →
  dims (<[r := row]> g) = dims g.
Proof.
  unfold dims. intros Hr Hlen. rewrite list_fmap_insert, Hlen.
  apply list_insert_id. rewrite list_lookup_fmap.
  destruct (lookup_lt_is_Some_2 g r Hr) as [x Hx].
  by rewrite (list_lookup_total_correct _ _ _ Hx), Hx.
Qed.

Lemma Forall_marker_insert (g : list (list string)) r row :
  Forall (Forall is_marker) g → Forall is_marker row →
  Forall (Forall is_marker) (<[r := row]> g).
Proof. intros. by apply Forall_insert. Qed.

Lemma Forall_marker_lookup (g : list (list string)) r :
  Forall (Forall is_marker) g → Forall is_marker (g !!! r).
Proof.
  intros Hg. destruct (decide (r < length g)).
  - rewrite Forall_forall in Hg. by apply Hg, list_elem_of_lookup_total_2.
  - rewrite list_lookup_total_alt, lookup_ge_None_2 by lia. constructor.
Qed.

Lemma count_insert (l : list string) c v :
  c < length l →
  count (<[c := v]> l) + count [l !!! c] = count l + count [v].
Proof.
  unfold count. revert c. induction l as [|x l IH]; intros c Hc; simpl in *; [lia|].
  destruct c as [|c]; simpl.
  - rewrite !filter_cons, !filter_nil.
    repeat case_decide; simpl; lia.
  - specialize (IH c). rewrite !filter_cons, !filter_nil in *.
    repeat case_decide; simpl in *; lia.
Qed.

Lemma set_cell_insert (g : list (list string)) (r c : nat) v :
  r < length g →
  set_cell g (Z.of_nat r) (Z.of_nat c) v = <[r := <[c := v]> (g !!! r)]> g.
Proof.
  intros Hr. unfold GridPegSolitairePuzzle.set_cell. rewrite !Nat2Z.id.
  revert r Hr. induction g as [|x g IH]; intros r Hr; simpl in *; [lia|].
  destruct r as [|r]; simpl; [done|]. f_equal. apply IH. lia.
Qed.

(** Writing one cell, as the vertical jumps do. *)
Lemma set_cell_spec (g : list (list string)) (r c : nat) v :
  r < length g → c < length (g !!! r) →
  dims (set_cell g (Z.of_nat r) (Z.of_nat c) v) = dims g ∧
  pegs (set_cell g (Z.of_nat r) (Z.of_nat c) v) + count [(g !!! r) !!! c]
    = pegs g + count [v] ∧
  (∀ r', r' ≠ r →
     set_cell g (Z.of_nat r) (Z.of_nat c) v !!! r' = g !!! r') ∧
  (Forall (Forall is_marker) g → is_marker v →
   Forall (Forall is_marker) (set_cell g (Z.of_nat r) (Z.of_nat c) v)).
Proof.
  intros Hr Hc. rewrite set_cell_insert by done. split_and!.
  - apply dims_insert; [done|]. by rewrite length_insert.
  - pose proof (pegs_insert g r (<[c := v]> (g !!! r)) Hr).
    pose proof (count_insert (g !!! r) c v Hc). lia.
  - intros r' Hne. by rewrite list_lookup_total_insert_ne.
  - intros Hg Hv. apply Forall_marker_insert; [done|].
    apply Forall_insert; [|done]. by apply Forall_marker_lookup.
Qed.

Lemma horizontal_jump (g : list (list string)) r i a b c :
  Forall (Forall is_marker) g →
  r < length g → i + 3 ≤ length (g !!! r) →
  count [(g !!! r) !!! i; (g !!! r) !!! (i + 1); (g !!! r) !!! (i + 2)] = 2 →
  count [a; b; c] = 1 → is_marker a → is_marker b → is_marker c →
  jumped g
    (<[r := take i (g !!! r) ++ [a; b; c] ++ drop (i + 3) (g !!! r)]> g).
Proof.
  intros Hg Hr Hi Hold Hnew Ha Hb Hc.
  destruct (splice_3 (g !!! r) i a b c Hi) as (Hlen & Hcount & Hm).
  split_and!.
  - by apply dims_insert.
  - pose proof (pegs_insert g r
      (take i (g !!! r) ++ [a; b; c] ++ drop (i + 3) (g !!! r)) Hr). lia.
  - apply Forall_marker_insert; [done|].
    apply Hm; [by apply Forall_marker_lookup|done..].
Qed.

Lemma vertical_jump (g : list (list string)) (r0 r1 r2 c : nat) :
  Forall (Forall is_marker) g →
  r0 < length g → r1 < length g → r2 < length g →
  r0 ≠ r1 → r0 ≠ r2 → r1 ≠ r2 →
  (g !!! r0) !!! c = "." → (g !!! r1) !!! c = "*" →
  (g !!! r2) !!! c = "*" →
  jumped g
    (set_cell
       (set_cell (set_cell g (Z.of_nat r0) (Z.of_nat c) "*")
          (Z.of_nat r1) (Z.of_nat c) ".")
       (Z.of_nat r2) (Z.of_nat c) ".").
Proof.
  intros Hg H0 H1 H2 H01 H02 H12 C0 C1 C2.
  assert (c < length (g !!! r0)) by (apply lookup_total_lt; by rewrite C0).
  assert (c < length (g !!! r1)) by (apply lookup_total_lt; by rewrite C1).
  assert (c < length (g !!! r2)) by (apply lookup_total_lt; by rewrite C2).
  destruct (set_cell_spec g r0 c "*") as (D1 & P1 & O1 & M1); [done..|].
  set (g1 := set_cell g (Z.of_nat r0) (Z.of_nat c) "*") in *.
  assert (L1 : length g1 = length g).
  { rewrite <-(length_fmap length g1), <-(length_fmap length g).
    by f_equal. }
  destruct (set_cell_spec g1 r1 c ".") as (D2 & P2 & O2 & M2);
    [lia|by rewrite O1|].
  set (g2 := set_cell g1 (Z.of_nat r1) (Z.of_nat c) ".") in *.
  assert (L2 : length g2 = length g1).
  { rewrite <-(length_fmap length g2), <-(length_fmap length g1).
    by f_equal. }
  destruct (set_cell_spec g2 r2 c ".") as (D3 & P3 & O3 & M3);
    [lia|by rewrite O2, O1|].
  rewrite O1, C1 in P2 by done. rewrite O2, O1, C2 in P3 by done.
  rewrite C0 in P1.
  assert (count ["*"] = 1) as E1 by done.
  assert (count ["."] = 0) as E0 by done.
  rewrite ?E1, ?E0 in *.
  split_and!.
  - by rewrite D3, D2.
  - lia.
  - apply M3; [|unfold is_marker; tauto].
    apply M2; [|unfold is_marker; tauto].
    apply M1; [done|unfold is_marker; tauto].
Qed.

Lemma jumps_spec (self : GPSP) (row column : nat) (q : GPSP) :
  Forall (Forall is_marker) (_marker self) →
  row < length (_marker self) →
  column < length (_marker self !!! row) →
  (_marker self !!! row) !!! column = "*" →
  q ∈ GridPegSolitairePuzzle.jumps self (Z.of_nat row) (Z.of_nat column) →
  jumped (_marker self) (_marker q) ∧ _marker_set q = {["*"; "."; "#"]}.
Proof.
  intros Hg Hrow Hcol Hcell Hq.
  assert (count ["."; "*"; "*"] = 2) as E2 by done.
  assert (count ["*"; "*"; "."] = 2) as E2' by done.
  assert (count ["*"; "."; "."] = 1) as E1 by done.
  assert (count ["."; "."; "*"] = 1) as E1' by done.
  assert (is_marker "*") as M1 by (unfold is_marker; tauto).
  assert (is_marker ".") as M2 by (unfold is_marker; tauto).
  set (g := _marker self) in *.
  unfold GridPegSolitairePuzzle.jumps, GridPegSolitairePuzzle.in_range,
    GridPegSolitairePuzzle.cell in Hq.
  fold g in Hq. rewrite !Nat2Z.id in Hq.
  rewrite !elem_of_app in Hq. destruct Hq as [Hq|[Hq|[Hq|Hq]]];
    match type of Hq with
    | _ ∈ (if ?b then _ else _) =>
        destruct b eqn:E; [|by apply elem_of_nil in Hq]
    end;
    apply list_elem_of_singleton in Hq as ->; simpl; (split; [|done]);
    apply andb_prop in E as [E E3]; apply andb_prop in E as [E1'' E2''];
    apply bool_decide_eq_true in E1'', E2'', E3.
  - replace (Z.to_nat (Z.of_nat column - 2)) with (column - 2) in * by lia.
    replace (Z.to_nat (Z.of_nat column - 1)) with (column - 2 + 1) in *
      by lia.
    replace (Z.to_nat (Z.of_nat column + 1)) with (column - 2 + 3) in *
      by lia.
    replace column with (column - 2 + 2) in Hcell by lia.
    apply horizontal_jump; try done; [lia|].
    by rewrite E2'', E3, Hcell.
  - replace (Z.to_nat (Z.of_nat column + 2)) with (column + 2) in * by lia.
    replace (Z.to_nat (Z.of_nat column + 1)) with (column + 1) in * by lia.
    replace (Z.to_nat (Z.of_nat column + 3)) with (column + 3) in * by lia.
    apply horizontal_jump; try done; [lia|].
    by rewrite E2'', E3, Hcell.
  - replace (Z.to_nat (Z.of_nat row - 2)) with (row - 2) in * by lia.
    replace (Z.to_nat (Z.of_nat row - 1)) with (row - 1) in * by lia.
    replace (Z.of_nat row - 2)%Z with (Z.of_nat (row - 2)) by lia.
    replace (Z.of_nat row - 1)%Z with (Z.of_nat (row - 1)) by lia.
    apply vertical_jump; try done; lia.
  - replace (Z.to_nat (Z.of_nat row + 2)) with (row + 2) in * by lia.
    replace (Z.to_nat (Z.of_nat row + 1)) with (row + 1) in * by lia.
    replace (Z.of_nat row + 2)%Z with (Z.of_nat (row + 2)) by lia.
    replace (Z.of_nat row + 1)%Z with (Z.of_nat (row + 1)) by lia.
    apply vertical_jump; try done; lia.
Qed.

Lemma is_marker_elem (x : string) :
  is_marker x ↔ x ∈ ({["*"; "."; "#"]} : gset string).
Proof. unfold is_marker. set_solver. Qed.

Lemma init_asserts_markers (g : list (list string)) (ms : gset string) :
  init_asserts g ms → Forall (Forall is_marker) g.
Proof.
  intros (_ & _ & Hc & Hms). eapply Forall_impl; [exact Hc|].
  intros row Hrow. eapply Forall_impl; [exact Hrow|].
  intros x Hx. by apply Hms.
Qed.

Lemma jumped_init_asserts (g g' : list (list string)) (ms : gset string) :
  init_asserts g ms → jumped g g' → init_asserts g' {["*"; "."; "#"]}.
Proof.
  intros (Hlen & Hrect & _ & _) (Hd & _ & Hm).
  assert (Hlen' : length g' = length g).
  { rewrite <-(length_fmap length g'), <-(length_fmap length g).
    by f_equal. }
  split_and!.
  - lia.
  - assert (∀ k : list (list string), 0 < length k →
      Forall (λ x, length x = length (k !!! 0)) (drop 1 k) ↔
      Forall (λ n, n = dims k !!! 0) (drop 1 (dims k))) as Hiff.
    { intros k Hk. unfold dims. rewrite <-fmap_drop, Forall_fmap.
      by rewrite lookup_total_fmap_lt by done. }
    apply Hiff; [lia|]. rewrite Hd. by apply Hiff.
  - eapply Forall_impl; [exact Hm|]. intros row Hrow.
    eapply Forall_impl; [exact Hrow|]. intros x. apply is_marker_elem.
  - intros x Hx. by apply is_marker_elem.
Qed.

Lemma extensions_spec (self q : GPSP) :
  init_asserts (_marker self) (_marker_set self) →
  q ∈ extensions self →
  jumped (_marker self) (_marker q) ∧
  init_asserts (_marker q) (_marker_set q).
Proof.
  intros Hinit Hq. simpl in Hq.
  unfold GridPegSolitairePuzzle.extensions in Hq.
  apply list_elem_of_bind in Hq as (row & Hq & Hrow%elem_of_seqZ).
  apply list_elem_of_bind in Hq as (column & Hq & Hcol%elem_of_seqZ).
  case_decide as Hcell; [|by apply elem_of_nil in Hq].
  unfold GridPegSolitairePuzzle.cell in Hcell.
  assert (row = Z.of_nat (Z.to_nat row)) as Hr by lia.
  assert (column = Z.of_nat (Z.to_nat column)) as Hc by lia.
  rewrite Hr, Hc in Hq.
  apply jumps_spec in Hq as [Hj Hms];
    [|by apply (init_asserts_markers _ (_marker_set self))|lia|lia|done].
  split; [done|]. rewrite Hms.
  by apply (jumped_init_asserts (_marker self) _ (_marker_set self)).
Qed.

Lemma level_pegs (self s : GPSP) n :
  init_asserts (_marker self) (_marker_set self) →
  s ∈ level self n →
  init_asserts (_marker s) (_marker_set s) ∧
  dims (_marker s) = dims (_marker self) ∧
  pegs (_marker s) + n = pegs (_marker self).
Proof.
  intros Hinit. revert s. induction n as [|n IH]; intros s; simpl.
  - intros ->%list_elem_of_singleton. split_and!; [done|done|lia].
  - intros (a & Hs & Ha)%list_elem_of_bind.
    destruct (IH a Ha) as (Hia & Hda & Hpa).
    destruct (extensions_spec a s Hia Hs) as ((Hd & Hp & _) & His).
    split_and!; [done|congruence|lia].
Qed.

(** C10.  An extension of a peg-solitaire grid has the shape of the grid
    and one peg fewer; so after [i] extensions [i] pegs are gone, and the
    states reachable from a grid are finitely many. *)
Theorem jump_removes_one_peg (self : GPSP) :
  init_asserts (_marker self) (_marker_set self) →
  (∀ q, q ∈ extensions self →
        dims (_marker q) = dims (_marker self) ∧
        pegs (_marker q) + 1 = pegs (_marker self)) ∧
  (∀ (l : list GPSP) i s,
     head l = Some self → is_path l → l !! i = Some s →
     pegs (_marker s) + i = pegs (_marker self)) ∧
  (∃ L : list GPSP, ∀ s, reachable self s → s ∈ L).
Proof.
  intros Hinit. split_and!.
  - intros q Hq. destruct (extensions_spec self q Hinit Hq) as [(? & ? & _) _].
    done.
  - intros l i s Hh Hp Hi.
    apply (level_pegs self s i Hinit), (path_lookup_level self l); done.
  - exists (within self (pegs (_marker self))). intros s [n Hn].
    apply elem_of_within. exists n. split; [|done].
    destruct (level_pegs self s n Hinit Hn) as (_ & _ & ?). lia.
Qed.

Lemma init_asserts_gpsp1 : init_asserts (_marker gpsp1) (_marker_set gpsp1).
Proof.
  split_and!.
  - simpl. lia.
  - simpl. by rewrite !Forall_cons, Forall_nil.
  - unfold gpsp1, grid1. simpl.
    rewrite !Forall_cons, !Forall_nil. set_solver.
  - intros x. simpl. set_solver.
Qed.

Lemma jump_removes_one_peg_witness :
  init_asserts (_marker gpsp1) (_marker_set gpsp1) ∧
  (∀ q, q ∈ extensions gpsp1 →
        dims (_marker q) = dims (_marker gpsp1) ∧
        pegs (_marker q) + 1 = pegs (_marker gpsp1)) ∧
  (∀ (l : list GPSP) i s,
     head l = Some gpsp1 → is_path l → l !! i = Some s →
     pegs (_marker s) + i = pegs (_marker gpsp1)) ∧
  (∃ L : list GPSP, ∀ s, reachable gpsp1 s → s ∈ L).
Proof.
  split; [exact init_asserts_gpsp1|].
  exact (jump_removes_one_peg gpsp1 init_asserts_gpsp1).
Defined.

(** ** A jump needs two pegs *)

Lemma lookup_total_row (g : list (list string)) r c :
  (g !!! r) !!! c ≠ "" → r < length g ∧ c < length (g !!! r).
Proof.
  intros Hne. split; [|by apply lookup_total_lt].
  destruct (decide (r < length g)); [done|]. destruct Hne.
  by rewrite (list_lookup_total_alt g), lookup_ge_None_2 by lia.
Qed.

Lemma one_peg (g : list (list string)) r c :
  (g !!! r) !!! c = "*" → 1 ≤ pegs g.
Proof.
  intros Hc. destruct (lookup_total_row g r c) as [Hr Hlt];
    [by rewrite Hc|].
  destruct (set_cell_spec g r c "." Hr Hlt) as (_ & Hp & _).
  rewrite Hc in Hp. change (count ["*"]) with 1 in Hp.
  change (count ["."]) with 0 in Hp. lia.
Qed.

Lemma two_pegs (g : list (list string)) r c r' c' :
  (g !!! r) !!! c = "*" → (g !!! r') !!! c' = "*" →
  ¬ (r = r' ∧ c = c') → 2 ≤ pegs g.
Proof.
  intros Hc Hc' Hne.
  destruct (lookup_total_row g r c) as [Hr Hlt]; [by rewrite Hc|].
  destruct (set_cell_spec g r c "." Hr Hlt) as (_ & Hp & Ho & _).
  rewrite Hc in Hp. change (count ["*"]) with 1 in Hp.
  change (count ["."]) with 0 in Hp.
  assert (1 ≤ pegs (set_cell g (Z.of_nat r) (Z.of_nat c) ".")); [|lia].
  apply (one_peg _ r' c'). destruct (decide (r' = r)) as [->|Hr'].
  - rewrite set_cell_insert, list_lookup_total_insert_eq by done.
    rewrite list_lookup_total_insert_ne; [done|]. intros ->. by apply Hne.
  - by rewrite Ho.
Qed.

(** X14.  A jump needs two pegs: a grid with an extension holds at least
    two pegs, so a solved grid, with its single peg, has no extensions. *)
Theorem solved_is_final (self : GPSP) :
  (∀ q, q ∈ extensions self → 2 ≤ pegs (_marker self)) ∧
  (is_solved self = true → extensions self = []).
Proof.
  assert (∀ q, q ∈ extensions self → 2 ≤ pegs (_marker self)) as Htwo.
  { intros q Hq. simpl in Hq.
    unfold GridPegSolitairePuzzle.extensions in Hq.
    apply list_elem_of_bind in Hq as (row & Hq & Hrow%elem_of_seqZ).
    apply list_elem_of_bind in Hq as (column & Hq & Hcol%elem_of_seqZ).
    case_decide as Hcell; [|by apply elem_of_nil in Hq].
    unfold GridPegSolitairePuzzle.jumps, GridPegSolitairePuzzle.in_range
      in Hq.
    unfold GridPegSolitairePuzzle.cell in *.
    rewrite !elem_of_app in Hq. destruct Hq as [Hq|[Hq|[Hq|Hq]]];
      match type of Hq with
      | _ ∈ (if ?b then _ else _) =>
          destruct b eqn:E; [|by apply elem_of_nil in Hq]
      end;
      apply andb_prop in E as [E E3]; apply andb_prop in E as [E1 _];
      apply bool_decide_eq_true in E1, E3;
      eapply (two_pegs _ _ _ _ _ Hcell E3); lia. }
  split; [done|]. intros Hs%bool_decide_eq_true.
  destruct (extensions self) as [|q l] eqn:E; [done|].
  assert (2 ≤ pegs (_marker self)); [|lia].
  apply (Htwo q), elem_of_cons. by left.
Qed.

(** ** What a jump does, cell by cell *)

Lemma jump_of_unique g g1 g2 r0 c0 r1 c1 r2 c2 :
  jump_of g g1 r0 c0 r1 c1 r2 c2 → jump_of g g2 r0 c0 r1 c1 r2 c2 →
  g1 = g2.
Proof.
  intros [D1 C1] [D2 C2]. apply MNPuzzleFacts.grid_ext.
  - exact (eq_trans D1 (eq_sym D2)).
  - intros a b _ _. by rewrite C1, C2.
Qed.

Lemma splice_lookup (l : list string) i x y z j :
  i + 3 ≤ length l →
  (take i l ++ [x; y; z] ++ drop (i + 3) l) !!! j =
    if decide (j = i) then x else if decide (j = i + 1) then y
    else if decide (j = i + 2) then z else l !!! j.
Proof.
  intros Hi. destruct (decide (j < i)) as [Hlt|Hge].
  - rewrite lookup_total_app_l by (rewrite length_take; lia).
    rewrite lookup_total_take by lia.
    repeat case_decide; try lia. done.
  - rewrite lookup_total_app_r by (rewrite length_take; lia).
    rewrite length_take, Nat.min_l by lia.
    destruct (j - i) as [|[|[|k]]] eqn:E; simpl.
    + rewrite decide_True by lia. done.
    + rewrite decide_False, decide_True by lia. done.
    + rewrite decide_False, decide_False, decide_True by lia. done.
    + rewrite !decide_False by lia. rewrite lookup_total_drop.
      f_equal. lia.
Qed.

Lemma row_splice (g : list (list string)) r i x y z :
  r < length g → i + 3 ≤ length (g !!! r) →
  dims (<[r := take i (g !!! r) ++ [x; y; z] ++ drop (i + 3) (g !!! r)]> g)
    = dims g ∧
  ∀ a b,
    (<[r := take i (g !!! r) ++ [x; y; z] ++ drop (i + 3) (g !!! r)]> g
       !!! a) !!! b =
    if decide (a = r ∧ b = i) then x
    else if decide (a = r ∧ b = i + 1) then y
    else if decide (a = r ∧ b = i + 2) then z else (g !!! a) !!! b.
Proof.
  intros Hr Hi. split.
  - apply dims_insert; [done|]. by destruct (splice_3 (g !!! r) i x y z Hi).
  - intros a b. rewrite list_lookup_total_insert.
    destruct (decide (r = a ∧ r < length g)) as [[-> _]|Hn].
    + rewrite splice_lookup by done. repeat case_decide; try done; tauto.
    + repeat case_decide; try done; destruct_and?; subst; tauto.
Qed.

Lemma three_writes (g : list (list string)) (ra rb rc c : nat) :
  ra < length g → rb < length g → rc < length g →
  c < length (g !!! ra) → c < length (g !!! rb) → c < length (g !!! rc) →
  ra ≠ rb → ra ≠ rc → rb ≠ rc →
  jump_of g
    (set_cell
       (set_cell (set_cell g (Z.of_nat ra) (Z.of_nat c) "*")
          (Z.of_nat rb) (Z.of_nat c) ".")
       (Z.of_nat rc) (Z.of_nat c) ".")
    rc c rb c ra c.
Proof.
  intros Ha Hb Hc Hca Hcb Hcc Hab Hac Hbc.
  unfold GridPegSolitairePuzzle.set_cell. rewrite !Nat2Z.id.
  set (g1 := alter (λ row, <[c := "*"]> row) ra g).
  set (g2 := alter (λ row, <[c := "."]> row) rb g1).
  assert (MNPuzzle.dims g1 = MNPuzzle.dims g) as D1
    by apply MNPuzzleFacts.dims_alter_insert.
  assert (MNPuzzle.dims g2 = MNPuzzle.dims g1) as D2
    by apply MNPuzzleFacts.dims_alter_insert.
  split.
  - change (MNPuzzle.dims
              (alter (λ row, <[c := "."]> row) rc g2) = MNPuzzle.dims g).
    by rewrite MNPuzzleFacts.dims_alter_insert, D2, D1.
  - assert (C1 : ∀ a b, (g1 !!! a) !!! b =
      if decide (a = ra ∧ b = c) then "*" else (g !!! a) !!! b).
    { intros a b. unfold g1. rewrite MNPuzzleFacts.lookup_alter_insert.
      repeat case_decide; try done; tauto. }
    assert (C2 : ∀ a b, (g2 !!! a) !!! b =
      if decide (a = rb ∧ b = c) then "." else (g1 !!! a) !!! b).
    { intros a b. unfold g2. rewrite MNPuzzleFacts.lookup_alter_insert.
      rewrite (MNPuzzleFacts.dims_length _ _ D1),
              (MNPuzzleFacts.dims_row _ _ rb D1).
      repeat case_decide; try done; tauto. }
    intros a b. rewrite MNPuzzleFacts.lookup_alter_insert.
    rewrite (MNPuzzleFacts.dims_length _ _ D2),
            (MNPuzzleFacts.dims_row _ _ rc D2),
            (MNPuzzleFacts.dims_length _ _ D1),
            (MNPuzzleFacts.dims_row _ _ rc D1), C2, C1.
    repeat case_decide; try done; destruct_and?; destruct_or?;
      destruct_and?; subst; try done; try lia; tauto.
Qed.

Lemma jump_of_splice (g : list (list string)) r i x y z r0 c0 r1 c1 r2 c2 :
  r < length g → i + 3 ≤ length (g !!! r) →
  (∀ a b,
     (if decide (a = r ∧ b = i) then x
      else if decide (a = r ∧ b = i + 1) then y
      else if decide (a = r ∧ b = i + 2) then z else (g !!! a) !!! b) =
     (if decide ((a = r0 ∧ b = c0) ∨ (a = r1 ∧ b = c1)) then "."
      else if decide (a = r2 ∧ b = c2) then "*" else (g !!! a) !!! b)) →
  jump_of g
    (<[r := take i (g !!! r) ++ [x; y; z] ++ drop (i + 3) (g !!! r)]> g)
    r0 c0 r1 c1 r2 c2.
Proof.
  intros Hr Hi Hf. destruct (row_splice g r i x y z Hr Hi) as [Hd Hc].
  split; [done|]. intros a b. by rewrite Hc, Hf.
Qed.

Lemma jumps_cells (self q : GPSP) (row column : nat) :
  (_marker self !!! row) !!! column = "*" →
  q ∈ GridPegSolitairePuzzle.jumps self (Z.of_nat row) (Z.of_nat column) →
  ∃ r1 c1 r2 c2,
    in_line row column r1 c1 r2 c2 ∧
    (_marker self !!! r1) !!! c1 = "*" ∧
    (_marker self !!! r2) !!! c2 = "." ∧
    jump_of (_marker self) (_marker q) row column r1 c1 r2 c2 ∧
    _marker_set q = {["*"; "."; "#"]}.
Proof.
  intros Hcell Hq. set (g := _marker self) in *.
  destruct (lookup_total_row g row column) as [Hrow Hcol];
    [by rewrite Hcell|].
  unfold GridPegSolitairePuzzle.jumps, GridPegSolitairePuzzle.in_range,
    GridPegSolitairePuzzle.cell in Hq.
  fold g in Hq. rewrite !Nat2Z.id in Hq.
  rewrite !elem_of_app in Hq. destruct Hq as [Hq|[Hq|[Hq|Hq]]];
    match type of Hq with
    | _ ∈ (if ?b then _ else _) =>
        destruct b eqn:E; [|by apply elem_of_nil in Hq]
    end;
    apply list_elem_of_singleton in Hq as ->; simpl;
    apply andb_prop in E as [E E3]; apply andb_prop in E as [E1 E2];
    apply bool_decide_eq_true in E1, E2, E3.
  - replace (Z.to_nat (Z.of_nat column - 2)) with (column - 2) in * by lia.
    replace (Z.to_nat (Z.of_nat column - 1)) with (column - 1) in * by lia.
    replace (Z.to_nat (Z.of_nat column + 1)) with (column - 2 + 3) in *
      by lia.
    exists row, (column - 1), row, (column - 2).
    split_and!; [unfold in_line; lia|done|done| |done].
    apply jump_of_splice; [done|lia|]. intros a b.
    repeat case_decide; try done; destruct_and?; destruct_or?;
      destruct_and?; subst; try done; lia.
  - replace (Z.to_nat (Z.of_nat column + 2)) with (column + 2) in * by lia.
    replace (Z.to_nat (Z.of_nat column + 1)) with (column + 1) in * by lia.
    replace (Z.to_nat (Z.of_nat column + 3)) with (column + 3) in * by lia.
    exists row, (column + 1), row, (column + 2).
    split_and!; [unfold in_line; lia|done|done| |done].
    apply jump_of_splice; [done|lia|]. intros a b.
    repeat case_decide; try done; destruct_and?; destruct_or?;
      destruct_and?; subst; try done; lia.
  - replace (Z.to_nat (Z.of_nat row - 2)) with (row - 2) in * by lia.
    replace (Z.to_nat (Z.of_nat row - 1)) with (row - 1) in * by lia.
    replace (Z.of_nat row - 2)%Z with (Z.of_nat (row - 2)) by lia.
    replace (Z.of_nat row - 1)%Z with (Z.of_nat (row - 1)) by lia.
    exists (row - 1), column, (row - 2), column.
    destruct (lookup_total_row g (row - 1) column) as [? ?];
      [by rewrite E3|].
    destruct (lookup_total_row g (row - 2) column) as [? ?];
      [by rewrite E2|].
    split_and!; [unfold in_line; lia|done|done| |done].
    apply three_writes; try done; lia.
  - replace (Z.to_nat (Z.of_nat row + 2)) with (row + 2) in * by lia.
    replace (Z.to_nat (Z.of_nat row + 1)) with (row + 1) in * by lia.
    replace (Z.of_nat row + 2)%Z with (Z.of_nat (row + 2)) by lia.
    replace (Z.of_nat row + 1)%Z with (Z.of_nat (row + 1)) by lia.
    exists (row + 1), column, (row + 2), column.
    destruct (lookup_total_row g (row + 1) column) as [? ?];
      [by rewrite E3|].
    destruct (lookup_total_row g (row + 2) column) as [? ?];
      [by rewrite E2|].
    split_and!; [unfold in_line; lia|done|done| |done].
    apply three_writes; try done; lia.
Qed.

Lemma jumps_intro (self : GPSP) (g' : list (list string))
    (r0 c0 r1 c1 r2 c2 : nat) :
  in_line r0 c0 r1 c1 r2 c2 →
  (_marker self !!! r0) !!! c0 = "*" →
  (_marker self !!! r1) !!! c1 = "*" →
  (_marker self !!! r2) !!! c2 = "." →
  jump_of (_marker self) g' r0 c0 r1 c1 r2 c2 →
  mkGPSP g' {["*"; "."; "#"]}
    ∈ GridPegSolitairePuzzle.jumps self (Z.of_nat r0) (Z.of_nat c0).
Proof.
  intros Hline H0 H1 H2 Hj. set (g := _marker self) in *.
  destruct (lookup_total_row g r0 c0) as [? ?]; [by rewrite H0|].
  destruct (lookup_total_row g r1 c1) as [? ?]; [by rewrite H1|].
  destruct (lookup_total_row g r2 c2) as [? ?]; [by rewrite H2|].
  unfold GridPegSolitairePuzzle.jumps, GridPegSolitairePuzzle.in_range,
    GridPegSolitairePuzzle.cell.
  fold g. rewrite !Nat2Z.id. rewrite !elem_of_app.
  destruct Hline as [(-> & -> & [[-> ->]|[-> ->]])
                    |(-> & -> & [[-> ->]|[-> ->]])].
  - left.
    replace (Z.to_nat (Z.of_nat (c2 + 1 + 1) - 2)) with c2 by lia.
    replace (Z.to_nat (Z.of_nat (c2 + 1 + 1) - 1)) with (c2 + 1) by lia.
    replace (Z.to_nat (Z.of_nat (c2 + 1 + 1) + 1)) with (c2 + 3) by lia.
    take_jump; [lia|done|done|].
    apply (jump_of_unique g _ _ r0 (c2 + 1 + 1) r0 (c2 + 1) r0 c2 Hj).
    apply jump_of_splice; [done|lia|]. intros a b.
    repeat case_decide; try done; destruct_and?; destruct_or?;
      destruct_and?; subst; try done; lia.
  - right. left.
    replace (Z.to_nat (Z.of_nat c0 + 2)) with (c0 + 1 + 1) by lia.
    replace (Z.to_nat (Z.of_nat c0 + 1)) with (c0 + 1) by lia.
    replace (Z.to_nat (Z.of_nat c0 + 3)) with (c0 + 3) by lia.
    take_jump; [lia|done|done|].
    apply (jump_of_unique g _ _ r0 c0 r0 (c0 + 1) r0 (c0 + 1 + 1) Hj).
    apply jump_of_splice; [done|lia|]. intros a b.
    repeat case_decide; try done; destruct_and?; destruct_or?;
      destruct_and?; subst; try done; lia.
  - right. right. left.
    replace (Z.to_nat (Z.of_nat (r2 + 1 + 1) - 2)) with r2 by lia.
    replace (Z.to_nat (Z.of_nat (r2 + 1 + 1) - 1)) with (r2 + 1) by lia.
    replace (Z.of_nat (r2 + 1 + 1) - 2)%Z with (Z.of_nat r2) by lia.
    replace (Z.of_nat (r2 + 1 + 1) - 1)%Z with (Z.of_nat (r2 + 1)) by lia.
    take_jump; [lia|done|done|].
    apply (jump_of_unique g _ _ (r2 + 1 + 1) c0 (r2 + 1) c0 r2 c0 Hj).
    apply three_writes; try done; lia.
  - right. right. right.
    replace (Z.to_nat (Z.of_nat r0 + 2)) with (r0 + 1 + 1) by lia.
    replace (Z.to_nat (Z.of_nat r0 + 1)) with (r0 + 1) by lia.
    replace (Z.of_nat r0 + 2)%Z with (Z.of_nat (r0 + 1 + 1)) by lia.
    replace (Z.of_nat r0 + 1)%Z with (Z.of_nat (r0 + 1)) by lia.
    take_jump; [lia|done|done|].
    apply (jump_of_unique g _ _ r0 c0 (r0 + 1) c0 (r0 + 1 + 1) c0 Hj).
    apply three_writes; try done; lia.
Qed.

(** X20.  The extensions of a peg-solitaire grid are exactly the grids
    obtained by one jump: a peg jumps over a peg next to it, in its row or
    its column, into the hole right behind; the two cells it leaves and
    jumps over become holes, the hole holds the peg, no other cell
    changes, and the marker set is that of the three markers. *)
Theorem extensions_jumps (self q : GPSP) :
  q ∈ extensions self ↔
    ∃ r0 c0 r1 c1 r2 c2,
      in_line r0 c0 r1 c1 r2 c2 ∧
      (_marker self !!! r0) !!! c0 = "*" ∧
      (_marker self !!! r1) !!! c1 = "*" ∧
      (_marker self !!! r2) !!! c2 = "." ∧
      jump_of (_marker self) (_marker q) r0 c0 r1 c1 r2 c2 ∧
      _marker_set q = {["*"; "."; "#"]}.
Proof.
  change (extensions self) with (GridPegSolitairePuzzle.extensions self).
  unfold GridPegSolitairePuzzle.extensions. split.
  - intros (row & Hq & Hrow%elem_of_seqZ)%list_elem_of_bind.
    apply list_elem_of_bind in Hq as (column & Hq & Hcol%elem_of_seqZ).
    case_decide as Hcell; [|by apply elem_of_nil in Hq].
    unfold GridPegSolitairePuzzle.cell in Hcell.
    replace row with (Z.of_nat (Z.to_nat row)) in Hq by lia.
    replace column with (Z.of_nat (Z.to_nat column)) in Hq by lia.
    destruct (jumps_cells self q _ _ Hcell Hq)
      as (r1 & c1 & r2 & c2 & Hl & H1 & H2 & Hj & Hms).
    exists (Z.to_nat row), (Z.to_nat column), r1, c1, r2, c2.
    by split_and!.
  - intros (r0 & c0 & r1 & c1 & r2 & c2 & Hl & H0 & H1 & H2 & Hj & Hms).
    destruct (lookup_total_row (_marker self) r0 c0) as [? ?];
      [by rewrite H0|].
    apply list_elem_of_bind. exists (Z.of_nat r0).
    split; [|apply elem_of_seqZ; lia].
    apply list_elem_of_bind. exists (Z.of_nat c0).
    split; [|apply elem_of_seqZ; rewrite Nat2Z.id; lia].
    unfold GridPegSolitairePuzzle.cell. rewrite !Nat2Z.id.
    rewrite decide_True by done.
    destruct q as [gq msq]. simpl in *. subst msq.
    by apply (jumps_intro self gq r0 c0 r1 c1 r2 c2).
Qed.

(** ** Printing a grid *)

Lemma append_cons c (a b : string) :
  String.append (String c a) b = String c (String.append a b).
Proof. done. Qed.

Lemma append_nil_l (a : string) : String.append EmptyString a = a.
Proof. done. Qed.

Lemma append_assoc (a b c : string) :
  String.append (String.append a b) c = String.append a (String.append b c).
Proof.
  induction a as [|x a IH]; [done|]. by rewrite !append_cons, IH.
Qed.

Lemma str_line (line : list string) (result : string) :
  foldl (λ result marker, String.append result marker) result line
  = String.append result (foldr String.append EmptyString line).
Proof.
  revert result. induction line as [|x line IH]; intros result; simpl.
  - induction result as [|c result IH]; [done|].
    by rewrite append_cons, <-IH.
  - by rewrite IH, append_assoc.
Qed.

Lemma str_rows (self : GPSP) :
  GridPegSolitairePuzzle.__str__ self
  = String.append nl (rows_text (_marker self)).
Proof.
  unfold GridPegSolitairePuzzle.__str__.
  assert (∀ g result,
    foldl (λ result line,
             String.append
               (foldl (λ result marker, String.append result marker)
                  result line) nl) result g
    = String.append result (rows_text g)) as Hg.
  { induction g as [|line g IH]; intros result; simpl.
    - induction result as [|c result IH]; [done|].
      by rewrite append_cons, <-IH.
    - by rewrite IH, str_line, !append_assoc. }
  apply Hg.
Qed.

Lemma row_text_inj (r1 r2 : list string) (a1 a2 : string) :
  Forall is_marker r1 → Forall is_marker r2 →
  String.append (foldr String.append EmptyString r1) (String.append nl a1)
  = String.append (foldr String.append EmptyString r2) (String.append nl a2) →
  r1 = r2 ∧ a1 = a2.
Proof.
  intros H1. revert r2. induction H1 as [|x r1 Hx H1 IH];
    intros r2 H2; destruct H2 as [|y r2 Hy H2]; simpl.
  - rewrite !append_nil_l. unfold nl. rewrite !append_cons, !append_nil_l.
    by intros [= ->].
  - rewrite append_nil_l. unfold nl.
    destruct Hy as [->|[->| ->]]; rewrite !append_cons; discriminate.
  - rewrite append_nil_l. unfold nl.
    destruct Hx as [->|[->| ->]]; rewrite !append_cons; discriminate.
  - destruct Hx as [->|[->| ->]], Hy as [->|[->| ->]];
      rewrite !append_cons, !append_nil_l; try discriminate;
      intros [= E]; destruct (IH r2 H2 E) as [-> ->]; done.
Qed.

Lemma rows_text_inj (g1 g2 : list (list string)) :
  Forall (Forall is_marker) g1 → Forall (Forall is_marker) g2 →
  rows_text g1 = rows_text g2 → g1 = g2.
Proof.
  intros H1. revert g2. induction H1 as [|r1 g1 Hr1 H1 IH];
    intros g2 H2; destruct H2 as [|r2 g2 Hr2 H2]; simpl; try done.
  - destruct Hr2 as [|x r2 Hx _]; simpl.
    + rewrite append_nil_l. unfold nl. by rewrite append_cons.
    + destruct Hx as [->|[->| ->]]; by rewrite !append_cons.
  - destruct Hr1 as [|x r1 Hx _]; simpl.
    + rewrite append_nil_l. unfold nl. by rewrite append_cons.
    + destruct Hx as [->|[->| ->]]; by rewrite !append_cons.
  - intros E. apply row_text_inj in E as [-> E]; [|done..].
    by rewrite (IH g2 H2 E).
Qed.

(** X24.  [__str__] tells peg-solitaire grids apart: two puzzles that
    passed the assertions of [__init__] and print the same text have the
    same grid. *)
Theorem str_injective (a b : GPSP) :
  init_asserts (_marker a) (_marker_set a) →
  init_asserts (_marker b) (_marker_set b) →
  GridPegSolitairePuzzle.__str__ a = GridPegSolitairePuzzle.__str__ b →
  _marker a = _marker b.
Proof.
  intros Ha%init_asserts_markers Hb%init_asserts_markers.
  rewrite !str_rows. intros E%(inj (String.append nl)).
  by apply rows_text_inj.
Qed.

(** ** Solutions and the solvers *)

(** X15.  Every solution of a peg-solitaire grid that passed the
    assertions of [__init__] makes the same number of jumps, one fewer
    than the pegs of the grid; so the chain that either solver returns
    has exactly as many nodes as the grid has pegs. *)
Theorem solutions_same_length (self : GPSP) :
  init_asserts (_marker self) (_marker_set self) →
  (∀ sol, solved_path self sol → length sol = pegs (_marker self)) ∧
  (∀ fuel root h ids,
     depth_first_solve fuel self = Some (Some root, h) ∨
     breadth_first_solve fuel self = Some (Some root, h) →
     chain h root ids → length ids = pegs (_marker self)).
Proof.
  intros Hinit.
  assert (∀ sol, solved_path self sol → length sol = pegs (_marker self))
    as Hsol.
  { intros sol (Hh & Hp & e & Hl & Hs%bool_decide_eq_true).
    rewrite last_lookup in Hl.
    pose proof (path_lookup_level self sol _ e Hh Hp Hl) as He.
    destruct (level_pegs self e _ Hinit He) as (_ & _ & Hpegs).
    destruct sol; [done|]. simpl in *. lia. }
  split; [done|]. intros fuel root h ids Hr Hch.
  assert (∃ ids', solution_chain self h root ids') as [ids' Hsc].
  { destruct Hr as [Hd|Hb].
    - destruct (dfs_returns_chain _ _ _ _ Hd) as (ids' & ? & _).
      by exists ids'.
    - destruct (bfs_returns_chain _ _ _ _ Hb) as (ids' & ? & _).
      by exists ids'. }
  rewrite (chain_unique h root ids ids' Hch (sc_chain _ _ _ _ Hsc)).
  rewrite <-(Hsol (chain_states h ids')).
  - unfold chain_states, seen_puzzles. by rewrite length_fmap.
  - by apply (solution_chain_path self h root).
Qed.

(** X27.  A game of peg solitaire never comes back to a grid: along any
    sequence of extensions from a grid that passed the assertions of
    [__init__] the states are pairwise different, since each jump takes a
    peg away. *)
Theorem paths_never_repeat (self : GPSP) (l : list GPSP) :
  init_asserts (_marker self) (_marker_set self) →
  head l = Some self → is_path l → NoDup l.
Proof.
  intros Hinit Hh Hp. apply NoDup_alt. intros i j s Hi Hj.
  pose proof (path_lookup_level self l i s Hh Hp Hi) as Li.
  pose proof (path_lookup_level self l j s Hh Hp Hj) as Lj.
  destruct (level_pegs self s i Hinit Li) as (_ & _ & Ei).
  destruct (level_pegs self s j Hinit Lj) as (_ & _ & Ej). lia.
Qed.

Lemma fail_fast_sound_grid_peg : fail_fast_sound (P:=GPSP).
Proof. intros s Hs. discriminate Hs. Qed.

(** X16.  On every peg-solitaire grid that passed the assertions of
    [__init__] both solvers return once the recursion depth and the
    number of iterations allowed are large enough, and each returns a
    chain exactly when the grid can be reduced to a single peg. *)
Theorem grid_peg_decided (self : GPSP) :
  init_asserts (_marker self) (_marker_set self) →
  ∃ n0, ∀ fuel, n0 ≤ fuel →
    ∃ rd hd rb hb,
      depth_first_solve fuel self = Some (rd, hd) ∧
      breadth_first_solve fuel self = Some (rb, hb) ∧
      (is_Some rd ↔ ∃ sol, solved_path self sol) ∧
      (is_Some rb ↔ ∃ sol, solved_path self sol).
Proof.
  intros Hinit. set (R := within self (pegs (_marker self))).
  exists (2 * length R + 1). intros fuel Hf.
  apply (finite_search self R); [exact fail_fast_sound_grid_peg| | |done].
  - apply elem_of_within. exists 0. split; [lia|]. simpl.
    by apply list_elem_of_singleton.
  - intros a b (n & _ & Ha)%elem_of_within Hb.
    assert (b ∈ level self (S n)) as Hb'.
    { simpl. apply list_elem_of_bind. by exists a. }
    apply elem_of_within. exists (S n). split; [|done].
    destruct (level_pegs self b (S n) Hinit Hb') as (_ & _ & ?). lia.
Qed.

(** X17.  Every state that can be reached from a grid that passed the
    assertions of [__init__] passes them too, has the shape of the grid,
    and, when it is not the initial state itself, has the marker set
    of the three markers, whatever the marker set of the grid was. *)
Theorem reachable_valid (self s : GPSP) n :
  init_asserts (_marker self) (_marker_set self) →
  s ∈ level self n →
  init_asserts (_marker s) (_marker_set s) ∧
  dims (_marker s) = dims (_marker self) ∧
  (0 < n → _marker_set s = {["*"; "."; "#"]}).
Proof.
  intros Hinit Hs.
  destruct (level_pegs self s n Hinit Hs) as (Hi & Hd & _).
  split_and!; [done..|]. intros Hn.
  destruct n as [|n]; [lia|]. simpl in Hs.
  apply list_elem_of_bind in Hs as (a & Hs & Ha).
  destruct (level_pegs self a n Hinit Ha) as (Hia & _ & _).
  simpl in Hs. unfold GridPegSolitairePuzzle.extensions in Hs.
  apply list_elem_of_bind in Hs as (row & Hs & Hrow%elem_of_seqZ).
  apply list_elem_of_bind in Hs as (column & Hs & Hcol%elem_of_seqZ).
  case_decide as Hcell; [|by apply elem_of_nil in Hs].
  unfold GridPegSolitairePuzzle.cell in Hcell.
  replace row with (Z.of_nat (Z.to_nat row)) in Hs by lia.
  replace column with (Z.of_nat (Z.to_nat column)) in Hs by lia.
  apply jumps_spec in Hs as [_ Hms];
    [done|by apply (init_asserts_markers _ (_marker_set a))|lia|lia|done].
Qed.

(** ** The properties at a row of two pegs and a hole *)

Lemma init_asserts_gpsp_row :
  init_asserts (_marker gpsp_row) (_marker_set gpsp_row).
Proof.
  split_and!.
  - simpl. lia.
  - simpl. constructor.
  - unfold gpsp_row. simpl. rewrite !Forall_cons, !Forall_nil. set_solver.
  - intros x. simpl. set_solver.
Qed.

Lemma gpsp_row_jump : gpsp_row_jumped ∈ level gpsp_row 1.
Proof. by_computation. Qed.

Lemma init_asserts_gpsp_row_full :
  init_asserts (_marker gpsp_row_full) (_marker_set gpsp_row_full).
Proof.
  split_and!.
  - simpl. lia.
  - simpl. constructor.
  - unfold gpsp_row_full. simpl. rewrite !Forall_cons, !Forall_nil.
    set_solver.
  - intros x. simpl. set_solver.
Qed.

Lemma str_injective_witness :
  init_asserts (_marker gpsp_row) (_marker_set gpsp_row) ∧
  init_asserts (_marker gpsp_row_full) (_marker_set gpsp_row_full) ∧
  GridPegSolitairePuzzle.__str__ gpsp_row
    = GridPegSolitairePuzzle.__str__ gpsp_row_full ∧
  _marker gpsp_row = _marker gpsp_row_full.
Proof.
  split; [exact init_asserts_gpsp_row|].
  split; [exact init_asserts_gpsp_row_full|]. split; [reflexivity|].
  exact (str_injective gpsp_row gpsp_row_full init_asserts_gpsp_row
           init_asserts_gpsp_row_full eq_refl).
Defined.

Lemma solved_is_final_witness :
  gpsp_row_jumped ∈ extensions gpsp_row ∧
  2 ≤ pegs (_marker gpsp_row) ∧
  is_solved gpsp_row_jumped = true ∧ extensions gpsp_row_jumped = [].
Proof.
  assert (gpsp_row_jumped ∈ extensions gpsp_row) as He by by_computation.
  split; [exact He|].
  split; [exact (proj1 (solved_is_final gpsp_row) gpsp_row_jumped He)|].
  split; [reflexivity|].
  exact (proj2 (solved_is_final gpsp_row_jumped) eq_refl).
Defined.

Lemma solutions_same_length_witness :
  init_asserts (_marker gpsp_row) (_marker_set gpsp_row) ∧
  (∀ sol, solved_path gpsp_row sol → length sol = pegs (_marker gpsp_row)) ∧
  (∀ fuel root h ids,
     depth_first_solve fuel gpsp_row = Some (Some root, h) ∨
     breadth_first_solve fuel gpsp_row = Some (Some root, h) →
     chain h root ids → length ids = pegs (_marker gpsp_row)).
Proof.
  split; [exact init_asserts_gpsp_row|].
  exact (solutions_same_length gpsp_row init_asserts_gpsp_row).
Defined.

Lemma paths_never_repeat_witness :
  init_asserts (_marker gpsp_row) (_marker_set gpsp_row) ∧
  head [gpsp_row; gpsp_row_jumped] = Some gpsp_row ∧
  is_path [gpsp_row; gpsp_row_jumped] ∧
  NoDup [gpsp_row; gpsp_row_jumped].
Proof.
  assert (is_path [gpsp_row; gpsp_row_jumped]) as Hp.
  { simpl. split; [by_computation|done]. }
  split; [exact init_asserts_gpsp_row|]. split; [reflexivity|].
  split; [exact Hp|].
  exact (paths_never_repeat gpsp_row [gpsp_row; gpsp_row_jumped]
           init_asserts_gpsp_row eq_refl Hp).
Defined.

Lemma grid_peg_decided_witness :
  init_asserts (_marker gpsp_row) (_marker_set gpsp_row) ∧
  ∃ n0, ∀ fuel, n0 ≤ fuel →
    ∃ rd hd rb hb,
      depth_first_solve fuel gpsp_row = Some (rd, hd) ∧
      breadth_first_solve fuel gpsp_row = Some (rb, hb) ∧
      (is_Some rd ↔ ∃ sol, solved_path gpsp_row sol) ∧
      (is_Some rb ↔ ∃ sol, solved_path gpsp_row sol).
Proof.
  split; [exact init_asserts_gpsp_row|].
  exact (grid_peg_decided gpsp_row init_asserts_gpsp_row).
Defined.

Lemma reachable_valid_witness :
  init_asserts (_marker gpsp_row) (_marker_set gpsp_row) ∧
  gpsp_row_jumped ∈ level gpsp_row 1 ∧
  init_asserts (_marker gpsp_row_jumped) (_marker_set gpsp_row_jumped) ∧
  dims (_marker gpsp_row_jumped) = dims (_marker gpsp_row) ∧
  (0 < 1 → _marker_set gpsp_row_jumped = {["*"; "."; "#"]}).
Proof.
  split; [exact init_asserts_gpsp_row|]. split; [exact gpsp_row_jump|].
  exact (reachable_valid gpsp_row gpsp_row_jumped 1 init_asserts_gpsp_row
           gpsp_row_jump).
Defined.

End GridPegFacts.
